(** * ai-erp: the schema-driven data store and the column reconciler

    A shallow embedding of the class [DataStore] (the menus, [insert],
    [update], [bulkInsert], [validateRow], [generateMenuId]) and of the
    column matching and schema post-processing of the class [AIService]
    ([generateSchema], [matchColumns], [ruleBasedMatching]), both in
    [server/index.js], followed by the properties checked against the
    specification.  The line numbers in the headings are those of that file.

    Conventions of the embedding.
    - A JS string is a [string] (its UTF-8 bytes); a JSON scalar is a [value]
      (a number is kept as an integer: nothing in these functions looks
      inside a number but the truthiness of 0), and so is a property of
      [Object.prototype], which a read can give.  The fields of a row hold
      such values, not arrays or objects of their own.
    - A row (a JS object) is the finite map of its own properties, from
      keys to values.  Its prototype is [Object.prototype]: where the
      source reads [obj[key]] with a key that is data, a key that the
      object does not own is looked up there, and an assignment to
      [__proto__] goes to the setter of the prototype.  A schema is the
      object as the schema generator and a well-formed request give it,
      with its list of [columns].
    - The stores are the four collections of the class: three [Map]s and a
      [Set].  [menu.schema] and [schemas.get(menuId)] are one and the same
      object in the source, so the schema is kept once, in [schemas].
    - In-place mutation (of the row under validation, of a column's
      [options]) is explicit state passing; a [throw] is an [Err] that
      still carries the mutations made before it.
    - [console.log] output is not part of the state and is not modelled; a
      test whose only effect is a log line leaves the state as it is.
    - The uuid generator and the clock are read at each call; the readings
      are arguments of the operation that reads them. *)

From Stdlib Require Import QArith Ascii String.
From stdpp Require Import gmap strings list pretty.
Close Scope Q_scope.
Local Open Scope string_scope.

(** ** Values and rows *)

Inductive value :=
  | VNull
  | VBool (b : bool)
  | VNum (n : Z)
  | VStr (s : string)
  | VProto (k : string).              (* Object.prototype[k], see below *)

#[global] Instance value_eq_dec : EqDecision value.
Proof. solve_decision. Defined.

Abbreviation row := (gmap string value).

(** JS truthiness of [obj.key] for a JSON scalar ([undefined] is falsy). *)
Definition truthy (v : option value) : bool :=
  match v with
  | None | Some VNull | Some (VBool false) | Some (VNum 0) | Some (VStr "") => false
  | Some _ => true
  end.

(** [a || b] on a property read. *)
Definition or_else (a : option value) (b : value) : value :=
  match a with
  | Some v => if truthy a then v else b
  | None => b
  end.

(** [{ ...obj, key: v }] where [v] may be [undefined]: a key set to
    [undefined] reads like an absent one. *)
Definition set_field (k : string) (v : option value) (r : row) : row :=
  match v with
  | Some x => <[k := x]> r
  | None => delete k r
  end.

(** ** Property reads and writes

    The own property names of [Object.prototype] in Node.js (those of
    ECMAScript and of its Annex B).  Each names a builtin function, but for
    [__proto__]: an accessor whose getter returns the prototype of the
    object, and whose setter replaces it when it is given [null] or an
    object, and does nothing otherwise.  [VProto k] is the value that
    [Object.prototype[k]] reads as; two of them are [===] when they have
    the same name, and each is truthy. *)
Definition Object_prototype : list string :=
  ["constructor"; "__defineGetter__"; "__defineSetter__"; "hasOwnProperty";
   "__lookupGetter__"; "__lookupSetter__"; "isPrototypeOf"; "propertyIsEnumerable";
   "toString"; "valueOf"; "__proto__"; "toLocaleString"].

(** An object whose fields are read and written by name: its own
    properties, and whether [Object.prototype] is (still) its prototype. *)
Record object := {
  own : row;
  inherits : bool
}.

(** An object literal, or an object of [JSON.parse]. *)
Definition literal (r : row) : object := {| own := r; inherits := true |}.

(** [obj[k]]; [None] is [undefined]. *)
Definition get (k : string) (o : object) : option value :=
  match own o !! k with
  | Some v => Some v
  | None =>
      if inherits o && bool_decide (k ∈ Object_prototype) then Some (VProto k) else None
  end.

(** [obj[k] = null]: on [__proto__], if the object does not own it and
    still inherits the setter, the prototype becomes [null] and no
    property is made. *)
Definition set_null (k : string) (o : object) : object :=
  if bool_decide (k = "__proto__") && inherits o && bool_decide (own o !! k = None)
  then {| own := own o; inherits := false |}
  else {| own := <[k := VNull]> (own o); inherits := inherits o |}.

(** ** Errors *)

Inductive error :=
  | MenuNotFound (menuId : string)      (* Error(`Menu not found: ${menuId}`) *)
  | RowNotFound (id : value)            (* Error(`Row not found: ${id}`) *)
  | TypeError                           (* raised by the engine *)
  | SyntaxError (pattern : string)      (* new RegExp(pattern) *)
  | SchemaGenerationFailed.             (* Error(`AI 스키마 생성 실패: ...`) *)

Inductive result (A : Type) :=
  | Ok (a : A)
  | Err (e : error).
Arguments Ok {A} a.
Arguments Err {A} e.

(** ** The schema model *)

Inductive field_type :=
  | TString | TNumber | TEmail | TPhone | TDate | TSelect | TTextarea.

#[global] Instance field_type_eq_dec : EqDecision field_type.
Proof. solve_decision. Defined.

Record validation_rules := {
  vmin : option value;
  vmax : option value;
  vpattern : option string
}.

Record column := {
  name : string;
  type : field_type;
  label : option string;             (* read as [column.label || column.name] *)
  required : bool;
  readOnly : bool;
  generated : bool;
  options : option (list value);
  validation : option validation_rules
}.

Definition with_options (c : column) (opts : list value) : column :=
  {| name := name c; type := type c; label := label c; required := required c;
     readOnly := readOnly c; generated := generated c;
     options := Some opts; validation := validation c |}.

Record schema := {
  menuId : option string;
  menuName : string;
  tableName : string;
  description : string;
  columns : list column
}.

Definition with_columns (s : schema) (cols : list column) : schema :=
  {| menuId := menuId s; menuName := menuName s; tableName := tableName s;
     description := description s; columns := cols |}.

(** ** The engine

    Two builtins of the JS engine decide branches of the validator: the
    global [isNaN], and whether [new RegExp(p)] returns or throws a
    [SyntaxError].  They are an interface of the development. *)

Class Engine := {
  isNaN : value -> bool;
  RegExp_ok : string -> bool
}.

Section validator.
Context `{!Engine}.

(** ** DataStore.validateRow (lines 762-828) *)

(** The [switch (column.type)] of the loop body, on a value that is neither
    [undefined] nor [null].  The email and phone cases only log. *)
Definition check_type (c : column) (actualValue : value) (o : object) : object * column :=
  match type c with
  | TNumber =>
      if isNaN actualValue then (set_null (name c) o, c) else (o, c)
  | TSelect =>
      match options c with
      | Some opts =>
          if bool_decide (actualValue ∈ opts) then (o, c)
          else (o, with_options c (opts ++ [actualValue]))
      | None => (o, c)
      end
  | _ => (o, c)
  end.

(** The [if (column.validation && actualValue !== null)] block: the
    comparisons with [min] and [max] only log; a truthy [pattern] is
    compiled with [new RegExp], which may throw. *)
Definition check_rules (c : column) : option error :=
  match validation c with
  | Some rules =>
      match vpattern rules with
      | Some p =>
          if bool_decide (p = "") then None
          else if RegExp_ok p then None else Some (SyntaxError p)
      | None => None
      end
  | None => None
  end.

(** One iteration of [for (const column of schema.columns)]. *)
Definition validateColumn (c : column) (o : object) : column * result object :=
  let value := get (name c) o in
  let o1 :=
    if required c && negb (generated c) && bool_decide (value = None)
    then set_null (name c) o else o in
  let o2 :=
    if bool_decide (value = Some (VStr "")) then set_null (name c) o1 else o1 in
  match get (name c) o2 with
  | None | Some VNull => (c, Ok o2)
  | Some actualValue =>
      let '(o3, c') := check_type c actualValue o2 in
      match check_rules c with
      | Some e => (c', Err e)
      | None => (c', Ok o3)
      end
  end.

(** The loop over the columns, on the row as an object. *)
Fixpoint validateColumns (cols : list column) (o : object) : list column * result object :=
  match cols with
  | [] => ([], Ok o)
  | c :: cs =>
      match validateColumn c o with
      | (c', Ok o') =>
          let '(cs', res) := validateColumns cs o' in (c' :: cs', res)
      | (c', Err e) => (c' :: cs, Err e)
      end
  end.

(** [validateRow(row, schema)] on a row that an object literal has just
    made, as [insert] and [update] call it; the result is the row as it is
    stored, with the own properties it has then.  (A stored row is read
    again only by spreading it, by [row.id], or by comparing a field with a
    JSON scalar, none of which tells whether it still has its
    prototype.) *)
Definition validateRow (cols : list column) (r : row) : list column * result row :=
  match validateColumns cols (literal r) with
  | (cols', Ok o) => (cols', Ok (own o))
  | (cols', Err e) => (cols', Err e)
  end.

(** ** The store *)

Record menu := {
  id : string;
  name_ : string;
  tableName_ : string;
  description_ : string;
  createdAt : string;
  updatedAt : string
}.

Record store := {
  menus : gmap string menu;          (* menuId -> menu metadata *)
  data : gmap string (list row);     (* menuId -> rows[] *)
  schemas : gmap string schema;      (* menuId -> schema *)
  dirty : gset string
}.

Definition empty_store : store :=
  {| menus := ∅; data := ∅; schemas := ∅; dirty := ∅ |}.

(** What the environment hands to one call of [insert]: the result of
    [uuidv4()] and the two readings of the clock. *)
Record ambient := {
  uuid : string;
  now_created : string;
  now_updated : string
}.

(** The in-place mutation of the stored schema's columns. *)
Definition set_columns (menuId : string) (s : schema) (cols : list column)
    (st : store) : store :=
  {| menus := menus st; data := data st;
     schemas := <[menuId := with_columns s cols]> (schemas st);
     dirty := dirty st |}.

Definition set_rows (menuId : string) (rows : list row) (st : store) : store :=
  {| menus := menus st; data := <[menuId := rows]> (data st);
     schemas := schemas st; dirty := {[menuId]} ∪ dirty st |}.

(** ** DataStore.insert (lines 616-640) *)

Definition new_row (rowData : row) (a : ambient) : row :=
  <["updatedAt" := VStr (now_updated a)]>
    (<["createdAt" := VStr (now_created a)]>
      (rowData ∪ {["id" := or_else (rowData !! "id") (VStr (uuid a))]})).

Definition insert (menuId : string) (rowData : row) (a : ambient) (st : store)
    : store * result row :=
  match data st !! menuId with
  | None => (st, Err (MenuNotFound menuId))
  | Some rows =>
      match schemas st !! menuId with
      | None => (st, Err TypeError)      (* schema.columns of undefined *)
      | Some s =>
          match validateRow (columns s) (new_row rowData a) with
          | (cols, Err e) => (set_columns menuId s cols st, Err e)
          | (cols, Ok r) =>
              (set_rows menuId (rows ++ [r]) (set_columns menuId s cols st), Ok r)
          end
      end
  end.

(** ** DataStore.update (lines 680-711) *)

(** [rows.findIndex(row => row.id === id)] *)
Fixpoint findIndex (rowId : value) (rows : list row) : option nat :=
  match rows with
  | [] => None
  | r :: rs =>
      if bool_decide (r !! "id" = Some rowId) then Some 0%nat
      else S <$> findIndex rowId rs
  end.

Definition updated_row (old updates : row) (now : string) : row :=
  <["updatedAt" := VStr now]>
    (set_field "createdAt" (old !! "createdAt")
      (set_field "id" (old !! "id") (updates ∪ old))).

Definition update (menuId : string) (rowId : value) (updates : row) (now : string)
    (st : store) : store * result row :=
  match data st !! menuId with
  | None => (st, Err (MenuNotFound menuId))
  | Some rows =>
      match findIndex rowId rows with
      | None => (st, Err (RowNotFound rowId))
      | Some index =>
          match rows !! index, schemas st !! menuId with
          | Some old, Some s =>
              match validateRow (columns s) (updated_row old updates now) with
              | (cols, Err e) => (set_columns menuId s cols st, Err e)
              | (cols, Ok r) =>
                  (set_rows menuId (<[index := r]> rows)
                     (set_columns menuId s cols st), Ok r)
              end
          | _, _ => (st, Err TypeError)  (* schema.columns of undefined *)
          end
      end
  end.

(** ** DataStore.bulkInsert (lines 738-758) *)

Record failure := {
  failed_data : row;
  failed_error : error
}.

Record bulk_results := {
  success : list row;
  failed : list failure
}.

Fixpoint bulkInsert_loop (menuId : string) (rowsData : list (row * ambient))
    (results : bulk_results) (st : store) : store * bulk_results :=
  match rowsData with
  | [] => (st, results)
  | (rowData, a) :: rest =>
      match insert menuId rowData a st with
      | (st', Ok r) =>
          bulkInsert_loop menuId rest
            {| success := success results ++ [r]; failed := failed results |} st'
      | (st', Err e) =>
          bulkInsert_loop menuId rest
            {| success := success results;
               failed := failed results ++
                 [{| failed_data := rowData; failed_error := e |}] |} st'
      end
  end.

Definition bulkInsert (menuId : string) (rowsData : list (row * ambient))
    (st : store) : store * bulk_results :=
  bulkInsert_loop menuId rowsData {| success := []; failed := [] |} st.

End validator.

(** ** JS string builtins

    [toLowerCase] maps the ASCII capitals; Hangul has no case.  (The engine
    also lowercases cased letters outside ASCII; labels here are ASCII or
    Hangul.)  [trim] strips the engine's white space and line terminators
    from both ends; [includes] is substring containment. *)

Definition lower_ascii (a : ascii) : ascii :=
  let n := nat_of_ascii a in
  if (65 <=? n)%nat && (n <=? 90)%nat then ascii_of_nat (n + 32) else a.

Fixpoint toLowerCase (s : string) : string :=
  match s with
  | EmptyString => EmptyString
  | String a s' => String (lower_ascii a) (toLowerCase s')
  end.

(** [s.includes(search)] *)
Fixpoint includes (s search : string) : bool :=
  String.prefix search s ||
  match s with
  | EmptyString => false
  | String _ s' => includes s' search
  end.

(** WhiteSpace and LineTerminator of ECMAScript, in UTF-8: U+0009..U+000D,
    U+0020, U+00A0, U+1680, U+2000..U+200A, U+2028, U+2029, U+202F, U+205F,
    U+3000, U+FEFF. *)
Definition white_space : list (list N) :=
  [[9]; [10]; [11]; [12]; [13]; [32]; [194; 160]; [225; 154; 128];
   [226; 128; 128]; [226; 128; 129]; [226; 128; 130]; [226; 128; 131];
   [226; 128; 132]; [226; 128; 133]; [226; 128; 134]; [226; 128; 135];
   [226; 128; 136]; [226; 128; 137]; [226; 128; 138]; [226; 128; 168];
   [226; 128; 169]; [226; 128; 175]; [226; 129; 159]; [227; 128; 128];
   [239; 187; 191]]%N.

Fixpoint bytes (s : string) : list N :=
  match s with
  | EmptyString => []
  | String a s' => N_of_ascii a :: bytes s'
  end.

Fixpoint of_bytes (l : list N) : string :=
  match l with
  | [] => EmptyString
  | n :: l' => String (ascii_of_N n) (of_bytes l')
  end.

Fixpoint strip_prefix (p l : list N) : option (list N) :=
  match p, l with
  | [], _ => Some l
  | x :: p', y :: l' => if (x =? y)%N then strip_prefix p' l' else None
  | _ :: _, [] => None
  end.

(** Drops one leading white-space character, read in the given direction. *)
Definition drop_space (ws : list (list N)) (l : list N) : option (list N) :=
  list_find is_Some ((fun w => strip_prefix w l) <$> ws) ≫= snd.

Fixpoint trim_front (fuel : nat) (ws : list (list N)) (l : list N) : list N :=
  match fuel with
  | O => l
  | S fuel' =>
      match drop_space ws l with
      | Some l' => trim_front fuel' ws l'
      | None => l
      end
  end.

Definition trim (s : string) : string :=
  let l := trim_front (String.length s) white_space (bytes s) in
  let l' := trim_front (String.length s) (reverse <$> white_space) (reverse l) in
  of_bytes (reverse l').

(** ** AIService.ruleBasedMatching (lines 387-439) *)

Record match_ := {
  source : string;
  target : string;
  confidence : Q
}.

(** The synonym dictionary of the source. *)
Definition synonyms : list (string * list string) :=
  [("name", ["이름"; "성명"; "사용자명"; "고객명"; "username"; "user_name";
             "customer_name"; "명"; "성함"]);
   ("email", ["이메일"; "메일"; "e-mail"; "mail"; "전자우편"]);
   ("phone", ["전화"; "전화번호"; "tel"; "telephone"; "mobile"; "휴대폰";
              "연락처"; "핸드폰"]);
   ("address", ["주소"; "addr"; "거주지"; "소재지"]);
   ("department", ["부서"; "dept"; "소속"; "팀"]);
   ("position", ["직급"; "직위"; "title"; "포지션"]);
   ("status", ["상태"; "state"; "진행상태"; "처리상태"]);
   ("date", ["날짜"; "일자"; "일시"]);
   ("amount", ["금액"; "가격"; "price"; "cost"; "비용"]);
   ("quantity", ["수량"; "qty"; "개수"; "갯수"]);
   ("description", ["설명"; "비고"; "desc"; "note"; "메모"; "내용"])].

(** [synonyms[key] || []].  The dictionary is an object literal, so a key it
    does not own is looked up on [Object.prototype]: the keys [constructor]
    and [__proto__] (the only all-lowercase ones there) read as objects
    that are truthy and have no [some] method; calling it is a TypeError. *)
Definition synonyms_of (key : string) : result (list string) :=
  match list_find (fun kv => bool_decide (kv.1 = key)) synonyms with
  | Some (_, (_, syns)) => Ok syns
  | None =>
      if bool_decide (key = "constructor") || bool_decide (key = "__proto__")
      then Err TypeError else Ok []
  end.

(** The body of the inner loop: which rule, if any, relates the source to
    this target. *)
Definition match_target (sourceLower : string) (t : column) : result (option Q) :=
  let targetLower := toLowerCase (name t) in
  match label t with
  | None => Err TypeError                (* target.label.toLowerCase() *)
  | Some l =>
      let targetLabel := toLowerCase l in
      if bool_decide (sourceLower = targetLower) ||
         bool_decide (sourceLower = targetLabel)
      then Ok (Some 1%Q)
      else
        match synonyms_of targetLower with
        | Err e => Err e
        | Ok targetSynonyms =>
            if existsb (fun syn =>
                 includes sourceLower (toLowerCase syn) ||
                 includes (toLowerCase syn) sourceLower) targetSynonyms
            then Ok (Some (9 # 10)%Q)
            else if includes sourceLower targetLower ||
                    includes targetLower sourceLower ||
                    includes sourceLower targetLabel ||
                    includes targetLabel sourceLower
            then Ok (Some (8 # 10)%Q)
            else Ok None
        end
  end.

(** [for (const target of targetColumns)] with its [break]s. *)
Fixpoint match_source (src : string) (targetColumns : list column)
    : result (option match_) :=
  match targetColumns with
  | [] => Ok None
  | t :: ts =>
      match match_target (trim (toLowerCase src)) t with
      | Err e => Err e
      | Ok (Some c) => Ok (Some {| source := src; target := name t; confidence := c |})
      | Ok None => match_source src ts
      end
  end.

Fixpoint ruleBasedMatching (sourceColumns : list string) (targetColumns : list column)
    : result (list match_) :=
  match sourceColumns with
  | [] => Ok []
  | src :: rest =>
      match match_source src targetColumns with
      | Err e => Err e
      | Ok found =>
          match ruleBasedMatching rest targetColumns with
          | Err e => Err e
          | Ok ms => Ok (option_list found ++ ms)%list
          end
      end
  end.

(** ** AIService.matchColumns (lines 324-382)

    The call of the AI Oracle is the one interaction of [matchColumns]: the
    function either finishes by itself or asks the Oracle, with the labels
    and the fields put in the prompt, and resumes on its reply. *)

Inductive oracle_reply :=
  | OracleFails                          (* anything thrown inside the try *)
  | OracleReplies (matches : list match_).

Inductive interaction :=
  | Finished (r : result (list match_))
  | CallOracle (unmatched : list string) (fields : list (string * option string))
      (resume : oracle_reply -> result (list match_)).

Definition matchColumns (sourceColumns : list string) (s : schema) : interaction :=
  match ruleBasedMatching sourceColumns (columns s) with
  | Err e => Finished (Err e)
  | Ok ruleBasedMatches =>
      let matchedSources := source <$> ruleBasedMatches in
      let unmatched :=
        filter (fun c => c ∉ matchedSources) sourceColumns in
      if bool_decide (length unmatched = 0%nat) then Finished (Ok ruleBasedMatches)
      else
        CallOracle unmatched ((fun c => (name c, label c)) <$> columns s)
          (fun reply =>
             match reply with
             | OracleReplies matches => Ok (ruleBasedMatches ++ matches)%list
             | OracleFails => Ok ruleBasedMatches
             end)
  end.

(** Running [matchColumns] against an Oracle; the second component counts
    the Oracle's invocations. *)
Definition run_matchColumns
    (oracle : list string -> list (string * option string) -> oracle_reply)
    (sourceColumns : list string) (s : schema) : result (list match_) * nat :=
  match matchColumns sourceColumns s with
  | Finished r => (r, 0%nat)
  | CallOracle unmatched fields resume => (resume (oracle unmatched fields), 1%nat)
  end.

(** ** DataStore.generateMenuId (lines 934-950) *)

(** [.replace(/\s+/g, '_')]: every maximal run of white space becomes one
    underscore.  [skip] counts the bytes left of the white-space character
    being consumed; [in_run] tells that the run has started. *)
Fixpoint replace_spaces (skip : nat) (in_run : bool) (l : list N) : list N :=
  match l with
  | [] => []
  | b :: l' =>
      match skip with
      | S k => replace_spaces k in_run l'
      | O =>
          match list_find (fun w => bool_decide (is_Some (strip_prefix w l))) white_space with
          | Some (_, w) =>
              ((if in_run then [] else [95%N]) ++
               replace_spaces (length w - 1) true l')%list
          | None => b :: replace_spaces 0 false l'
          end
      end
  end.

(** A Hangul syllable (U+AC00..U+D7A3) starts here: three bytes of UTF-8. *)
Definition hangul_at (l : list N) : bool :=
  match l with
  | b1 :: b2 :: b3 :: _ =>
      (224 <=? b1)%N && (b1 <=? 239)%N &&
      (128 <=? b2)%N && (b2 <=? 191)%N &&
      (128 <=? b3)%N && (b3 <=? 191)%N &&
      let cp := ((b1 - 224) * 4096 + (b2 - 128) * 64 + (b3 - 128))%N in
      (44032 <=? cp)%N && (cp <=? 55203)%N
  | _ => false
  end.

Definition slug_byte (b : N) : bool :=
  ((97 <=? b)%N && (b <=? 122)%N) ||      (* a-z *)
  ((48 <=? b)%N && (b <=? 57)%N) ||       (* 0-9 *)
  (b =? 95)%N.                            (* _ *)

(** [.replace(/[^a-z0-9_가-힣]/g, '')]; [keep] counts the bytes left of the
    Hangul syllable being kept. *)
Fixpoint strip_disallowed (keep : nat) (l : list N) : list N :=
  match l with
  | [] => []
  | b :: l' =>
      match keep with
      | S k => b :: strip_disallowed k l'
      | O =>
          if slug_byte b then b :: strip_disallowed 0 l'
          else if hangul_at l then b :: strip_disallowed 2 l'
          else strip_disallowed 0 l'
      end
  end.

Definition slugify (menuName : string) : string :=
  of_bytes (strip_disallowed 0 (replace_spaces 0 false (bytes (toLowerCase menuName)))).

(** The [while (this.menus.has(menuId))] loop; [fuel] bounds the number of
    iterations. *)
Fixpoint generateMenuId_loop (fuel : nat) (ms : gmap string menu) (slug menuId : string)
    (counter : nat) : option string :=
  match ms !! menuId with
  | None => Some menuId
  | Some _ =>
      match fuel with
      | O => None
      | S fuel' =>
          generateMenuId_loop fuel' ms slug (slug ++ "_" ++ pretty counter) (S counter)
      end
  end.

Definition generateMenuId (st : store) (menuName : string) : option string :=
  generateMenuId_loop (size (menus st)) (menus st) (slugify menuName)
    (slugify menuName) 1.

(** ** DataStore.createMenu (lines 555-575) *)

(** [menuData.menuId] when it is truthy. *)
Definition truthy_menuId (menuData : schema) : option string :=
  match menuId menuData with
  | Some m => if bool_decide (m = "") then None else Some m
  | None => None
  end.

Definition register (m : string) (menuData : schema) (now1 now2 : string)
    (st : store) : store * menu :=
  let mn := {| id := m; name_ := menuName menuData; tableName_ := tableName menuData;
               description_ := description menuData;
               createdAt := now1; updatedAt := now2 |} in
  ({| menus := <[m := mn]> (menus st);
      data := <[m := []]> (data st);
      schemas := <[m := menuData]> (schemas st);
      dirty := {[m]} ∪ dirty st |}, mn).

(** [menuData.menuId || this.generateMenuId(menuData.menuName)]; the result
    is [None] only if the loop of [generateMenuId] exhausts its fuel. *)
Definition createMenu (menuData : schema) (now1 now2 : string) (st : store)
    : option (store * menu) :=
  match truthy_menuId menuData with
  | Some m => Some (register m menuData now1 now2 st)
  | None =>
      m ← generateMenuId st (menuName menuData);
      Some (register m menuData now1 now2 st)
  end.

(** ** AIService.generateSchema (lines 177-210): the columns added to the
    Oracle's draft *)

Definition generated_column (n : string) (ty : field_type) (l : string) : column :=
  {| name := n; type := ty; label := Some l; required := true; readOnly := true;
     generated := true; options := None; validation := None |}.

Definition has_column (n : string) (cols : list column) : bool :=
  existsb (fun col => bool_decide (name col = n)) cols.

Definition add_generated (cols : list column) : list column :=
  let cols1 :=
    if has_column "id" cols then cols
    else generated_column "id" TString "ID" :: cols in
  let cols2 :=
    if has_column "createdAt" cols1 then cols1
    else (cols1 ++ [generated_column "createdAt" TDate "생성일시"])%list in
  if has_column "updatedAt" cols2 then cols2
  else (cols2 ++ [generated_column "updatedAt" TDate "수정일시"])%list.

(** [reply] is what the Oracle returned, [None] when the call threw. *)
Definition generateSchema (reply : option schema) : result schema :=
  match reply with
  | None => Err SchemaGenerationFailed
  | Some draft => Ok (with_columns draft (add_generated (columns draft)))
  end.

(** ** A reference engine

    The properties below hold for every [Engine].  Closed examples are
    evaluated with this one: [isNaN] of a string follows the
    StringNumericLiteral grammar of ECMAScript ([ToNumber] of a JSON number,
    boolean or [null] is never [NaN]); [RegExp_ok] rejects the patterns with
    an unbalanced group, an unterminated class or a trailing backslash,
    which every engine rejects, and lets the others stand for compiling. *)

Definition is_digit (b : N) : bool := (48 <=? b)%N && (b <=? 57)%N.

Fixpoint skip_while (p : N -> bool) (l : list N) : list N :=
  match l with
  | b :: l' => if p b then skip_while p l' else l
  | [] => []
  end.

(** One or more characters of a class, then the rest. *)
Definition some_of (p : N -> bool) (l : list N) : option (list N) :=
  match l with
  | b :: l' => if p b then Some (skip_while p l') else None
  | [] => None
  end.

(** An optional ExponentPart, then the rest. *)
Definition exponent_opt (l : list N) : option (list N) :=
  match l with
  | b :: l' =>
      if (b =? 101)%N || (b =? 69)%N then
        match l' with
        | s :: t => if (s =? 43)%N || (s =? 45)%N then some_of is_digit t
                    else some_of is_digit l'
        | [] => None
        end
      else Some l
  | [] => Some l
  end.

Definition ends (r : option (list N)) : bool :=
  match r with Some [] => true | _ => false end.

Definition unsigned_decimal (l : list N) : bool :=
  bool_decide (l = bytes "Infinity") ||
  match l with
  | 46%N :: l' => ends (some_of is_digit l' ≫= exponent_opt)
  | _ =>
      match some_of is_digit l with
      | Some (46%N :: r) => ends (exponent_opt (skip_while is_digit r))
      | Some r => ends (exponent_opt r)
      | None => false
      end
  end.

Definition is_hex (b : N) : bool :=
  is_digit b || ((97 <=? b)%N && (b <=? 102)%N) || ((65 <=? b)%N && (b <=? 70)%N).
Definition is_octal (b : N) : bool := (48 <=? b)%N && (b <=? 55)%N.
Definition is_binary (b : N) : bool := (48 <=? b)%N && (b <=? 49)%N.

Definition numeric_literal (l : list N) : bool :=
  match l with
  | [] => true                                       (* the empty string is 0 *)
  | 48%N :: x :: l' =>
      if (x =? 120)%N || (x =? 88)%N then ends (some_of is_hex l')
      else if (x =? 111)%N || (x =? 79)%N then ends (some_of is_octal l')
      else if (x =? 98)%N || (x =? 66)%N then ends (some_of is_binary l')
      else unsigned_decimal l
  | s :: l' =>
      if (s =? 43)%N || (s =? 45)%N then unsigned_decimal l' else unsigned_decimal l
  end.

Definition reference_isNaN (v : value) : bool :=
  match v with
  | VStr s => negb (numeric_literal (bytes (trim s)))
  | VProto _ => true
  | _ => false
  end.

(** [depth] counts the open groups, [in_class] tells that a class is open. *)
Fixpoint balanced (depth : nat) (in_class : bool) (l : list N) : bool :=
  match l with
  | [] => bool_decide (depth = 0%nat) && negb in_class
  | 92%N :: l' =>                                    (* backslash *)
      match l' with
      | [] => false
      | _ :: l'' => balanced depth in_class l''
      end
  | b :: l' =>
      if in_class then balanced depth (negb (b =? 93)%N) l'
      else if (b =? 91)%N then balanced depth true l'
      else if (b =? 40)%N then balanced (S depth) false l'
      else if (b =? 41)%N then
        match depth with
        | O => false
        | S d => balanced d false l'
        end
      else balanced depth false l'
  end.

#[global] Instance reference_engine : Engine := {|
  isNaN := reference_isNaN;
  RegExp_ok := fun p => balanced 0 false (bytes p)
|}.

(** * Notions used to state the properties *)

Section notions.
Context `{!Engine}.

(** ** What the validator does to one field

    [coerces c v] tells that column [c] replaces the value [v] of its field
    by [null]: a missing value of a required, non-generated field, the
    empty string, or a value of a number field for which [isNaN] holds. *)
Definition coerces (c : column) (v : option value) : bool :=
  match v with
  | None => required c && negb (generated c)
  | Some VNull => false
  | Some (VStr "") => true
  | Some x => match type c with TNumber => isNaN x | _ => false end
  end.

(** The value of field [k] after validation against [cols]. *)
Definition normalise (cols : list column) (k : string) (v : option value)
    : option value :=
  if existsb (fun c => bool_decide (name c = k) && coerces c v) cols
  then Some VNull else v.

(** The field [k] of the row is read by the columns as the row has it:
    the row owns it, or no property of [Object.prototype] has its name, or
    no column has.  (Otherwise a column finds the inherited property where
    the row has nothing.) *)
Definition reads_own (cols : list column) (r : row) (k : string) : Prop :=
  r !! k = None -> k ∈ Object_prototype -> forall c, c ∈ cols -> name c <> k.

(** No column is named like a property of [Object.prototype]. *)
Definition own_names (cols : list column) : Prop :=
  Forall (fun c => name c ∉ Object_prototype) cols.

(** Columns that differ at most in their [options]: validation mutates
    nothing else of a schema. *)
Definition same_shape (c c' : column) : Prop :=
  name c' = name c /\ type c' = type c /\ label c' = label c /\
  required c' = required c /\ readOnly c' = readOnly c /\
  generated c' = generated c /\ validation c' = validation c.

(** Every [validation.pattern] of the columns compiles. *)
Definition patterns_compile (cols : list column) : Prop :=
  Forall (fun c => check_rules c = None) cols.

(** [r] holds the fields of [raw] as the validator normalises them, for
    every field that the columns read as [raw] has it. *)
Definition validated (cols : list column) (raw r : row) : Prop :=
  forall k, reads_own cols raw k -> r !! k = normalise cols k (raw !! k).

(** The field [k] of the row is one that validation against [cols] leaves
    as it is. *)
Definition settled (cols : list column) (k : string) (r : row) : Prop :=
  normalise cols k (r !! k) = r !! k.

(** A row whose fields validation against [cols] would leave as they
    are, as the fields are that validation has read as the row's own. *)
Definition normal_row (cols : list column) (r : row) : Prop :=
  forall k, normalise cols k (r !! k) = r !! k.

Definition normal_rows (menuId : string) (st : store) : Prop :=
  forall s rows, schemas st !! menuId = Some s -> data st !! menuId = Some rows ->
    Forall (normal_row (columns s)) rows.

(** The stored rows of the entity are settled at field [k]. *)
Definition settled_rows (k menuId : string) (st : store) : Prop :=
  forall s rows, schemas st !! menuId = Some s -> data st !! menuId = Some rows ->
    Forall (settled (columns s) k) rows.

(** ** Sequences of operations on one entity *)

Inductive op :=
  | Insert (rowData : row) (a : ambient)
  | Update (rowId : value) (updates : row) (now : string).

Definition step (menuId : string) (st : store) (o : op) : store :=
  match o with
  | Insert rowData a => (insert menuId rowData a st).1
  | Update rowId updates now => (update menuId rowId updates now st).1
  end.

Definition run (menuId : string) (ops : list op) (st : store) : store :=
  foldl (step menuId) st ops.

(** The ids of the stored rows, in storage order. *)
Definition row_ids (menuId : string) (st : store) : list (option value) :=
  match data st !! menuId with
  | Some rows => (fun r : row => r !! "id") <$> rows
  | None => []
  end.

(** No insert of the sequence stores an id that is already stored. *)
Fixpoint fresh_inserts (menuId : string) (ops : list op) (st : store) : bool :=
  match ops with
  | [] => true
  | o :: ops' =>
      match o with
      | Insert rowData a =>
          match (insert menuId rowData a st).2 with
          | Ok r => bool_decide (r !! "id" ∉ row_ids menuId st)
          | Err _ => true
          end
      | Update _ _ _ => true
      end && fresh_inserts menuId ops' (step menuId st o)
  end.

(** Stores that hold the entity or not alike, under schemas that differ
    at most in the options of their columns. *)
Definition alike (menuId : string) (st st' : store) : Prop :=
  (is_Some (data st !! menuId) <-> is_Some (data st' !! menuId)) /\
  option_Forall2 (fun s s' => Forall2 same_shape (columns s) (columns s'))
    (schemas st !! menuId) (schemas st' !! menuId).

(** ** bulkInsert, row by row

    Each row is tried with [insert], in order, in the store left by the
    rows before it, whatever their outcome. *)
Fixpoint attempts (menuId : string) (rowsData : list (row * ambient)) (st : store)
    : list (row * result row) :=
  match rowsData with
  | [] => []
  | (rowData, a) :: rest =>
      (rowData, (insert menuId rowData a st).2)
        :: attempts menuId rest (insert menuId rowData a st).1
  end.

Definition after_attempts (menuId : string) (rowsData : list (row * ambient))
    (st : store) : store :=
  foldl (fun st ra => (insert menuId ra.1 ra.2 st).1) st rowsData.

Definition inserted (t : row * result row) : option row :=
  match t.2 with Ok r => Some r | Err _ => None end.

Definition rejected (t : row * result row) : option failure :=
  match t.2 with
  | Ok _ => None
  | Err e => Some {| failed_data := t.1; failed_error := e |}
  end.

End notions.

(** ** The rule pass, target by target

    The three rules of the reconciler, on the lowercased and trimmed source
    label, and the outcome of the rule pass for one label: the first target
    in listed order that any rule relates to the label, with the confidence
    of the first of the rules (a), (b), (c) that relates them. *)

Definition exact_rule (sourceLower : string) (t : column) : bool :=
  bool_decide (sourceLower = toLowerCase (name t)) ||
  bool_decide (Some sourceLower = toLowerCase <$> label t).

Definition synonym_rule (sourceLower : string) (t : column) : bool :=
  match synonyms_of (toLowerCase (name t)) with
  | Ok syns =>
      existsb (fun syn =>
        includes sourceLower (toLowerCase syn) ||
        includes (toLowerCase syn) sourceLower) syns
  | Err _ => false
  end.

Definition substring_rule (sourceLower : string) (t : column) : bool :=
  includes sourceLower (toLowerCase (name t)) ||
  includes (toLowerCase (name t)) sourceLower ||
  from_option (fun l => includes sourceLower (toLowerCase l)) false (label t) ||
  from_option (fun l => includes (toLowerCase l) sourceLower) false (label t).

Definition related (sourceLower : string) (t : column) : bool :=
  exact_rule sourceLower t || synonym_rule sourceLower t || substring_rule sourceLower t.

Definition rule_confidence (sourceLower : string) (t : column) : Q :=
  if exact_rule sourceLower t then 1%Q
  else if synonym_rule sourceLower t then (9 # 10)%Q
  else (8 # 10)%Q.

Definition first_related (targets : list column) (src : string) : option match_ :=
  (fun t => {| source := src; target := name t;
               confidence := rule_confidence (trim (toLowerCase src)) t |})
    <$> List.find (related (trim (toLowerCase src))) targets.

(** The target has a label, and the dictionary lookup for it does not end
    on [Object.prototype]: the rule pass can scan it. *)
Definition scannable (t : column) : Prop :=
  is_Some (label t) /\ synonyms_of (toLowerCase (name t)) ≠ Err TypeError.

(** The i-th name tried by [generateMenuId]. *)
Definition candidate (slug : string) (i : nat) : string :=
  match i with
  | O => slug
  | S _ => slug ++ "_" ++ pretty i
  end.

(** * The rest of the data store

    The operations of the class [DataStore] that read and delete, and the
    naming of the files it persists to. *)

(** ** DataStore.getMenu, getSchema (lines 580-582, 607-609) *)

Definition getMenu (menuId : string) (st : store) : option menu :=
  menus st !! menuId.

Definition getSchema (menuId : string) (st : store) : option schema :=
  schemas st !! menuId.

(** ** DataStore.deleteMenu (lines 594-602) *)

Definition deleteMenu (menuId : string) (st : store) : store * bool :=
  ({| menus := delete menuId (menus st);
      data := delete menuId (data st);
      schemas := delete menuId (schemas st);
      dirty := {[menuId]} ∪ dirty st |}, true).

(** ** DataStore.query (lines 645-667) *)

(** The test of one entry [[key, value]] of the filters on one row: a
    string against a string field is a case-insensitive containment,
    anything else is [===].  (The value of a filter is a JSON scalar, and
    a field that the row inherits is a function or an object: it fails
    the test as a field that the row does not have fails it, so the field
    is read as the row has it.) *)
Definition filter_holds (r : row) (key : string) (v : value) : bool :=
  match v, r !! key with
  | VStr wanted, Some (VStr found) => includes (toLowerCase found) (toLowerCase wanted)
  | _, found => bool_decide (found = Some v)
  end.

(** [Object.entries(filters).every(...)]; the tests have no effect, so
    the order of the entries does not matter. *)
Definition filters_hold (filters : row) (r : row) : bool :=
  forallb (fun kv => filter_holds r kv.1 kv.2) (map_to_list filters).

Definition query (menuId : string) (filters : row) (st : store) : result (list row) :=
  match data st !! menuId with
  | None => Err (MenuNotFound menuId)
  | Some rows =>
      if bool_decide (0 < size filters)%nat
      then Ok (List.filter (filters_hold filters) rows)
      else Ok rows
  end.

(** ** DataStore.findById (lines 672-675) *)

Definition findById (menuId : string) (rowId : value) (st : store)
    : result (option row) :=
  match query menuId ∅ st with
  | Err e => Err e
  | Ok rows => Ok (List.find (fun r : row => bool_decide (r !! "id" = Some rowId)) rows)
  end.

(** ** DataStore.delete (lines 716-733)

    [rows.splice(index, 1)] on the row found by [findIndex]. *)
Definition delete_ (menuId : string) (rowId : value) (st : store)
    : store * result bool :=
  match data st !! menuId with
  | None => (st, Err (MenuNotFound menuId))
  | Some rows =>
      match findIndex rowId rows with
      | None => (st, Err (RowNotFound rowId))
      | Some index => (set_rows menuId (delete index rows) st, Ok true)
      end
  end.

(** ** DataStore.getStats (lines 955-973)

    The entries of [stats.menus] are listed in the order in which the
    model's map enumerates the menus, which is not the insertion order of
    the [Map]; the totals do not depend on it. *)

Record menu_stats := {
  stats_id : string;
  stats_name : string;
  rowCount : nat
}.

Record stats := {
  totalMenus : nat;
  totalRows : nat;
  stats_menus : list menu_stats
}.

Definition stats_of (st : store) (entry : string * menu) : menu_stats :=
  {| stats_id := entry.1; stats_name := name_ entry.2;
     rowCount := length (default [] (data st !! entry.1)) |}.

Definition getStats (st : store) : stats :=
  {| totalMenus := size (menus st);
     totalRows := sum_list (rowCount <$> (stats_of st <$> map_to_list (menus st)));
     stats_menus := stats_of st <$> map_to_list (menus st) |}.

(** ** The files of persist and load (lines 846, 880-883) *)

Fixpoint string_drop (n : nat) (s : string) : string :=
  match n, s with
  | O, _ => s
  | S n', String _ s' => string_drop n' s'
  | S _, EmptyString => EmptyString
  end.


(** [s.replace(pattern, replacement)] for a pattern that is a string: the
    first occurrence is replaced (the replacement holds no [$]). *)
Fixpoint replace_first (pattern replacement s : string) : string :=
  if String.prefix pattern s
  then replacement ++ string_drop (String.length pattern) s
  else match s with
       | EmptyString => EmptyString
       | String a s' => String a (replace_first pattern replacement s')
       end.

(** The name that [persist] joins to the data directory for a menu:
    [`${menuId}.json`]. *)
Definition saved_file (menuId : string) : string := menuId ++ ".json".


Definition loaded_menuId (file : string) : string := replace_first ".json" "" file.


(** ** The place of a file (lines 845-846, 879)

    [path.join(this.dataDir, file)] on POSIX, for a data directory given
    by the segments of its absolute, normalised path: the segments of
    [file], at each [/], are walked from the directory; an empty segment
    and [.] stay in place, [..] goes up (and stays at the root). *)

Fixpoint split_path_from (segment : string) (s : string) : list string :=
  match s with
  | EmptyString => [segment]
  | String a s' =>
      if bool_decide (a = "/"%char) then segment :: split_path_from "" s'
      else split_path_from (segment ++ String a "") s'
  end.

(** [file.split('/')] *)
Definition split_path (file : string) : list string := split_path_from "" file.

Definition walk (place : list string) (segment : string) : list string :=
  if bool_decide (segment = "") || bool_decide (segment = ".") then place
  else if bool_decide (segment = "..") then removelast place
  else (place ++ [segment])%list.

Definition join (dataDir : list string) (file : string) : list string :=
  foldl walk dataDir (split_path file).

(** The entry of the data directory that [persist] makes (or overwrites)
    for a menu, which [readdir(this.dataDir)] then lists in [load]: the
    last segment of the joined path if the path lies in the directory
    itself.  Otherwise the file is written elsewhere, or not at all when
    the place does not exist.  [fs] refuses a path with a NUL in it.  (The
    file system is taken to accept every other name as it is.) *)
Definition listed (dataDir : list string) (menuId : string) : option string :=
  if bool_decide (0%N ∈ bytes menuId) then None
  else
    match last (join dataDir (saved_file menuId)) with
    | Some entry =>
        if bool_decide (join dataDir (saved_file menuId) = (dataDir ++ [entry])%list)
        then Some entry else None
    | None => None
    end.
(** * The replies of the providers

    What [generateWithGemini] and [generateWithClaude] do to the text of a
    reply before they hand it to [JSON.parse].  The regular expressions of
    the source are written out on the bytes of the text; the characters
    they look for are ASCII, so a position found on the bytes is the
    position found on the characters. *)

(** ** AIService.generateWithGemini (lines 494-513) *)

(** [.replace(/^```json\s*/i, '')] and [.replace(/^```\s*/, '')]: the
    fence at the start, if it is there, goes with the white space after it.
    [fold_case] is the flag [i]; the fence is given in lowercase. *)
Definition strip_start (fence : string) (fold_case : bool) (s : string) : string :=
  let head := String.substring 0 (String.length fence) s in
  if bool_decide ((if fold_case then toLowerCase head else head) = fence)
  then
    let rest := bytes (string_drop (String.length fence) s) in
    of_bytes (trim_front (length rest) white_space rest)
  else s.

(** [.replace(/\s*```$/, '')]: the fence at the very end, if it is there,
    goes with the white space before it. *)
Definition strip_end (s : string) : string :=
  match strip_prefix (reverse (bytes "```")) (reverse (bytes s)) with
  | Some l => of_bytes (reverse (trim_front (length l) (reverse <$> white_space) l))
  | None => s
  end.

(** [l.indexOf(b)], [None] for -1. *)
Fixpoint indexOf (b : N) (l : list N) : option nat :=
  match l with
  | [] => None
  | x :: l' => if (x =? b)%N then Some 0%nat else S <$> indexOf b l'
  end.

(** [l.lastIndexOf(b)] *)
Definition lastIndexOf (b : N) (l : list N) : option nat :=
  (fun i => (length l - 1 - i)%nat) <$> indexOf b (reverse l).

(** [s.substring(start, end)]: the two arguments are swapped when the
    first is the greater. *)
Definition substring (start end_ : nat) (l : list N) : list N :=
  take (Nat.max start end_ - Nat.min start end_) (drop (Nat.min start end_) l).

(** From the first [{] (byte 123) to the last [}] (byte 125); [None] when
    the function throws for want of either. *)
Definition brace_span (jsonText : string) : option string :=
  match indexOf 123 (bytes jsonText), lastIndexOf 125 (bytes jsonText) with
  | Some firstBrace, Some lastBrace =>
      Some (of_bytes (substring firstBrace (lastBrace + 1) (bytes jsonText)))
  | _, _ => None
  end.

(** The cleaning of lines 495-502. *)
Definition clean_reply (text : string) : string :=
  let jsonText := trim text in
  let jsonText := strip_end (strip_start "```json" true jsonText) in
  let jsonText := strip_end (strip_start "```" false jsonText) in
  trim jsonText.

(** The text that [generateWithGemini] hands to [JSON.parse]. *)
Definition gemini_json_text (text : string) : option string :=
  brace_span (clean_reply text).

(** ** AIService.generateWithClaude (lines 475-478)

    [text.match(/\{[\s\S]*\}/)] matches from the first [{] to the last [}]
    after it; without a match the whole text is parsed. *)
Definition claude_json_text (text : string) : string :=
  match indexOf 123 (bytes text) with
  | Some first =>
      match lastIndexOf 125 (drop first (bytes text)) with
      | Some last => of_bytes (take (last + 1) (drop first (bytes text)))
      | None => text
      end
  | None => text
  end.

(** ** AIService.analyzeSchemaModification (lines 227-269) *)

Definition modificationKeywords : list string :=
  ["컬럼"; "필드"; "추가"; "삭제"; "제거"; "수정"; "변경";
   "column"; "field"; "add"; "remove"; "delete"; "modify"].

Definition hasModificationIntent (prompt : string) : bool :=
  existsb (fun keyword => includes (toLowerCase prompt) keyword) modificationKeywords.

(** What is read of the object that Gemini returns. *)
Record modification := {
  isSchemaModification : bool;       (* the truthiness of the field *)
  action : string;
  modified_columns : list column
}.

(** The one interaction of [analyzeSchemaModification]: it answers by
    itself or asks Gemini, with the columns and the prompt, and resumes on
    the reply, [None] when anything was thrown inside the [try].  The
    function asks Gemini whatever the default provider is; [gemini] tells
    whether a key for it is configured. *)
Inductive analysis :=
  | Analysed (r : option modification)
  | AskGemini (current : list column) (prompt : string)
      (resume : option modification -> option modification).

Definition analyzeSchemaModification (gemini : bool) (prompt : string) (s : schema)
    : analysis :=
  if negb (hasModificationIntent prompt) then Analysed None
  else if negb gemini then Analysed None
  else
    AskGemini (columns s) prompt
      (fun reply =>
         match reply with
         | Some r => if isSchemaModification r then Some r else None
         | None => None
         end).

(** * The routes

    The handlers of [routes/data.routes.js], [routes/menu.routes.js] and
    [routes/schema.routes.js], each named after its method and path, as
    functions from the parameters and the body of the request, and the
    store, to the store and the response.  What a handler throws goes
    through [asyncHandler] to [errorHandler].  The bodies are those of
    well-formed requests: a row is an object of JSON scalars, a menu draft
    has a text for its [menuName] and, if it has a [menuId], a text for
    it, and a column is a column object. *)

Inductive failure_reason :=
  | Message (m : string)               (* the handler's own error.message *)
  | Thrown (e : error).                (* the message of what was thrown *)

(** The status and what the body carries: [data] (or [message]) of a
    body with [success: true], [error.message] of one with
    [success: false]. *)
Inductive response (A : Type) :=
  | Success (status : nat) (payload : A)
  | Failure (status : nat) (reason : failure_reason).
Arguments Success {A} status payload.
Arguments Failure {A} status reason.

(** Express binds a route parameter such as [:menuId] to one segment of
    the path, decoded, that is not empty: a request with nothing at the
    place of a parameter reaches none of the handlers below.  [route
    segment handler] is the answer of [handler] to the request with
    [segment] at that place, if the request reaches it. *)
Definition route {A} (segment : string) (handler : string -> A) : option A :=
  if bool_decide (segment = "") then None else Some (handler segment).

(** ** errorHandler (middleware/errorHandler.js, lines 4-18)

    [err.statusCode || 500] and [err.message || 'Internal Server Error'];
    the errors of the store and of the engine have no [statusCode], and a
    message that is not empty.  (The stack that the body also carries
    under [NODE_ENV=development] is left out.) *)
Definition errorHandler {A} (err : error) : response A :=
  Failure 500 (Thrown err).

(** ** routes/data.routes.js *)

(** GET /api/data/:menuId (lines 11-22); [filters] is [req.query], for a
    query string whose parameters are plain strings. *)
Definition GET_data (menuId : string) (filters : gmap string string) (st : store)
    : response (list row * nat) :=
  match query menuId (VStr <$> filters) st with
  | Ok rows => Success 200 (rows, length rows)
  | Err e => errorHandler e
  end.

(** GET /api/data/:menuId/:id (lines 28-44) *)
Definition GET_data_id (menuId id : string) (st : store) : response row :=
  match findById menuId (VStr id) st with
  | Ok (Some r) => Success 200 r
  | Ok None => Failure 404 (Message "Data not found")
  | Err e => errorHandler e
  end.

(** DELETE /api/data/:menuId/:id (lines 82-91) *)
Definition DELETE_data_id (menuId id : string) (st : store) : store * response string :=
  match delete_ menuId (VStr id) st with
  | (st', Ok _) => (st', Success 200 "Data deleted successfully")
  | (st', Err e) => (st', errorHandler e)
  end.

Section data_routes.
Context `{!Engine}.

(** POST /api/data/:menuId (lines 50-60) *)
Definition POST_data (menuId : string) (rowData : row) (a : ambient) (st : store)
    : store * response row :=
  match insert menuId rowData a st with
  | (st', Ok r) => (st', Success 201 r)
  | (st', Err e) => (st', errorHandler e)
  end.

(** PUT /api/data/:menuId/:id (lines 66-76) *)
Definition PUT_data_id (menuId id : string) (updates : row) (now : string) (st : store)
    : store * response row :=
  match update menuId (VStr id) updates now st with
  | (st', Ok r) => (st', Success 200 r)
  | (st', Err e) => (st', errorHandler e)
  end.

(** POST /api/data/:menuId/bulk (lines 97-114); [rows] is [None] when
    [req.body.rows] is not an array. *)
Definition POST_data_bulk (menuId : string) (rows : option (list (row * ambient)))
    (st : store) : store * response bulk_results :=
  match rows with
  | None => (st, Failure 400 (Message "rows must be an array"))
  | Some rowsData =>
      let '(st', results) := bulkInsert menuId rowsData st in
      (st', Success 200 results)
  end.

End data_routes.

(** ** routes/menu.routes.js

    The menu of a response carries its schema ([menu.schema]), which the
    model keeps in [schemas]. *)

(** GET /api/menus/:menuId (lines 24-39) *)
Definition GET_menus_id (menuId : string) (st : store) : response (menu * option schema) :=
  match getMenu menuId st with
  | Some m => Success 200 (m, getSchema menuId st)
  | None => Failure 404 (Message "Menu not found")
  end.

(** POST /api/menus (lines 45-61); [None] if [createMenu] did not return. *)
Definition POST_menus (menuData : schema) (now1 now2 : string) (st : store)
    : option (store * response (menu * option schema)) :=
  if bool_decide (menuName menuData = "")
  then Some (st, Failure 400 (Message "menuName is required"))
  else
    '(st', m) ← createMenu menuData now1 now2 st;
    Some (st', Success 201 (m, getSchema (id m) st')).

(** DELETE /api/menus/:menuId (lines 67-76) *)
Definition DELETE_menus_id (menuId : string) (st : store) : store * response string :=
  ((deleteMenu menuId st).1, Success 200 "Menu deleted successfully").

(** GET /api/menus/:menuId/schema (lines 82-97) *)
Definition GET_menus_id_schema (menuId : string) (st : store) : response schema :=
  match getSchema menuId st with
  | Some s => Success 200 s
  | None => Failure 404 (Message "Schema not found")
  end.

(** GET /api/menus/system/stats (lines 103-110) *)
Definition GET_menus_system_stats (st : store) : response stats :=
  Success 200 (getStats st).

(** ** routes/schema.routes.js *)

(** [menu.updatedAt = new Date().toISOString()] *)
Definition touched (m : menu) (now : string) : menu :=
  {| id := id m; name_ := name_ m; tableName_ := tableName_ m;
     description_ := description_ m; createdAt := createdAt m; updatedAt := now |}.

(** PUT /api/schema/:menuId (lines 11-40); a missing schema makes
    [schema.columns = columns] a TypeError. *)
Definition PUT_schema (menuId : string) (cols : list column) (now : string) (st : store)
    : store * response (menu * schema) :=
  match getMenu menuId st with
  | None => (st, Failure 404 (Message "Menu not found"))
  | Some m =>
      match getSchema menuId st with
      | None => (st, errorHandler TypeError)
      | Some s =>
          ({| menus := <[menuId := touched m now]> (menus st);
              data := data st;
              schemas := <[menuId := with_columns s cols]> (schemas st);
              dirty := {[menuId]} ∪ dirty st |},
           Success 200 (touched m now, with_columns s cols))
      end
  end.

(** The schema of an entity with other columns, marked as changed. *)
Definition with_schema_columns (menuId : string) (s : schema) (cols : list column)
    (st : store) : store :=
  {| menus := menus st; data := data st;
     schemas := <[menuId := with_columns s cols]> (schemas st);
     dirty := {[menuId]} ∪ dirty st |}.

(** POST /api/schema/:menuId/add-column (lines 46-70) *)
Definition POST_schema_add_column (menuId : string) (c : column) (st : store)
    : store * response schema :=
  match getSchema menuId st with
  | None => (st, Failure 404 (Message "Schema not found"))
  | Some s =>
      (with_schema_columns menuId s (columns s ++ [c]) st,
       Success 200 (with_columns s (columns s ++ [c])))
  end.

(** DELETE /api/schema/:menuId/column/:columnName (lines 76-100) *)
Definition DELETE_schema_column (menuId columnName : string) (st : store)
    : store * response schema :=
  match getSchema menuId st with
  | None => (st, Failure 404 (Message "Schema not found"))
  | Some s =>
      let cols :=
        List.filter (fun col => negb (bool_decide (name col = columnName))) (columns s) in
      (with_schema_columns menuId s cols st, Success 200 (with_columns s cols))
  end.

(** ** routes/ai.routes.js, POST /api/ai/parse-file (lines 154-164)

    The row made of a row of the sheet and the column matches: a match of
    confidence 0.7 or more sets the field of its target to what the row of
    the sheet reads as under its source, which is [undefined] where
    neither the row nor [Object.prototype] has such a property (so a field
    of the result can be present and [undefined]).  The assignment can
    reach the setter of [__proto__], and after that fail. *)

(** What the object under construction inherits from: [Object.prototype]
    as [{}] does, nothing, or one of the functions that are properties of
    [Object.prototype]. *)
Inductive prototype :=
  | Plain
  | Missing
  | Builtin (k : string).

(** The properties a function has or inherits from [Function.prototype]
    that cannot be assigned through an heir: [length] and [name] are not
    writable, the setters of [arguments] and [caller] throw, and the
    [prototype] of the constructor [Object] is not writable. *)
Definition read_only (p : prototype) (k : string) : bool :=
  match p with
  | Builtin f =>
      bool_decide (k ∈ ["length"; "name"; "arguments"; "caller"]) ||
      (bool_decide (f = "constructor") && bool_decide (k = "prototype"))
  | _ => false
  end.

(** The inherited setter of [__proto__]: [null] and objects become the
    prototype, anything else is ignored.  The objects a value can be are
    the properties of [Object.prototype]; the one under [__proto__] is
    [Object.prototype] itself. *)
Definition set_prototype (v : option value) (p : prototype) : prototype :=
  match v with
  | Some VNull => Missing
  | Some (VProto k) => if bool_decide (k = "__proto__") then Plain else Builtin k
  | _ => p
  end.

(** [transformed[k] = v] in a module, which is strict code: an own
    property is overwritten; without one, [__proto__] goes to the setter
    while it is inherited and makes no property, and a name that is read
    only up the chain is a TypeError. *)
Definition assign (k : string) (v : option value)
    (transformed : gmap string (option value) * prototype)
    : result (gmap string (option value) * prototype) :=
  match transformed.1 !! k, transformed.2 with
  | Some _, _ | None, Missing => Ok (<[k := v]> transformed.1, transformed.2)
  | None, p =>
      if bool_decide (k = "__proto__") then Ok (transformed.1, set_prototype v p)
      else if read_only p k then Err TypeError
      else Ok (<[k := v]> transformed.1, p)
  end.

Fixpoint assign_matches (columnMatches : list match_) (sheet_row : row)
    (transformed : gmap string (option value) * prototype)
    : result (gmap string (option value) * prototype) :=
  match columnMatches with
  | [] => Ok transformed
  | m :: columnMatches =>
      if Qle_bool (7 # 10)%Q (confidence m)
      then match assign (target m) (get (source m) (literal sheet_row)) transformed with
           | Ok transformed => assign_matches columnMatches sheet_row transformed
           | Err e => Err e
           end
      else assign_matches columnMatches sheet_row transformed
  end.

Definition transform (columnMatches : list match_) (sheet_row : row)
    : result (gmap string (option value)) :=
  match assign_matches columnMatches sheet_row (∅, Plain) with
  | Ok transformed => Ok transformed.1
  | Err e => Err e
  end.

(** * The client

    The store of the client ([src/store/appStore.js]) and the columns and
    the blank form of the grid ([src/components/DynamicGrid.jsx]).  A menu
    is held as the server sent it, with its schema. *)

Record app_state := {
  menus_ : list (menu * option schema);
  activeMenu : option (menu * option schema);
  currentData : list row;
  currentSchema : option schema;
  loading : bool;
  error_ : option string
}.

Definition with_currentData (currentData : list row) (state : app_state) : app_state :=
  {| menus_ := menus_ state; activeMenu := activeMenu state;
     currentData := currentData; currentSchema := currentSchema state;
     loading := loading state; error_ := error_ state |}.

Definition setCurrentData (data : list row) (state : app_state) : app_state :=
  with_currentData data state.

(** [currentData: [...state.currentData, row]] *)
Definition addData (r : row) (state : app_state) : app_state :=
  with_currentData (currentData state ++ [r]) state.

(** [row.id === id ? { ...row, ...updates } : row] on every row *)
Definition updateData (rowId : value) (updates : row) (state : app_state) : app_state :=
  with_currentData
    ((fun r : row => if bool_decide (r !! "id" = Some rowId) then updates ∪ r else r)
     <$> currentData state) state.

(** [state.currentData.filter(row => row.id !== id)] *)
Definition deleteData (rowId : value) (state : app_state) : app_state :=
  with_currentData
    (List.filter (fun r : row => negb (bool_decide (r !! "id" = Some rowId)))
       (currentData state)) state.

Definition addBulkData (rows : list row) (state : app_state) : app_state :=
  with_currentData (currentData state ++ rows) state.

(** [removeMenu]: the menus without those of the id, and no active menu if
    it was the active one. *)
Definition removeMenu (menuId : string) (state : app_state) : app_state :=
  {| menus_ := List.filter (fun m => negb (bool_decide (id m.1 = menuId))) (menus_ state);
     activeMenu :=
       match activeMenu state with
       | Some m => if bool_decide (id m.1 = menuId) then None else Some m
       | None => None
       end;
     currentData := currentData state; currentSchema := currentSchema state;
     loading := loading state; error_ := error_ state |}.

(** [setActiveMenu]: [currentSchema: menu?.schema || null] *)
Definition setActiveMenu (m : option (menu * option schema)) (state : app_state)
    : app_state :=
  {| menus_ := menus_ state; activeMenu := m;
     currentData := currentData state; currentSchema := m ≫= snd;
     loading := loading state; error_ := error_ state |}.

(** ** DynamicGrid (lines 17-30, 89-96) *)

Definition editableColumns (s : schema) : list column :=
  List.filter (fun col => negb (readOnly col) && negb (generated col)) (columns s).

Definition displayColumns (s : schema) : list column :=
  let regular :=
    List.filter (fun col => negb (bool_decide (name col = "id")) &&
                            negb (bool_decide (name col = "createdAt")) &&
                            negb (bool_decide (name col = "updatedAt"))) (columns s) in
  let timestamps :=
    List.filter (fun col => bool_decide (name col = "createdAt") ||
                            bool_decide (name col = "updatedAt")) (columns s) in
  (regular ++ timestamps)%list.

(** The data of the form for a new row, as [handleAddNew] sets it:
    [initialData[col.name] = ''] for every editable column, which makes a
    property but for a column named [__proto__] (the assignment goes to
    the setter of [Object.prototype], which ignores a string). *)
Definition initialData (s : schema) : row :=
  foldl (fun initial col =>
           if bool_decide (name col = "__proto__") then initial
           else <[name col := VStr ""]> initial) ∅ (editableColumns s).

(** * Further notions used to state the properties *)

(** Bytes among which there is neither [{] nor [}]. *)
Definition brace_free (l : list N) : Prop :=
  Forall (fun b => b <> 123%N /\ b <> 125%N) l.

(** [inner] is what is left of [l] when brace-free bytes are taken off its
    two ends. *)
Definition pared (l inner : list N) : Prop :=
  exists p q, l = (p ++ inner ++ q)%list /\ brace_free p /\ brace_free q.

(** * Example data *)

Definition plain_column (n l : string) (ty : field_type) (req : bool) : column :=
  {| name := n; type := ty; label := Some l; required := req; readOnly := false;
     generated := false; options := None; validation := None |}.

(** The entity of the specification's scenarios: a required name and a
    required email, to which the schema generator has added the three
    generated fields. *)
Definition contacts_schema : schema :=
  {| menuId := Some "contacts"; menuName := "Contacts"; tableName := "contacts";
     description := "";
     columns := add_generated
       [plain_column "name" "Name" TString true;
        plain_column "email" "Email" TEmail true] |}.

Definition store_of (created : option (store * menu)) : store :=
  match created with
  | Some (st, _) => st
  | None => empty_store
  end.

Definition contacts_store : store :=
  store_of (createMenu contacts_schema "2024-05-01T09:00:00.000Z"
              "2024-05-01T09:00:00.000Z" empty_store).

Definition reading (u t : string) : ambient :=
  {| uuid := u; now_created := t; now_updated := t |}.

Definition kim : row :=
  {[ "name" := VStr "Kim"; "email" := VStr "kim@example.com" ]}.

(** The contacts after [insert('contacts', {name: 'Kim', email: ...})]. *)
Definition contacts_with_kim : store :=
  (insert "contacts" kim (reading "u-1" "2024-05-02T10:00:00.000Z") contacts_store).1.

(** A draft without generated fields, as a client may post it. *)
Definition notes_draft : schema :=
  {| menuId := Some "notes"; menuName := "Notes"; tableName := "notes";
     description := "";
     columns := [plain_column "title" "Title" TString true] |}.

Definition orders_draft : schema :=
  {| menuId := Some ""; menuName := "Order List"; tableName := "orders";
     description := "";
     columns := [plain_column "item" "Item" TString true] |}.

Definition status_column : column :=
  {| name := "status"; type := TSelect; label := Some "Status"; required := false;
     readOnly := false; generated := false;
     options := Some [VStr "open"; VStr "closed"]; validation := None |}.

(** A column whose pattern is not a regular expression. *)
Definition code_column : column :=
  {| name := "code"; type := TString; label := Some "Code"; required := false;
     readOnly := false; generated := false; options := None;
     validation := Some {| vmin := None; vmax := None; vpattern := Some "(" |} |}.

Definition codes_schema : schema :=
  {| menuId := Some "codes"; menuName := "Codes"; tableName := "codes";
     description := ""; columns := add_generated [code_column] |}.

(** A column given by its name alone, as in the test of [matchColumns]
    shown in the developer guide. *)
Definition bare_column (n : string) : column :=
  {| name := n; type := TString; label := None; required := false;
     readOnly := false; generated := false; options := None; validation := None |}.

(** Targets of the reconciler. *)
Definition account_targets : list column :=
  [plain_column "username" "User" TString true;
   plain_column "name" "Name" TString true].

Definition payments_schema : schema :=
  {| menuId := Some "payments"; menuName := "Payments"; tableName := "payments";
     description := "";
     columns := add_generated [plain_column "paid" "Paid" TString false] |}.

(** The resumption of [matchColumns] after a rule pass that found [rule]. *)
Definition resume_with (rule : list match_) (reply : oracle_reply)
    : result (list match_) :=
  match reply with
  | OracleReplies matches => Ok (rule ++ matches)%list
  | OracleFails => Ok rule
  end.

Definition name_match : match_ :=
  {| source := "Name"; target := "name"; confidence := 1%Q |}.

Definition contact_fields : list (string * option string) :=
  (fun c => (name c, label c)) <$> columns contacts_schema.

Definition lee : row := {[ "name" := VStr "Lee" ]}.

Definition forged : row :=
  {[ "id" := VStr "forged"; "createdAt" := VStr "2000-01-01" ]}.

(** An insert without id, an insert with an id of the caller's that is
    not stored yet, and an update that tries to forge the generated
    fields. *)
Definition contact_ops : list op :=
  [Insert kim (reading "u-1" "2024-05-02T10:00:00.000Z");
   Insert {[ "id" := VStr "A-7"; "name" := VStr "Lee" ]}
     (reading "u-2" "2024-05-02T11:00:00.000Z");
   Update (VStr "u-1") forged "2024-05-03T08:00:00.000Z"].

(** Two inserts that carry the same id. *)
Definition clashing_ops : list op :=
  [Insert {[ "id" := VStr "A-1"; "name" := VStr "Kim" ]}
     (reading "u-1" "2024-05-02T10:00:00.000Z");
   Insert {[ "id" := VStr "A-1"; "name" := VStr "Lee" ]}
     (reading "u-2" "2024-05-02T11:00:00.000Z")].

Definition codes_store : store :=
  store_of (createMenu codes_schema "2024-05-01T09:00:00.000Z"
              "2024-05-01T09:00:00.000Z" empty_store).

(** An entity whose schema types [updatedAt] as a number. *)
Definition ticks_schema : schema :=
  {| menuId := Some "ticks"; menuName := "Ticks"; tableName := "ticks";
     description := "";
     columns := add_generated [plain_column "updatedAt" "Updated" TNumber false] |}.

Definition ticks_store : store :=
  store_of (createMenu ticks_schema "2024-05-01T09:00:00.000Z"
              "2024-05-01T09:00:00.000Z" empty_store).

Definition silent_oracle (unmatched : list string)
    (fields : list (string * option string))
    : oracle_reply :=
  OracleReplies [].

(** An entity with a required column named like a property of
    [Object.prototype]. *)
Definition builder_column : column := plain_column "constructor" "Builder" TString true.

Definition sites_schema : schema :=
  {| menuId := Some "sites"; menuName := "Sites"; tableName := "sites";
     description := ""; columns := add_generated [builder_column] |}.

Definition sites_store : store :=
  store_of (createMenu sites_schema "2024-05-01T09:00:00.000Z"
              "2024-05-01T09:00:00.000Z" empty_store).
(** * Further example data *)

(** The row of Kim as [contacts_with_kim] stores it. *)
Definition stored_kim : row :=
  {[ "id" := VStr "u-1"; "name" := VStr "Kim"; "email" := VStr "kim@example.com";
     "createdAt" := VStr "2024-05-02T10:00:00.000Z";
     "updatedAt" := VStr "2024-05-02T10:00:00.000Z" ]}.

Definition kim_reading : ambient := reading "u-1" "2024-05-02T10:00:00.000Z".

(** The contacts after Kim's row has been deleted again. *)
Definition contacts_without_kim : store :=
  (delete_ "contacts" (VStr "u-1") contacts_with_kim).1.

(** The menu that [createMenu] makes of [notes_draft]. *)
Definition notes_menu : menu :=
  {| id := "notes"; name_ := "Notes"; tableName_ := "notes"; description_ := "";
     createdAt := "2024-05-04T09:00:00.000Z"; updatedAt := "2024-05-04T09:00:00.000Z" |}.

Definition contacts_and_notes : store :=
  store_of (createMenu notes_draft "2024-05-04T09:00:00.000Z" "2024-05-04T09:00:00.000Z"
              contacts_store).

Definition phone_column : column := plain_column "phone" "Phone" TPhone true.

(** A client that shows the given rows. *)
Definition showing (rows : list row) : app_state :=
  {| menus_ := []; activeMenu := None; currentData := rows; currentSchema := None;
     loading := false; error_ := None |}.

(** The notes with one row, stored under an id of the caller's. *)
Definition notes_with_abc : store :=
  (insert "notes" {[ "id" := VStr "abc"; "title" := VStr "T" ]}
     (reading "u-9" "2024-05-04T10:00:00.000Z") contacts_and_notes).1.

(** A column that types the id as a number. *)
Definition numeric_id_column : column := plain_column "id" "Id" TNumber false.

(** * Properties of the validator *)

Section validator_facts.
Context `{!Engine}.

(** ** Reads and writes of the row under validation *)

Lemma get_own k o v : own o !! k = Some v -> get k o = Some v.
Proof. unfold get. by intros ->. Qed.

Lemma get_plain k o : k ∉ Object_prototype -> get k o = own o !! k.
Proof.
  intros Hk. unfold get. destruct (own o !! k); [done|].
  by rewrite (bool_decide_eq_false_2 _ Hk), andb_false_r.
Qed.

(** A field that the object owns, or whose name is not inherited, is read
    as the object has it. *)
Lemma get_as_owned k o :
  (own o !! k = None -> k ∉ Object_prototype) -> get k o = own o !! k.
Proof.
  intros Hk. destruct (own o !! k) as [v|] eqn:Ho.
  - by apply get_own.
  - rewrite get_plain, Ho; auto.
Qed.

Lemma proto_inherited : "__proto__" ∈ Object_prototype.
Proof. compute_done. Qed.

Lemma set_null_as_owned k o :
  (own o !! k = None -> k ∉ Object_prototype) ->
  set_null k o = {| own := <[k := VNull]> (own o); inherits := inherits o |}.
Proof.
  intros Hk. unfold set_null.
  destruct (decide (k = "__proto__")) as [->|Hne].
  - destruct (own o !! "__proto__") as [v|] eqn:Ho.
    + by rewrite (bool_decide_eq_false_2 (Some v = None)), andb_false_r.
    + destruct (Hk eq_refl proto_inherited).
  - by rewrite (bool_decide_eq_false_2 _ Hne).
Qed.

Lemma set_null_other k o k' : k <> k' -> own (set_null k o) !! k' = own o !! k'.
Proof.
  intros Hne. unfold set_null. case_match; simpl; [done|].
  by rewrite lookup_insert_ne.
Qed.

Lemma check_type_shape c v o o' c' :
  check_type c v o = (o', c') -> same_shape c c'.
Proof.
  unfold check_type, same_shape. intros Hc.
  destruct (type c) eqn:Hty; try (by inversion Hc; subst).
  - destruct (isNaN v); by inversion Hc; subst.
  - destruct (options c) as [opts|]; [|by inversion Hc; subst].
    case_bool_decide; by inversion Hc; subst.
Qed.

Lemma check_type_object c v o :
  (check_type c v o).1 =
    if bool_decide (type c = TNumber) && isNaN v then set_null (name c) o else o.
Proof.
  unfold check_type. destruct (type c); simpl; try done.
  - by destruct (isNaN v).
  - destruct (options c) as [opts|]; [|done]. by case_bool_decide.
Qed.

Lemma check_type_other c v o o' c' k :
  check_type c v o = (o', c') -> name c <> k -> own o' !! k = own o !! k.
Proof.
  intros Hc Hne. pose proof (check_type_object c v o) as Ho. rewrite Hc in Ho.
  simpl in Ho. subst o'. case_match; [by apply set_null_other|done].
Qed.

(** What one column does to a field [k] that it reads as the row has it. *)
Lemma validateColumn_lookup c o c' o' k :
  validateColumn c o = (c', Ok o') ->
  (own o !! k = None -> k ∈ Object_prototype -> name c <> k) ->
  own o' !! k = if bool_decide (name c = k) && coerces c (own o !! k) then Some VNull
                else own o !! k.
Proof.
  unfold validateColumn. intros Hv Hread.
  destruct (decide (name c = k)) as [Hk|Hne].
  - rewrite (bool_decide_eq_true_2 _ Hk). simpl. rewrite Hk in Hv.
    assert (own o !! k = None -> k ∉ Object_prototype) as Hown.
    { intros Hnone Hin. by destruct (Hread Hnone Hin). }
    pose proof (set_null_as_owned k o Hown) as Hset.
    pose proof (get_as_owned k o Hown) as Hget. rewrite !Hget in Hv. clear Hown.
    destruct (own o !! k) as [v|] eqn:Ho.
    + rewrite (bool_decide_eq_false_2 (Some v = None)), andb_false_r in Hv by done.
      destruct (decide (v = VStr "")) as [->|Hv0].
      * rewrite bool_decide_eq_true_2 in Hv by done.
        rewrite Hset in Hv. unfold get in Hv. simpl in Hv.
        rewrite lookup_insert_eq in Hv. injection Hv as <- <-. simpl.
        by rewrite lookup_insert_eq.
      * rewrite bool_decide_eq_false_2 in Hv by congruence.
        rewrite Hget in Hv.
        destruct (decide (v = VNull)) as [->|Hnull].
        { injection Hv as <- <-. by rewrite Ho. }
        pose proof (check_type_object c v o) as Hct.
        destruct (check_type c v o) as [o3 c3]. simpl in Hct. subst o3.
        assert (own o' !! k =
                own (if bool_decide (type c = TNumber) && isNaN v
                     then set_null (name c) o else o) !! k) as ->.
        { destruct v; [done|..]; destruct (check_rules c); by simplify_eq. }
        rewrite Hk, Hset. destruct (bool_decide (type c = TNumber)) eqn:Hnum; simpl.
        -- apply bool_decide_eq_true in Hnum. destruct (isNaN v) eqn:Hnan; simpl.
           ++ rewrite lookup_insert_eq.
              destruct v as [| | |[|]|]; try done; by rewrite Hnum, ?Hnan.
           ++ rewrite Ho.
              destruct v as [| | |[|]|]; try done; by rewrite Hnum, ?Hnan.
        -- apply bool_decide_eq_false in Hnum. rewrite Ho.
           destruct v as [| | |[|]|]; try done; by destruct (type c).
    + rewrite (bool_decide_eq_true_2 (None = None)), andb_true_r in Hv by done.
      rewrite (bool_decide_eq_false_2 (None = Some _)) in Hv by done.
      destruct (required c && negb (generated c)) eqn:Hreq.
      * rewrite Hset in Hv. unfold get in Hv. simpl in Hv.
        rewrite lookup_insert_eq in Hv. injection Hv as <- <-.
        simpl. by rewrite lookup_insert_eq, Hreq.
      * rewrite Hget in Hv. injection Hv as <- <-.
        simpl. by rewrite Hreq, Ho.
  - rewrite (bool_decide_eq_false_2 _ Hne). simpl.
    set (o1 := if required c && negb (generated c) && bool_decide (get (name c) o = None)
               then set_null (name c) o else o) in *.
    set (o2 := if bool_decide (get (name c) o = Some (VStr "")) then set_null (name c) o1
               else o1) in *.
    assert (own o2 !! k = own o !! k) as Ho2.
    { unfold o2, o1. repeat case_match; by rewrite ?set_null_other. }
    destruct (get (name c) o2) as [v|] eqn:Hv2; [|by injection Hv as <- <-].
    destruct (check_type c v o2) as [o3 c3] eqn:Hct.
    pose proof (check_type_other _ _ _ _ _ k Hct Hne) as Ho3.
    destruct v; [by injection Hv as <- <-|..];
      destruct (check_rules c); simplify_eq; congruence.
Qed.

Lemma same_shape_refl c : same_shape c c.
Proof. by unfold same_shape. Qed.

Lemma validateColumn_shape c o c' res :
  validateColumn c o = (c', res) -> same_shape c c'.
Proof.
  unfold validateColumn. intros Hv.
  repeat case_match; simplify_eq;
    eauto using same_shape_refl, check_type_shape.
Qed.

Lemma validateColumns_shape cols o cols' res :
  validateColumns cols o = (cols', res) -> Forall2 same_shape cols cols'.
Proof.
  revert o cols' res. induction cols as [|c cs IH]; intros o cols' res Hv; simpl in Hv.
  - by inversion Hv.
  - destruct (validateColumn c o) as [c1 [o1|e]] eqn:Hc.
    + destruct (validateColumns cs o1) as [cs1 res1] eqn:Hcs. inversion Hv; subst.
      constructor; eauto using validateColumn_shape.
    + inversion Hv; subst. constructor; eauto using validateColumn_shape.
      apply Forall_Forall2_diag, Forall_forall. eauto using same_shape_refl.
Qed.

(** [validateRow] in terms of the loop. *)
Lemma validateRow_Ok cols r cols' r' :
  validateRow cols r = (cols', Ok r') <->
  exists o, validateColumns cols (literal r) = (cols', Ok o) /\ own o = r'.
Proof.
  unfold validateRow.
  destruct (validateColumns cols (literal r)) as [cols1 [o|e]]; split.
  - intros [= <- <-]. eauto.
  - intros (o' & [= <- <-] & <-). done.
  - done.
  - by intros (o' & [=] & _).
Qed.

Lemma validateRow_shape cols r cols' res :
  validateRow cols r = (cols', res) -> Forall2 same_shape cols cols'.
Proof.
  unfold validateRow. intros Hv.
  destruct (validateColumns cols (literal r)) as [cols1 [o|e]] eqn:Hc;
    injection Hv as <- _; eauto using validateColumns_shape.
Qed.

Lemma coerces_shape c c' v : same_shape c c' -> coerces c' v = coerces c v.
Proof.
  intros (_ & Hty & _ & Hreq & _ & Hgen & _). unfold coerces.
  by rewrite Hty, Hreq, Hgen.
Qed.

Lemma normalise_shape cols cols' k v :
  Forall2 same_shape cols cols' -> normalise cols' k v = normalise cols k v.
Proof.
  unfold normalise. intros Hs.
  assert (existsb (fun c => bool_decide (name c = k) && coerces c v) cols' =
          existsb (fun c => bool_decide (name c = k) && coerces c v) cols) as ->; [|done].
  induction Hs as [|c c' cs cs' Hc _ IH]; [done|]. simpl.
  rewrite IH, (coerces_shape _ _ _ Hc). by destruct Hc as (-> & _).
Qed.

Lemma check_rules_shape c c' : same_shape c c' -> check_rules c' = check_rules c.
Proof.
  intros (_ & _ & _ & _ & _ & _ & Hval). unfold check_rules. by rewrite Hval.
Qed.

Lemma patterns_compile_shape cols cols' :
  Forall2 same_shape cols cols' -> patterns_compile cols -> patterns_compile cols'.
Proof.
  unfold patterns_compile. intros Hs.
  induction Hs as [|c c' cs cs' Hc _ IH]; [done|].
  rewrite !Forall_cons. intros [H1 H2]. split; [|auto].
  by rewrite (check_rules_shape _ _ Hc).
Qed.

Lemma own_names_shape cols cols' :
  Forall2 same_shape cols cols' -> own_names cols -> own_names cols'.
Proof.
  unfold own_names. intros Hs.
  induction Hs as [|c c' cs cs' Hc _ IH]; [done|].
  rewrite !Forall_cons. intros [H1 H2]. split; [|auto].
  destruct Hc as (-> & _). done.
Qed.

Lemma reads_own_shape cols cols' r k :
  Forall2 same_shape cols cols' -> reads_own cols r k -> reads_own cols' r k.
Proof.
  intros Hs Hread Hnone Hin c' Hc'.
  apply list_elem_of_lookup in Hc' as (i & Hi).
  destruct (Forall2_lookup_r _ _ _ _ _ Hs Hi) as (c & Hc & Hshape).
  destruct Hshape as (-> & _). apply (Hread Hnone Hin). by eapply list_elem_of_lookup_2.
Qed.

Lemma own_names_reads_own cols r k : own_names cols -> reads_own cols r k.
Proof.
  unfold own_names. rewrite Forall_forall. intros Hown _ Hin c Hc <-.
  by destruct (Hown c Hc).
Qed.

Lemma owned_reads_own cols r k : is_Some (r !! k) -> reads_own cols r k.
Proof. intros [v Hv] Hnone. congruence. Qed.

Lemma plain_reads_own cols r k : k ∉ Object_prototype -> reads_own cols r k.
Proof. by intros Hk _ Hin. Qed.

Lemma coerces_null c : coerces c (Some VNull) = false.
Proof. done. Qed.

Lemma normalise_null cols k : normalise cols k (Some VNull) = Some VNull.
Proof. unfold normalise. by case_match. Qed.

Lemma normalise_cons c cs k v :
  normalise (c :: cs) k v =
    if bool_decide (name c = k) && coerces c v then Some VNull
    else normalise cs k v.
Proof. unfold normalise. simpl. by destruct (_ && _). Qed.

Lemma normalise_idem cols k v :
  normalise cols k (normalise cols k v) = normalise cols k v.
Proof.
  unfold normalise.
  destruct (existsb (fun c => bool_decide (name c = k) && coerces c v) cols) eqn:He.
  - by case_match.
  - by rewrite He.
Qed.

Lemma validateColumns_lookup cols o cols' o' k :
  validateColumns cols o = (cols', Ok o') ->
  (own o !! k = None -> k ∈ Object_prototype -> forall c, c ∈ cols -> name c <> k) ->
  own o' !! k = normalise cols k (own o !! k).
Proof.
  revert o cols' o'. induction cols as [|c cs IH]; intros o cols' o' Hv Hread;
    simpl in Hv.
  - by inversion Hv.
  - destruct (validateColumn c o) as [c1 [o1|e]] eqn:Hc; [|by inversion Hv].
    destruct (validateColumns cs o1) as [cs1 res1] eqn:Hcs. inversion Hv; subst.
    assert (own o1 !! k =
            if bool_decide (name c = k) && coerces c (own o !! k) then Some VNull
            else own o !! k) as Ho1.
    { apply (validateColumn_lookup _ _ _ _ k Hc). intros Hnone Hin.
      apply (Hread Hnone Hin). by left. }
    rewrite (IH _ _ _ Hcs), Ho1, normalise_cons.
    + case_match; [apply normalise_null|done].
    + intros Hnone Hin c' Hc'. apply Hread; [|done|by right].
      rewrite Ho1 in Hnone. by case_match.
Qed.

(** The validated row, field by field, for the fields that the columns
    read as the row has them. *)
Lemma validateRow_lookup cols r cols' r' k :
  validateRow cols r = (cols', Ok r') -> reads_own cols r k ->
  r' !! k = normalise cols k (r !! k).
Proof.
  intros (o & Hv & <-)%validateRow_Ok Hread.
  by apply (validateColumns_lookup _ _ _ _ k Hv).
Qed.

Lemma validateColumn_error c o c' e :
  validateColumn c o = (c', Err e) -> check_rules c = Some e.
Proof.
  unfold validateColumn. intros Hv. repeat case_match; by simplify_eq.
Qed.

Lemma validateColumns_error cols o cols' e :
  validateColumns cols o = (cols', Err e) -> exists c, c ∈ cols /\ check_rules c = Some e.
Proof.
  revert o cols'. induction cols as [|c cs IH]; intros o cols' Hv; simpl in Hv.
  - by inversion Hv.
  - destruct (validateColumn c o) as [c1 [o1|e1]] eqn:Hc.
    + destruct (validateColumns cs o1) as [cs1 res1] eqn:Hcs. inversion Hv; subst.
      destruct (IH _ _ Hcs) as (c' & Hin & He). exists c'. split; [by right|done].
    + inversion Hv; subst. exists c. split; [by left|].
      eauto using validateColumn_error.
Qed.

(** Validation fails only on a pattern that does not compile. *)
Lemma validateRow_error cols r cols' e :
  validateRow cols r = (cols', Err e) -> exists c, c ∈ cols /\ check_rules c = Some e.
Proof.
  unfold validateRow. intros Hv.
  destruct (validateColumns cols (literal r)) as [cols1 [o|e1]] eqn:Hc; [done|].
  injection Hv as <- <-. eauto using validateColumns_error.
Qed.

Lemma validateColumns_ok cols o :
  patterns_compile cols -> exists cols' o', validateColumns cols o = (cols', Ok o').
Proof.
  intros Hp. destruct (validateColumns cols o) as [cols' [o'|e]] eqn:Hv; [eauto|].
  destruct (validateColumns_error _ _ _ _ Hv) as (c & Hin & He).
  unfold patterns_compile in Hp. rewrite Forall_forall in Hp.
  specialize (Hp c Hin). congruence.
Qed.

Lemma validateRow_ok cols r :
  patterns_compile cols -> exists cols' r', validateRow cols r = (cols', Ok r').
Proof.
  intros Hp. destruct (validateRow cols r) as [cols' [r'|e]] eqn:Hv; [eauto|].
  destruct (validateRow_error _ _ _ _ Hv) as (c & Hin & He).
  unfold patterns_compile in Hp. rewrite Forall_forall in Hp.
  specialize (Hp c Hin). congruence.
Qed.

(** * Properties of insert and update *)

Lemma new_row_id rowData a :
  new_row rowData a !! "id" =
    Some (match rowData !! "id" with Some v => v | None => VStr (uuid a) end).
Proof.
  unfold new_row. rewrite !lookup_insert_ne by done.
  rewrite lookup_union. destruct (rowData !! "id") as [v|] eqn:Hid.
  - by rewrite lookup_singleton_eq.
  - by rewrite lookup_singleton_eq.
Qed.

Lemma new_row_other rowData a k :
  k <> "id" -> k <> "createdAt" -> k <> "updatedAt" ->
  new_row rowData a !! k = rowData !! k.
Proof.
  intros. unfold new_row. rewrite !lookup_insert_ne by done.
  rewrite lookup_union, lookup_singleton_ne by done. by destruct (rowData !! k).
Qed.

Lemma set_field_lookup k v r k' :
  set_field k v r !! k' = if decide (k = k') then v else r !! k'.
Proof.
  unfold set_field. destruct v.
  - by rewrite lookup_insert.
  - rewrite lookup_delete. by case_decide.
Qed.

Lemma updated_row_id old updates now : updated_row old updates now !! "id" = old !! "id".
Proof.
  unfold updated_row. rewrite lookup_insert_ne by done.
  by rewrite !set_field_lookup.
Qed.

Lemma updated_row_createdAt old updates now :
  updated_row old updates now !! "createdAt" = old !! "createdAt".
Proof.
  unfold updated_row. rewrite lookup_insert_ne by done.
  by rewrite !set_field_lookup.
Qed.

Lemma updated_row_updatedAt old updates now :
  updated_row old updates now !! "updatedAt" = Some (VStr now).
Proof. unfold updated_row. by rewrite lookup_insert_eq. Qed.

Lemma updated_row_other old updates now k :
  k <> "id" -> k <> "createdAt" -> k <> "updatedAt" ->
  updated_row old updates now !! k = (updates ∪ old) !! k.
Proof.
  intros. unfold updated_row. rewrite lookup_insert_ne by done.
  rewrite !set_field_lookup. by repeat case_decide.
Qed.

Lemma findIndex_Some rowId rows index :
  findIndex rowId rows = Some index ->
  exists old, rows !! index = Some old /\ old !! "id" = Some rowId.
Proof.
  revert index. induction rows as [|r rs IH]; intros index Hf; simpl in Hf; [done|].
  case_bool_decide as Hid.
  - inversion Hf; subst. eauto.
  - destruct (findIndex rowId rs) as [i|]; [|done]. inversion Hf; subst.
    destruct (IH i eq_refl) as (old & ? & ?). eauto.
Qed.

(** [insert] on an entity that exists, in terms of the validator. *)
Lemma insert_unfold st menuId rows s rowData a :
  data st !! menuId = Some rows -> schemas st !! menuId = Some s ->
  insert menuId rowData a st =
    match validateRow (columns s) (new_row rowData a) with
    | (cols, Err e) => (set_columns menuId s cols st, Err e)
    | (cols, Ok r) =>
        (set_rows menuId (rows ++ [r]) (set_columns menuId s cols st), Ok r)
    end.
Proof. intros Hd Hs. unfold insert. by rewrite Hd, Hs. Qed.

Lemma update_unfold st menuId rows s rowId index old updates now :
  data st !! menuId = Some rows -> schemas st !! menuId = Some s ->
  findIndex rowId rows = Some index -> rows !! index = Some old ->
  update menuId rowId updates now st =
    match validateRow (columns s) (updated_row old updates now) with
    | (cols, Err e) => (set_columns menuId s cols st, Err e)
    | (cols, Ok r) =>
        (set_rows menuId (<[index := r]> rows) (set_columns menuId s cols st), Ok r)
    end.
Proof. intros Hd Hs Hf Ho. unfold update. by rewrite Hd, Hf, Ho, Hs. Qed.

Lemma normalise_missing_required cols c :
  c ∈ cols -> required c = true -> generated c = false ->
  normalise cols (name c) None = Some VNull.
Proof.
  intros Hin Hreq Hgen. unfold normalise.
  assert (existsb (fun c' => bool_decide (name c' = name c) && coerces c' None) cols = true)
    as ->; [|done].
  apply existsb_exists. exists c. split; [by apply list_elem_of_In|].
  rewrite bool_decide_eq_true_2 by done. simpl. by rewrite Hreq, Hgen.
Qed.

Lemma normalise_not_a_number cols c v :
  c ∈ cols -> type c = TNumber -> isNaN v = true ->
  normalise cols (name c) (Some v) = Some VNull.
Proof.
  intros Hin Hty Hnan. destruct (decide (v = VNull)) as [->|Hv]; [apply normalise_null|].
  unfold normalise.
  assert (existsb (fun c' => bool_decide (name c' = name c) && coerces c' (Some v)) cols
          = true) as ->; [|done].
  apply existsb_exists. exists c. split; [by apply list_elem_of_In|].
  rewrite bool_decide_eq_true_2 by done. simpl.
  destruct v as [| | |[|]|]; try done; by rewrite Hty.
Qed.

Lemma normalise_empty_string cols c :
  c ∈ cols -> normalise cols (name c) (Some (VStr "")) = Some VNull.
Proof.
  intros Hc. unfold normalise.
  assert (existsb (fun c' => bool_decide (name c' = name c) &&
                             coerces c' (Some (VStr ""))) cols = true) as ->; [|done].
  apply existsb_exists. exists c. split; [by apply list_elem_of_In|].
  by rewrite bool_decide_eq_true_2.
Qed.

Lemma normalise_kept cols k v :
  v <> VStr "" ->
  (forall c, c ∈ cols -> name c = k -> type c = TNumber -> isNaN v = false) ->
  normalise cols k (Some v) = Some v.
Proof.
  intros Hv Hcols. unfold normalise.
  destruct (existsb _ cols) eqn:He; [|done].
  apply existsb_exists in He as (c & Hin%list_elem_of_In & Hc).
  apply andb_true_iff in Hc as [Hk%bool_decide_eq_true Hc].
  specialize (Hcols c Hin Hk). unfold coerces in Hc.
  destruct v as [| | |[|]|]; try done;
    destruct (type c); try done; by rewrite Hcols in Hc.
Qed.

Lemma normalise_absent cols k :
  (forall c, c ∈ cols -> name c = k -> required c = false \/ generated c = true) ->
  normalise cols k None = None.
Proof.
  intros Hcols. unfold normalise.
  destruct (existsb _ cols) eqn:He; [|done].
  apply existsb_exists in He as (c & Hin%list_elem_of_In & Hc).
  apply andb_true_iff in Hc as [Hk%bool_decide_eq_true Hc]. simpl in Hc.
  destruct (Hcols c Hin Hk) as [Hreq|Hgen].
  - by rewrite Hreq in Hc.
  - by rewrite Hgen, andb_false_r in Hc.
Qed.

Lemma validateRow_validated cols r cols' r' :
  validateRow cols r = (cols', Ok r') -> validated cols r r'.
Proof. intros Hv k Hread. by apply (validateRow_lookup _ _ _ _ k Hv). Qed.

(** The four cases of the lenience policy, and the field that is left
    out. *)
Lemma validated_cases cols raw r :
  validated cols raw r ->
  (forall c, c ∈ cols -> required c = true -> generated c = false ->
     raw !! name c = None -> name c ∉ Object_prototype -> r !! name c = Some VNull) /\
  (forall c v, c ∈ cols -> type c = TNumber -> raw !! name c = Some v ->
     isNaN v = true -> r !! name c = Some VNull) /\
  (forall c, c ∈ cols -> raw !! name c = Some (VStr "") -> r !! name c = Some VNull) /\
  (forall k v, raw !! k = Some v -> v <> VStr "" ->
     (forall c, c ∈ cols -> name c = k -> type c <> TNumber) -> r !! k = Some v) /\
  (forall k, raw !! k = None -> k ∉ Object_prototype ->
     (forall c, c ∈ cols -> name c = k -> required c = false \/ generated c = true) ->
     r !! k = None).
Proof.
  intros Hval. repeat split.
  - intros c Hin Hreq Hgen Hraw Hplain.
    rewrite (Hval (name c)), Hraw by by apply plain_reads_own.
    by apply normalise_missing_required.
  - intros c v Hin Hty Hraw Hnan.
    rewrite (Hval (name c)), Hraw by by apply owned_reads_own; rewrite Hraw.
    by apply normalise_not_a_number.
  - intros c Hin Hraw.
    rewrite (Hval (name c)), Hraw by by apply owned_reads_own; rewrite Hraw.
    by apply normalise_empty_string.
  - intros k v Hraw Hv Hcols.
    rewrite (Hval k), Hraw by by apply owned_reads_own; rewrite Hraw.
    apply normalise_kept; [done|].
    intros c Hin Hk Hty. by destruct (Hcols c Hin Hk).
  - intros k Hraw Hplain Hcols.
    rewrite (Hval k), Hraw by by apply plain_reads_own.
    by apply normalise_absent.
Qed.

Lemma data_set_rows menuId rows st k :
  data (set_rows menuId rows st) !! k =
    if decide (menuId = k) then Some rows else data st !! k.
Proof. unfold set_rows. simpl. by rewrite lookup_insert. Qed.

(** C4 (as amended).  On an entity that exists and has a stored schema,
    and as long as every [validation.pattern] of the schema compiles,
    [insert] returns and stores a row for every raw row, and [update]
    returns and stores a row, in the place of the old one, for every
    updates object aimed at a stored row: validation raises nothing,
    whatever the content.  [update] fails with `Row not found' for an id
    that no row has, and both fail with `Menu not found' for an entity
    that does not exist, leaving the store as it is.  The row returned holds,
    field by field, the submitted value as the validator normalises it: a
    required, non-generated field that is absent becomes [null], unless
    its name is one of [Object.prototype]; a value of a number field for
    which [isNaN] holds becomes [null]; the empty string becomes [null]
    (it is not kept); every value other than the empty string, in a field
    that is not a number field, such as an invalid email or phone, is
    stored unchanged; and an absent field that no column requires stays
    absent. *)
Theorem validation_is_lenient (st : store) (menuId : string) (rows : list row)
    (s : schema) :
  data st !! menuId = Some rows ->
  schemas st !! menuId = Some s ->
  patterns_compile (columns s) ->
  (forall rowData a, exists st' r,
      insert menuId rowData a st = (st', Ok r) /\
      data st' !! menuId = Some (rows ++ [r])%list /\
      validated (columns s) (new_row rowData a) r) /\
  (forall rowId index updates now,
      findIndex rowId rows = Some index ->
      exists old st' r,
        rows !! index = Some old /\
        update menuId rowId updates now st = (st', Ok r) /\
        data st' !! menuId = Some (<[index := r]> rows) /\
        validated (columns s) (updated_row old updates now) r) /\
  (forall rowId updates now,
      findIndex rowId rows = None ->
      update menuId rowId updates now st = (st, Err (RowNotFound rowId))) /\
  (forall unknown, data st !! unknown = None ->
      (forall rowData a,
         insert unknown rowData a st = (st, Err (MenuNotFound unknown))) /\
      (forall rowId updates now,
         update unknown rowId updates now st = (st, Err (MenuNotFound unknown)))) /\
  (forall raw r, validated (columns s) raw r ->
      (forall c, c ∈ columns s -> required c = true -> generated c = false ->
         raw !! name c = None -> name c ∉ Object_prototype ->
         r !! name c = Some VNull) /\
      (forall c v, c ∈ columns s -> type c = TNumber -> raw !! name c = Some v ->
         isNaN v = true -> r !! name c = Some VNull) /\
      (forall c, c ∈ columns s -> raw !! name c = Some (VStr "") ->
         r !! name c = Some VNull) /\
      (forall k v, raw !! k = Some v -> v <> VStr "" ->
         (forall c, c ∈ columns s -> name c = k -> type c <> TNumber) ->
         r !! k = Some v) /\
      (forall k, raw !! k = None -> k ∉ Object_prototype ->
         (forall c, c ∈ columns s -> name c = k ->
            required c = false \/ generated c = true) ->
         r !! k = None)).
Proof.
  intros Hd Hs Hp. split; [|split; [|split; [|split]]].
  - intros rowData a.
    destruct (validateRow_ok (columns s) (new_row rowData a) Hp) as (cols' & r & Hv).
    exists (set_rows menuId (rows ++ [r]) (set_columns menuId s cols' st)), r.
    rewrite (insert_unfold _ _ _ _ _ _ Hd Hs), Hv. split; [done|]. split.
    + rewrite data_set_rows. by destruct (decide (menuId = menuId)).
    + eauto using validateRow_validated.
  - intros rowId index updates now Hf.
    destruct (findIndex_Some _ _ _ Hf) as (old & Ho & _).
    destruct (validateRow_ok (columns s) (updated_row old updates now) Hp)
      as (cols' & r & Hv).
    exists old, (set_rows menuId (<[index := r]> rows) (set_columns menuId s cols' st)), r.
    rewrite (update_unfold _ _ _ _ _ _ _ _ _ Hd Hs Hf Ho), Hv.
    split; [done|]. split; [done|]. split.
    + rewrite data_set_rows. by destruct (decide (menuId = menuId)).
    + eauto using validateRow_validated.
  - intros rowId updates now Hf. unfold update. by rewrite Hd, Hf.
  - intros unknown Hnone. split.
    + intros rowData a. unfold insert. by rewrite Hnone.
    + intros rowId updates now. unfold update. by rewrite Hnone.
  - intros raw r. apply validated_cases.
Qed.

(** * Stored rows are settled, and updates keep the ids *)

Lemma settled_validated cols r cols' r' k :
  validateRow cols r = (cols', Ok r') -> k ∉ Object_prototype -> settled cols' k r'.
Proof.
  intros Hv Hk. unfold settled.
  rewrite (normalise_shape _ _ _ _ (validateRow_shape _ _ _ _ Hv)).
  rewrite (validateRow_lookup _ _ _ _ k Hv) by by apply plain_reads_own.
  apply normalise_idem.
Qed.

Lemma settled_shape cols cols' k r :
  Forall2 same_shape cols cols' -> settled cols k r -> settled cols' k r.
Proof. unfold settled. intros Hs Hn. by rewrite (normalise_shape _ _ _ _ Hs). Qed.

Lemma insert_settled_rows k menuId rowData a st :
  k ∉ Object_prototype ->
  settled_rows k menuId st -> settled_rows k menuId (insert menuId rowData a st).1.
Proof.
  intros Hk Hn. unfold insert.
  destruct (data st !! menuId) as [rows|] eqn:Hd; [|done].
  destruct (schemas st !! menuId) as [s|] eqn:Hs; [|done].
  specialize (Hn s rows Hs Hd).
  destruct (validateRow (columns s) (new_row rowData a)) as [cols' [r|e]] eqn:Hv;
    intros s' rows'; simpl; rewrite !lookup_insert_eq; intros; simplify_eq; simpl.
  - apply Forall_app. split.
    + eapply Forall_impl; [done|].
      intros r0. eauto using settled_shape, validateRow_shape.
    + constructor; [|done]. eauto using settled_validated.
  - eapply Forall_impl; [done|].
    intros r0. eauto using settled_shape, validateRow_shape.
Qed.

Lemma update_settled_rows k menuId rowId updates now st :
  k ∉ Object_prototype ->
  settled_rows k menuId st ->
  settled_rows k menuId (update menuId rowId updates now st).1.
Proof.
  intros Hk Hn. unfold update.
  destruct (data st !! menuId) as [rows|] eqn:Hd; [|done].
  destruct (findIndex rowId rows) as [index|] eqn:Hf; [|done].
  destruct (rows !! index) as [old|] eqn:Ho; [|done].
  destruct (schemas st !! menuId) as [s|] eqn:Hs; [|done].
  specialize (Hn s rows Hs Hd).
  destruct (validateRow (columns s) (updated_row old updates now)) as [cols' [r|e]] eqn:Hv;
    intros s' rows'; simpl; rewrite !lookup_insert_eq; intros; simplify_eq; simpl.
  - apply Forall_insert; [|eauto using settled_validated].
    eapply Forall_impl; [done|].
    intros r0. eauto using settled_shape, validateRow_shape.
  - eapply Forall_impl; [done|].
    intros r0. eauto using settled_shape, validateRow_shape.
Qed.

Lemma step_settled_rows k menuId st o :
  k ∉ Object_prototype ->
  settled_rows k menuId st -> settled_rows k menuId (step menuId st o).
Proof. destruct o; simpl; eauto using insert_settled_rows, update_settled_rows. Qed.

Lemma run_app menuId ops1 ops2 st :
  run menuId (ops1 ++ ops2) st = run menuId ops2 (run menuId ops1 st).
Proof. unfold run. apply foldl_app. Qed.

Lemma run_settled_rows k menuId ops st :
  k ∉ Object_prototype ->
  settled_rows k menuId st -> settled_rows k menuId (run menuId ops st).
Proof.
  intros Hk. revert st. induction ops as [|o ops IH]; intros st Hn; [done|].
  simpl. apply IH. by apply step_settled_rows.
Qed.

Lemma settled_rows_new k menuId st :
  data st !! menuId = Some [] -> settled_rows k menuId st.
Proof. intros Hd s rows _ Hr. rewrite Hd in Hr. by inversion Hr. Qed.

Lemma id_plain : "id" ∉ Object_prototype.
Proof. compute_done. Qed.


Lemma updatedAt_plain : "updatedAt" ∉ Object_prototype.
Proof. compute_done. Qed.

(** ** Rows that came out of validation *)

Lemma normal_row_settled cols r : normal_row cols r <-> forall k, settled cols k r.
Proof. done. Qed.

Lemma normal_row_validated cols r cols' r' :
  own_names cols -> validateRow cols r = (cols', Ok r') -> normal_row cols' r'.
Proof.
  intros Hown Hv k. rewrite (normalise_shape _ _ _ _ (validateRow_shape _ _ _ _ Hv)).
  rewrite (validateRow_lookup _ _ _ _ k Hv) by by apply own_names_reads_own.
  apply normalise_idem.
Qed.

Lemma normal_row_shape cols cols' r :
  Forall2 same_shape cols cols' -> normal_row cols r -> normal_row cols' r.
Proof. intros Hs Hn k. rewrite (normalise_shape _ _ _ _ Hs). apply Hn. Qed.

(** In an entity no column of which is named like a property of
    [Object.prototype], the rows that [insert] and [update] store are
    normal. *)
Lemma insert_normal_rows menuId rowData a st :
  (forall s, schemas st !! menuId = Some s -> own_names (columns s)) ->
  normal_rows menuId st -> normal_rows menuId (insert menuId rowData a st).1.
Proof.
  intros Hown Hn. unfold insert.
  destruct (data st !! menuId) as [rows|] eqn:Hd; [|done].
  destruct (schemas st !! menuId) as [s|] eqn:Hs; [|done].
  specialize (Hn s rows Hs Hd). specialize (Hown s eq_refl).
  destruct (validateRow (columns s) (new_row rowData a)) as [cols' [r|e]] eqn:Hv;
    intros s' rows'; simpl; rewrite !lookup_insert_eq; intros; simplify_eq; simpl.
  - apply Forall_app. split.
    + eapply Forall_impl; [done|].
      intros r0. eauto using normal_row_shape, validateRow_shape.
    + constructor; [|done]. eauto using normal_row_validated.
  - eapply Forall_impl; [done|].
    intros r0. eauto using normal_row_shape, validateRow_shape.
Qed.

Lemma update_normal_rows menuId rowId updates now st :
  (forall s, schemas st !! menuId = Some s -> own_names (columns s)) ->
  normal_rows menuId st -> normal_rows menuId (update menuId rowId updates now st).1.
Proof.
  intros Hown Hn. unfold update.
  destruct (data st !! menuId) as [rows|] eqn:Hd; [|done].
  destruct (findIndex rowId rows) as [index|] eqn:Hf; [|done].
  destruct (rows !! index) as [old|] eqn:Ho; [|done].
  destruct (schemas st !! menuId) as [s|] eqn:Hs; [|done].
  specialize (Hn s rows Hs Hd). specialize (Hown s eq_refl).
  destruct (validateRow (columns s) (updated_row old updates now)) as [cols' [r|e]] eqn:Hv;
    intros s' rows'; simpl; rewrite !lookup_insert_eq; intros; simplify_eq; simpl.
  - apply Forall_insert; [|eauto using normal_row_validated].
    eapply Forall_impl; [done|].
    intros r0. eauto using normal_row_shape, validateRow_shape.
  - eapply Forall_impl; [done|].
    intros r0. eauto using normal_row_shape, validateRow_shape.
Qed.

Lemma normal_rows_new menuId st : data st !! menuId = Some [] -> normal_rows menuId st.
Proof. intros Hd s rows _ Hr. rewrite Hd in Hr. by inversion Hr. Qed.

Lemma insert_row_ids menuId rowData a st st' r :
  insert menuId rowData a st = (st', Ok r) ->
  row_ids menuId st' = (row_ids menuId st ++ [r !! "id"])%list.
Proof.
  unfold insert, row_ids. intros Hi.
  destruct (data st !! menuId) as [rows|] eqn:Hd; [|done].
  destruct (schemas st !! menuId) as [s|] eqn:Hs; [|done].
  destruct (validateRow _ _) as [cols' [r1|e]]; inversion Hi; subst; simpl.
  by rewrite lookup_insert_eq, fmap_app.
Qed.

Lemma insert_failed_row_ids menuId rowData a st st' e :
  insert menuId rowData a st = (st', Err e) -> row_ids menuId st' = row_ids menuId st.
Proof.
  unfold insert, row_ids. intros Hi.
  destruct (data st !! menuId) as [rows|] eqn:Hd; [|by inversion Hi; subst; rewrite Hd].
  destruct (schemas st !! menuId) as [s|] eqn:Hs; [|by inversion Hi; subst; rewrite Hd].
  destruct (validateRow _ _) as [cols' [r1|e1]]; inversion Hi; subst; simpl.
  by rewrite Hd.
Qed.

(** An update leaves the list of stored ids as it is. *)
Lemma update_row_ids menuId rowId updates now st :
  settled_rows "id" menuId st ->
  row_ids menuId (update menuId rowId updates now st).1 = row_ids menuId st.
Proof.
  intros Hn. unfold update, row_ids.
  destruct (data st !! menuId) as [rows|] eqn:Hd; [|by simpl; rewrite Hd].
  destruct (findIndex rowId rows) as [index|] eqn:Hf; [|by simpl; rewrite Hd].
  destruct (rows !! index) as [old|] eqn:Ho; [|by simpl; rewrite Hd].
  destruct (schemas st !! menuId) as [s|] eqn:Hs; [|by simpl; rewrite Hd].
  specialize (Hn s rows Hs Hd).
  destruct (validateRow (columns s) (updated_row old updates now)) as [cols' [r|e]] eqn:Hv;
    simpl; [|by rewrite Hd].
  rewrite lookup_insert_eq, list_fmap_insert.
  apply list_insert_id. rewrite list_lookup_fmap, Ho. simpl. f_equal.
  rewrite (validateRow_lookup _ _ _ _ "id" Hv), updated_row_id
    by apply plain_reads_own, id_plain.
  rewrite Forall_forall in Hn. symmetry. apply (Hn old); eauto using list_elem_of_lookup_2.
Qed.

Lemma fresh_run_NoDup menuId ops st :
  settled_rows "id" menuId st -> NoDup (row_ids menuId st) ->
  fresh_inserts menuId ops st = true ->
  NoDup (row_ids menuId (run menuId ops st)).
Proof.
  revert st. induction ops as [|o ops IH]; intros st Hn Hnd Hf; [done|].
  simpl in Hf. apply andb_true_iff in Hf as [Ho Hf].
  simpl. apply IH; [by apply step_settled_rows, Hn; apply id_plain| |done].
  destruct o as [rowData a|rowId updates now]; simpl.
  - destruct (insert menuId rowData a st) as [st' [r|e]] eqn:Hi; simpl in *.
    + rewrite (insert_row_ids _ _ _ _ _ _ Hi).
      apply bool_decide_eq_true in Ho.
      apply NoDup_app. split; [done|]. split; [|apply NoDup_singleton].
      intros x Hx ->%list_elem_of_singleton. done.
    + by rewrite (insert_failed_row_ids _ _ _ _ _ _ Hi).
  - by rewrite update_row_ids.
Qed.

Lemma insert_id menuId rowData a st st' r s :
  schemas st !! menuId = Some s ->
  insert menuId rowData a st = (st', Ok r) ->
  r !! "id" = normalise (columns s) "id" (new_row rowData a !! "id").
Proof.
  unfold insert. intros Hs Hi.
  destruct (data st !! menuId) as [rows|]; [|done]. rewrite Hs in Hi.
  destruct (validateRow _ _) as [cols' [r1|e]] eqn:Hv; inversion Hi; subst.
  apply (validateRow_lookup _ _ _ _ "id" Hv), plain_reads_own, id_plain.
Qed.

(** C1 (as amended).  From the creation of an entity on, through every
    sequence of inserts and updates: an update never changes the id of any
    stored row; an insert that succeeds appends one row, whose id is the
    generated one when the raw row has no [id] key and the caller's when
    that is truthy (unless the schema types [id] as a number and [isNaN]
    holds of it); and the stored ids are pairwise distinct provided no
    insert stores an id that is already stored.  Nothing checks a
    caller-supplied id against the stored ones. *)
Theorem ids_kept_and_distinct_if_fresh (menuId : string) (st : store) :
  data st !! menuId = Some [] ->
  (forall ops rowId updates now,
      row_ids menuId (step menuId (run menuId ops st) (Update rowId updates now))
      = row_ids menuId (run menuId ops st)) /\
  (forall ops rowData a st' r s,
      schemas (run menuId ops st) !! menuId = Some s ->
      insert menuId rowData a (run menuId ops st) = (st', Ok r) ->
      row_ids menuId st' = (row_ids menuId (run menuId ops st) ++ [r !! "id"])%list /\
      (rowData !! "id" = None -> uuid a <> "" ->
       (forall c, c ∈ columns s -> name c = "id" -> type c = TNumber ->
          isNaN (VStr (uuid a)) = false) ->
       r !! "id" = Some (VStr (uuid a))) /\
      (forall v, rowData !! "id" = Some v -> truthy (Some v) = true ->
       (forall c, c ∈ columns s -> name c = "id" -> type c = TNumber ->
          isNaN v = false) ->
       r !! "id" = Some v)) /\
  (forall ops, fresh_inserts menuId ops st = true ->
      NoDup (row_ids menuId (run menuId ops st))).
Proof.
  intros Hnew. pose proof (settled_rows_new "id" _ _ Hnew) as Hn.
  split; [|split].
  - intros ops rowId updates now. simpl.
    apply update_row_ids. by apply run_settled_rows; [apply id_plain|].
  - intros ops rowData a st' r s Hs Hi.
    split; [eauto using insert_row_ids|]. split.
    + intros Hid Hu Hc. rewrite (insert_id _ _ _ _ _ _ _ Hs Hi), new_row_id, Hid.
      apply normalise_kept; [congruence|done].
    + intros v Hid Hv Hc. rewrite (insert_id _ _ _ _ _ _ _ Hs Hi), new_row_id, Hid.
      apply normalise_kept; [|done]. by intros ->.
  - intros ops Hf. apply fresh_run_NoDup; [done| |done].
    unfold row_ids. rewrite Hnew. constructor.
Qed.


(** * The select rule *)

Lemma validateColumns_app cols1 cols2 o :
  validateColumns (cols1 ++ cols2) o =
    match validateColumns cols1 o with
    | (cols1', Ok o1) =>
        let '(cols2', res) := validateColumns cols2 o1 in ((cols1' ++ cols2')%list, res)
    | (cols1', Err e) => ((cols1' ++ cols2)%list, Err e)
    end.
Proof.
  revert o. induction cols1 as [|c cs IH]; intros o; simpl.
  - by destruct (validateColumns cols2 o).
  - destruct (validateColumn c o) as [c1 [o1|e]]; [|done].
    rewrite IH. destruct (validateColumns cs o1) as [cs1 [o2|e]]; [|done].
    by destruct (validateColumns cols2 o2).
Qed.

Lemma normalise_unnamed cols k v :
  (forall c, c ∈ cols -> name c <> k) -> normalise cols k v = v.
Proof.
  intros Hc. unfold normalise. destruct (existsb _ cols) eqn:He; [|done].
  apply existsb_exists in He as (c & Hin%list_elem_of_In & Hk).
  apply andb_true_iff in Hk as [Hk%bool_decide_eq_true _]. by destruct (Hc c Hin).
Qed.

Lemma validateColumn_select c opts o v :
  type c = TSelect -> options c = Some opts -> check_rules c = None ->
  own o !! name c = Some v -> v <> VNull -> v <> VStr "" -> v ∉ opts ->
  validateColumn c o = (with_options c (opts ++ [v]), Ok o).
Proof.
  intros Hty Hopts Hrules Hr Hnull Hempty Hnew. unfold validateColumn.
  rewrite (get_own _ _ _ Hr).
  rewrite (bool_decide_eq_false_2 (Some v = None)), andb_false_r by done.
  rewrite bool_decide_eq_false_2 by congruence. rewrite (get_own _ _ _ Hr).
  unfold check_type. rewrite Hty, Hopts, Hrules, bool_decide_eq_false_2 by done.
  by destruct v.
Qed.

(** C9 (as amended).  For a select field that carries an options list,
    whose name no other column of the schema bears, in a schema whose
    patterns compile: validating a row whose value for the field is neither
    [null] nor the empty string, and is not in the list, returns a row that
    keeps the value, and leaves the field's column with the value appended
    to its options.  (The empty string is turned into [null] before the
    select rule and joins no list.) *)
Theorem select_value_joins_options (cols1 cols2 : list column) (c : column)
    (opts : list value) (r : row) (v : value) :
  type c = TSelect ->
  options c = Some opts ->
  (forall c', c' ∈ (cols1 ++ cols2)%list -> name c' <> name c) ->
  patterns_compile (cols1 ++ c :: cols2) ->
  r !! name c = Some v ->
  v <> VNull -> v <> VStr "" -> v ∉ opts ->
  exists cols' r',
    validateRow (cols1 ++ c :: cols2) r = (cols', Ok r') /\
    r' !! name c = Some v /\
    cols' !! length cols1 = Some (with_options c (opts ++ [v])) /\
    v ∈ (opts ++ [v])%list.
Proof.
  intros Hty Hopts Huniq Hp Hr Hnull Hempty Hnew.
  unfold patterns_compile in Hp. apply Forall_app in Hp as [Hp1 Hp2].
  apply Forall_cons in Hp2 as [Hpc Hp2].
  destruct (validateColumns_ok cols1 (literal r) Hp1) as (cols1' & o1 & Hv1).
  assert (own o1 !! name c = Some v) as Hr1.
  { rewrite (validateColumns_lookup _ _ _ _ (name c) Hv1); simpl.
    - rewrite Hr. apply normalise_unnamed. intros c' Hin. apply Huniq, elem_of_app.
      by left.
    - by rewrite Hr. }
  destruct (validateColumns_ok cols2 o1 Hp2) as (cols2' & o2 & Hv2).
  exists (cols1' ++ with_options c (opts ++ [v]) :: cols2')%list, (own o2).
  split; [|split; [|split]].
  - apply validateRow_Ok. exists o2. split; [|done].
    rewrite validateColumns_app, Hv1. simpl.
    rewrite (validateColumn_select c opts o1 v) by done. by rewrite Hv2.
  - rewrite (validateColumns_lookup _ _ _ _ (name c) Hv2).
    + rewrite Hr1. apply normalise_unnamed. intros c' Hin. apply Huniq, elem_of_app.
      by right.
    + by rewrite Hr1.
  - rewrite (Forall2_length _ _ _ (validateColumns_shape _ _ _ _ Hv1)).
    by rewrite list_lookup_middle.
  - apply elem_of_app. right. by apply list_elem_of_singleton.
Qed.

(** * bulkInsert *)

Lemma bulkInsert_loop_attempts menuId rowsData results st :
  bulkInsert_loop menuId rowsData results st =
    (after_attempts menuId rowsData st,
     {| success := (success results ++ omap inserted (attempts menuId rowsData st))%list;
        failed := (failed results ++ omap rejected (attempts menuId rowsData st))%list |}).
Proof.
  revert results st. induction rowsData as [|[rowData a] rest IH]; intros results st.
  - simpl. rewrite !app_nil_r. by destruct results.
  - simpl. unfold after_attempts. simpl.
    destruct (insert menuId rowData a st) as [st' [r|e]] eqn:Hi; rewrite IH; simpl;
      unfold inserted, rejected; simpl; by rewrite <-?app_assoc.
Qed.

Lemma attempts_app menuId l1 l2 st :
  attempts menuId (l1 ++ l2) st =
    (attempts menuId l1 st ++ attempts menuId l2 (after_attempts menuId l1 st))%list.
Proof.
  revert st. induction l1 as [|[rowData a] l1 IH]; intros st; [done|].
  simpl. by rewrite IH.
Qed.

Lemma attempts_inputs menuId rowsData st :
  (attempts menuId rowsData st).*1 = rowsData.*1.
Proof.
  revert st. induction rowsData as [|[rowData a] rest IH]; intros st; [done|].
  simpl. by rewrite IH.
Qed.

Lemma inserted_rejected_length (l : list (row * result row)) :
  (length (omap inserted l) + length (omap rejected l) = length l)%nat.
Proof.
  induction l as [|[rowData [r|e]] l IH]; [done| |]; cbn; lia.
Qed.

(** ** The outcome of an insert does not depend on the rows before it *)

Lemma same_shape_trans c1 c2 c3 : same_shape c1 c2 -> same_shape c2 c3 -> same_shape c1 c3.
Proof. unfold same_shape. intros ? ?. destruct_and!. repeat split; congruence. Qed.

Lemma same_shapes_refl cols : Forall2 same_shape cols cols.
Proof. apply Forall_Forall2_diag, Forall_forall. eauto using same_shape_refl. Qed.

Lemma same_shapes_trans cols1 cols2 cols3 :
  Forall2 same_shape cols1 cols2 -> Forall2 same_shape cols2 cols3 ->
  Forall2 same_shape cols1 cols3.
Proof.
  intros H12. revert cols3. induction H12 as [|c1 c2 cs1 cs2 Hc _ IH]; intros cols3 H23.
  - by inversion H23.
  - inversion H23; subst. constructor; eauto using same_shape_trans.
Qed.

Lemma check_type_row_shape c c0 v o :
  same_shape c c0 -> (check_type c0 v o).1 = (check_type c v o).1.
Proof.
  intros (Hn & Hty & _). by rewrite !check_type_object, Hty, Hn.
Qed.

Lemma validateColumn_result_shape c c0 o :
  same_shape c c0 -> (validateColumn c0 o).2 = (validateColumn c o).2.
Proof.
  intros Hs. pose proof (check_rules_shape _ _ Hs) as Hrules.
  pose proof Hs as (Hn & _ & _ & Hreq & _ & Hgen & _).
  unfold validateColumn. rewrite Hn, Hreq, Hgen, Hrules.
  set (o1 := if required c && negb (generated c) && bool_decide (get (name c) o = None)
             then set_null (name c) o else o).
  set (o2 := if bool_decide (get (name c) o = Some (VStr "")) then set_null (name c) o1
             else o1).
  destruct (get (name c) o2) as [v|]; [|done].
  pose proof (check_type_row_shape c c0 v o2 Hs) as Hrow.
  destruct (check_type c0 v o2) as [o3' c3'], (check_type c v o2) as [o3 c3].
  simpl in Hrow. subst o3'.
  destruct v; try done; by destruct (check_rules c).
Qed.

Lemma validateColumns_result_shape cols cols0 o :
  Forall2 same_shape cols cols0 -> (validateColumns cols0 o).2 = (validateColumns cols o).2.
Proof.
  intros Hs. revert o. induction Hs as [|c c0 cs cs0 Hc _ IH]; intros o; [done|].
  simpl. pose proof (validateColumn_result_shape c c0 o Hc) as Hres.
  destruct (validateColumn c0 o) as [c0' res0], (validateColumn c o) as [c' res].
  simpl in Hres. subst res0. destruct res as [o'|e]; [|done].
  specialize (IH o').
  by destruct (validateColumns cs0 o') as [? ?], (validateColumns cs o') as [? ?].
Qed.

Lemma validateRow_result_shape cols cols0 r :
  Forall2 same_shape cols cols0 -> (validateRow cols0 r).2 = (validateRow cols r).2.
Proof.
  intros Hs. unfold validateRow.
  pose proof (validateColumns_result_shape _ _ (literal r) Hs) as Hres.
  destruct (validateColumns cols0 (literal r)) as [? res0],
    (validateColumns cols (literal r)) as [? res].
  simpl in Hres. subst res0. by destruct res.
Qed.

Lemma alike_refl menuId st : alike menuId st st.
Proof.
  split; [done|]. destruct (schemas st !! menuId); constructor.
  apply same_shapes_refl.
Qed.

Lemma alike_trans menuId st1 st2 st3 :
  alike menuId st1 st2 -> alike menuId st2 st3 -> alike menuId st1 st3.
Proof.
  intros [Hd12 Hs12] [Hd23 Hs23]. split; [by rewrite Hd12|].
  destruct Hs12; inversion Hs23; subst; constructor.
  eauto using same_shapes_trans.
Qed.

Lemma insert_alike menuId rowData a st : alike menuId st (insert menuId rowData a st).1.
Proof.
  unfold insert.
  destruct (data st !! menuId) as [rows|] eqn:Hd; [|apply alike_refl].
  destruct (schemas st !! menuId) as [s|] eqn:Hs; [|apply alike_refl].
  destruct (validateRow (columns s) (new_row rowData a)) as [cols' [r|e]] eqn:Hv;
    (split; simpl;
     [rewrite ?lookup_insert_eq, Hd; split; eauto
     |rewrite Hs, lookup_insert_eq; constructor; eauto using validateRow_shape]).
Qed.

Lemma insert_result_alike menuId rowData a st st' :
  alike menuId st st' ->
  (insert menuId rowData a st').2 = (insert menuId rowData a st).2.
Proof.
  intros [Hd Hs]. unfold insert.
  destruct (data st !! menuId) as [rows|] eqn:Hd1,
    (data st' !! menuId) as [rows'|] eqn:Hd2; try done.
  - destruct Hs as [s s' Hs|]; [|done].
    pose proof (validateRow_result_shape _ _ (new_row rowData a) Hs) as Hres.
    destruct (validateRow (columns s') _) as [? res'], (validateRow (columns s) _)
      as [? res]. simpl in Hres. subst res'. by destruct res.
  - destruct Hd as [Hd _]. by destruct Hd.
  - destruct Hd as [_ Hd]. by destruct Hd.
Qed.

Lemma attempts_alone menuId rowsData st st' :
  alike menuId st st' ->
  attempts menuId rowsData st' =
    (fun ra : row * ambient => (ra.1, (insert menuId ra.1 ra.2 st).2)) <$> rowsData.
Proof.
  revert st'. induction rowsData as [|[rowData a] rest IH]; intros st' Hst; [done|].
  simpl. rewrite (insert_result_alike _ _ _ _ _ Hst). f_equal.
  apply IH. eauto using alike_trans, insert_alike.
Qed.

(** C5.  [bulkInsert] is total: for every entity id and every list of raw
    rows it returns its two lists, and raises nothing.  Each row is tried
    once with [insert], in order, in the store left by the rows before it,
    whether they were stored or not; the rows stored make up the success
    list and the others the failed list, in order, each failed entry with
    its input row and the error of its insert; so the two lengths sum to
    the number of rows.  What comes after a row, failed or not, is tried
    all the same: the attempts on [l1 ++ l2] are those on [l1] followed by
    those on [l2]; and the outcome of each row is the one that [insert]
    gives on that row alone, in the store the batch started from. *)
Theorem bulkInsert_tries_every_row (menuId : string) (rowsData : list (row * ambient))
    (st : store) :
  (bulkInsert menuId rowsData st).1 = after_attempts menuId rowsData st /\
  success (bulkInsert menuId rowsData st).2 = omap inserted (attempts menuId rowsData st) /\
  failed (bulkInsert menuId rowsData st).2 = omap rejected (attempts menuId rowsData st) /\
  (attempts menuId rowsData st).*1 = rowsData.*1 /\
  (length (success (bulkInsert menuId rowsData st).2) +
   length (failed (bulkInsert menuId rowsData st).2) = length rowsData)%nat /\
  (forall f, f ∈ failed (bulkInsert menuId rowsData st).2 ->
     exists rowData e, (rowData, Err e) ∈ attempts menuId rowsData st /\
       f = {| failed_data := rowData; failed_error := e |}) /\
  (forall l1 l2, rowsData = (l1 ++ l2)%list ->
     attempts menuId rowsData st =
       (attempts menuId l1 st ++ attempts menuId l2 (after_attempts menuId l1 st))%list) /\
  attempts menuId rowsData st =
    (fun ra : row * ambient => (ra.1, (insert menuId ra.1 ra.2 st).2)) <$> rowsData.
Proof.
  unfold bulkInsert. rewrite bulkInsert_loop_attempts. simpl.
  split; [done|]. split; [done|]. split; [done|].
  split; [apply attempts_inputs|]. split; [|split].
  - rewrite inserted_rejected_length.
    by rewrite <-(length_fmap fst), attempts_inputs, length_fmap.
  - intros f Hf. apply list_elem_of_omap in Hf as ([rowData res] & Hin & Hrej).
    unfold rejected in Hrej. simpl in Hrej. destruct res as [r|e]; [done|].
    inversion Hrej; subst. eauto.
  - split; [intros l1 l2 ->; apply attempts_app|].
    apply attempts_alone, alike_refl.
Qed.

End validator_facts.

(** * The rule pass *)

Lemma match_target_related sourceLower t c :
  match_target sourceLower t = Ok c ->
  c = if related sourceLower t then Some (rule_confidence sourceLower t) else None.
Proof.
  unfold match_target, related, rule_confidence, exact_rule, synonym_rule,
    substring_rule.
  destruct (label t) as [l|]; [|done]. simpl.
  assert (bool_decide (Some sourceLower = Some (toLowerCase l)) =
          bool_decide (sourceLower = toLowerCase l)) as ->.
  { apply bool_decide_ext. split; [by inversion 1|by intros ->]. }
  destruct (bool_decide _ || bool_decide _); [by inversion 1|]. simpl.
  destruct (synonyms_of (toLowerCase (name t))) as [syns|e]; [|done].
  destruct (existsb _ syns); [by inversion 1|]. simpl.
  destruct (_ || _ || _ || _); by inversion 1.
Qed.

Lemma synonyms_of_error key e : synonyms_of key = Err e -> e = TypeError.
Proof. unfold synonyms_of. repeat case_match; by inversion 1. Qed.

Lemma match_target_scannable sourceLower t :
  scannable t -> exists c, match_target sourceLower t = Ok c.
Proof.
  unfold scannable, match_target. intros [[l ->] Hplain].
  destruct (synonyms_of (toLowerCase (name t))) as [syns|e] eqn:Hs.
  - repeat case_match; eauto.
  - apply synonyms_of_error in Hs as ->. done.
Qed.

Lemma match_source_first_related src targets found :
  match_source src targets = Ok found -> found = first_related targets src.
Proof.
  unfold first_related. induction targets as [|t ts IH]; simpl; [by inversion 1|].
  destruct (match_target (trim (toLowerCase src)) t) as [c|e] eqn:Hm; [|done].
  apply match_target_related in Hm. subst c.
  destruct (related (trim (toLowerCase src)) t); [by inversion 1|done].
Qed.

Lemma match_source_scannable src targets :
  Forall scannable targets -> exists found, match_source src targets = Ok found.
Proof.
  induction 1 as [|t ts Ht _ IH]; simpl; [eauto|].
  destruct (match_target_scannable (trim (toLowerCase src)) t Ht) as (c & ->).
  destruct c; eauto.
Qed.

Lemma ruleBasedMatching_first_related sources targets ms :
  ruleBasedMatching sources targets = Ok ms ->
  ms = omap (first_related targets) sources.
Proof.
  revert ms. induction sources as [|src rest IH]; intros ms; simpl; [by inversion 1|].
  destruct (match_source src targets) as [found|e] eqn:Hm; [|done].
  destruct (ruleBasedMatching rest targets) as [ms'|e]; [|done].
  inversion 1; subst. rewrite (IH ms' eq_refl).
  apply match_source_first_related in Hm. subst found.
  by destruct (first_related targets src).
Qed.

Lemma ruleBasedMatching_scannable sources targets :
  Forall scannable targets -> exists ms, ruleBasedMatching sources targets = Ok ms.
Proof.
  intros Hplain. induction sources as [|src rest [ms IH]]; simpl; [eauto|].
  destruct (match_source_scannable src targets Hplain) as (found & ->).
  rewrite IH. eauto.
Qed.

Lemma first_related_at src before t after :
  Forall (fun t' => related (trim (toLowerCase src)) t' = false) before ->
  related (trim (toLowerCase src)) t = true ->
  first_related (before ++ t :: after) src =
    Some {| source := src; target := name t;
            confidence := rule_confidence (trim (toLowerCase src)) t |}.
Proof.
  unfold first_related. intros Hbefore Ht.
  induction Hbefore as [|t' ts Ht' _ IH]; simpl.
  - by rewrite Ht.
  - by rewrite Ht'.
Qed.

(** C3 (as amended).  The rule pass resolves each source label by scanning
    the targets in listed order and stopping at the first one that any of
    the three rules relates to the label; the confidence reported is that
    of the first of the rules exact (1.0), synonym (0.9), substring (0.8)
    that relates the label to that target.  The priority of the rules
    orders the rules on one target, not the targets: a label that exactly
    equals a target's name or label is matched to it at confidence 1.0 when
    no target listed before it is related to the label by any rule.  The
    rule pass returns whenever every target has a label and none reads a
    key of [Object.prototype] in the dictionary. *)
Theorem rule_pass_takes_first_related_target (sources : list string)
    (targets : list column) :
  (forall ms, ruleBasedMatching sources targets = Ok ms ->
     ms = omap (first_related targets) sources) /\
  (Forall scannable targets ->
     ruleBasedMatching sources targets = Ok (omap (first_related targets) sources)) /\
  (forall src before t after,
     targets = (before ++ t :: after)%list ->
     Forall (fun t' => related (trim (toLowerCase src)) t' = false) before ->
     related (trim (toLowerCase src)) t = true ->
     first_related targets src =
       Some {| source := src; target := name t;
               confidence := rule_confidence (trim (toLowerCase src)) t |}) /\
  (forall src before t after,
     targets = (before ++ t :: after)%list ->
     Forall (fun t' => related (trim (toLowerCase src)) t' = false) before ->
     exact_rule (trim (toLowerCase src)) t = true ->
     first_related targets src =
       Some {| source := src; target := name t; confidence := 1%Q |}).
Proof.
  split; [apply ruleBasedMatching_first_related|]. split; [|split].
  - intros Hplain. destruct (ruleBasedMatching_scannable sources targets Hplain) as (ms & Hms).
    by rewrite Hms, (ruleBasedMatching_first_related _ _ _ Hms).
  - intros src before t after -> Hbefore Ht. by apply first_related_at.
  - intros src before t after -> Hbefore Ht.
    rewrite first_related_at; [|done|by unfold related; rewrite Ht].
    unfold rule_confidence. by rewrite Ht.
Qed.

(** * Strings: a trimmed string is a part of the string *)

Lemma of_bytes_bytes s : of_bytes (bytes s) = s.
Proof. induction s as [|a s IH]; simpl; [done|]. by rewrite ascii_N_embedding, IH. Qed.

Lemma of_bytes_app l1 l2 : of_bytes (l1 ++ l2) = of_bytes l1 ++ of_bytes l2.
Proof. induction l1 as [|b l1 IH]; simpl; [done|]. by rewrite IH. Qed.

Lemma strip_prefix_Some w l l' : strip_prefix w l = Some l' -> l = (w ++ l')%list.
Proof.
  revert l. induction w as [|x w IH]; intros l; simpl; [by inversion 1|].
  destruct l as [|y l]; [done|]. destruct (N.eqb_spec x y) as [->|]; [|done].
  intros Hs. by rewrite (IH _ Hs).
Qed.

Lemma drop_space_Some ws l l' : drop_space ws l = Some l' -> exists w, l = (w ++ l')%list.
Proof.
  unfold drop_space. destruct (list_find _ _) as [[i o]|] eqn:Hf; [|done].
  simpl. intros ->. apply list_find_Some in Hf as (Hi & _ & _).
  apply list_lookup_fmap_Some in Hi as (w & Hw & _). symmetry in Hw.
  eauto using strip_prefix_Some.
Qed.

Lemma trim_front_suffix fuel ws l : exists p, l = (p ++ trim_front fuel ws l)%list.
Proof.
  revert l. induction fuel as [|fuel IH]; intros l; simpl; [by exists []|].
  destruct (drop_space ws l) as [l'|] eqn:Hd; [|by exists []].
  apply drop_space_Some in Hd as (w & ->). destruct (IH l') as (p & Hp).
  exists (w ++ p)%list. by rewrite <-app_assoc, <-Hp.
Qed.

Lemma trim_inside s : exists a c, s = a ++ trim s ++ c.
Proof.
  unfold trim.
  destruct (trim_front_suffix (String.length s) white_space (bytes s)) as (p & Hp).
  set (l := trim_front (String.length s) white_space (bytes s)) in *.
  destruct (trim_front_suffix (String.length s) (reverse <$> white_space) (reverse l))
    as (q & Hq).
  set (l' := trim_front _ _ (reverse l)) in *.
  exists (of_bytes p), (of_bytes (reverse q)).
  rewrite <-!of_bytes_app, <-reverse_app, <-Hq, reverse_involutive, <-Hp.
  by rewrite of_bytes_bytes.
Qed.

Lemma prefix_app b c : String.prefix b (b ++ c) = true.
Proof.
  induction b as [|x b IH]; simpl; [by destruct c|].
  destruct (ascii_dec x x) as [_|Hx]; [done|by destruct Hx].
Qed.

Lemma includes_prefix s search :
  String.prefix search s = true -> includes s search = true.
Proof. destruct s; simpl; by intros ->. Qed.

Lemma includes_app a b c : includes (a ++ b ++ c) b = true.
Proof.
  induction a as [|x a IH]; simpl.
  - apply includes_prefix. exact (prefix_app b c).
  - rewrite IH. apply orb_true_r.
Qed.

Lemma includes_trim s : includes s (trim s) = true.
Proof.
  destruct (trim_inside s) as (a & c & Hs). rewrite Hs at 1. apply includes_app.
Qed.

(** A label that equals a target's name up to case is related to it. *)
Lemma same_name_related src t :
  toLowerCase src = toLowerCase (name t) -> related (trim (toLowerCase src)) t = true.
Proof.
  intros Heq. unfold related, substring_rule. rewrite <-Heq.
  rewrite includes_trim. by rewrite !orb_true_r.
Qed.

(** * matchColumns *)

Lemma first_related_source targets src m :
  first_related targets src = Some m -> source m = src.
Proof.
  unfold first_related. destruct (List.find _ targets); [|done]. by inversion 1.
Qed.

Lemma matched_sources targets (sources : list string) c :
  c ∈ source <$> omap (first_related targets) sources <->
  c ∈ sources /\ first_related targets c <> None.
Proof.
  rewrite list_elem_of_fmap. split.
  - intros (m & -> & Hm). apply list_elem_of_omap in Hm as (src & Hin & Hsrc).
    pose proof (first_related_source _ _ _ Hsrc) as ->. split; [done|congruence].
  - intros [Hin Hc]. destruct (first_related targets c) as [m|] eqn:Hm; [|done].
    exists m. split; [by rewrite (first_related_source _ _ _ Hm)|].
    apply list_elem_of_omap. eauto.
Qed.

Lemma filter_agree {A} (P Q : A -> Prop) `{!forall x, Decision (P x)}
    `{!forall x, Decision (Q x)} (l : list A) :
  (forall x, x ∈ l -> P x <-> Q x) -> filter P l = filter Q l.
Proof.
  induction l as [|x l IH]; intros Hpq; [done|].
  rewrite !filter_cons, IH by (intros; apply Hpq; by right).
  destruct (decide (P x)) as [HP|HP], (decide (Q x)) as [HQ|HQ]; try done.
  - destruct HQ. apply Hpq; [by left|done].
  - destruct HP. apply Hpq; [by left|done].
Qed.

Lemma unmatched_sources targets (sources : list string) :
  filter (fun c => c ∉ source <$> omap (first_related targets) sources) sources =
  filter (fun src => first_related targets src = None) sources.
Proof.
  apply filter_agree. intros c Hin. rewrite matched_sources. split.
  - intros Hc. destruct (first_related targets c) eqn:Hm; [|done].
    destruct Hc. split; [done|congruence].
  - intros Hc [_ Hn]. done.
Qed.

Lemma first_related_found targets src t :
  t ∈ targets -> related (trim (toLowerCase src)) t = true ->
  first_related targets src <> None.
Proof.
  intros Hin Ht. unfold first_related.
  destruct (List.find _ targets) eqn:Hf; [done|].
  pose proof (find_none _ _ Hf t) as Hnone.
  rewrite Hnone in Ht; [done|]. by apply list_elem_of_In.
Qed.

(** C7 (as amended).  Whenever the rule pass returns: if every source
    label obtains a rule match, the Oracle is not invoked and exactly the
    rule matches are returned; otherwise the Oracle is invoked once, with
    exactly the source labels that the rule pass left unmatched, in their
    order, and with the names and labels of the fields, and its matches
    are returned after the rule matches.  When every source label equals,
    up to case, the name of some target field, every label obtains a rule
    match, so the Oracle is not invoked; the match of a label is the first
    target related to it, at that target's confidence, which is 1.0 only
    if that target is an exact match. *)
Theorem matchColumns_asks_for_the_unmatched
    (oracle : list string -> list (string * option string) -> oracle_reply)
    (sources : list string) (s : schema) (rule : list match_) :
  ruleBasedMatching sources (columns s) = Ok rule ->
  rule = omap (first_related (columns s)) sources /\
  (filter (fun src => first_related (columns s) src = None) sources = [] ->
     matchColumns sources s = Finished (Ok rule) /\
     run_matchColumns oracle sources s = (Ok rule, 0%nat)) /\
  (filter (fun src => first_related (columns s) src = None) sources <> [] ->
     exists resume,
       matchColumns sources s =
         CallOracle (filter (fun src => first_related (columns s) src = None) sources)
           ((fun c => (name c, label c)) <$> columns s) resume /\
       (forall ms, resume (OracleReplies ms) = Ok (rule ++ ms)%list) /\
       resume OracleFails = Ok rule /\
       run_matchColumns oracle sources s =
         (resume (oracle
                    (filter (fun src => first_related (columns s) src = None) sources)
                    ((fun c => (name c, label c)) <$> columns s)), 1%nat)) /\
  (Forall (fun src => exists t, t ∈ columns s /\
                        toLowerCase src = toLowerCase (name t)) sources ->
     filter (fun src => first_related (columns s) src = None) sources = []).
Proof.
  intros Hrule. pose proof (ruleBasedMatching_first_related _ _ _ Hrule) as Heq.
  split; [done|].
  assert (filter (fun c => c ∉ source <$> rule) sources =
          filter (fun src => first_related (columns s) src = None) sources) as Hfil.
  { rewrite Heq. apply unmatched_sources. }
  unfold run_matchColumns, matchColumns. rewrite Hrule, Hfil.
  split; [|split].
  - intros ->. by rewrite bool_decide_eq_true_2.
  - intros Hne. rewrite bool_decide_eq_false_2.
    2:{ intros Hlen. by apply nil_length_inv in Hlen. }
    eexists. split; [done|]. split; [done|]. split; done.
  - intros Hall. rewrite Forall_forall in Hall.
    destruct (filter (fun src => first_related (columns s) src = None) sources)
      as [|src l] eqn:Hun; [done|].
    assert (src ∈ filter (fun src => first_related (columns s) src = None) sources)
      as Hin by (rewrite Hun; by left).
    apply list_elem_of_filter in Hin as [Hnone Hin].
    destruct (Hall src Hin) as (t & Ht & Hname).
    by destruct (first_related_found (columns s) src t Ht (same_name_related _ _ Hname)).
Qed.

(** C8.  Whenever [matchColumns] invokes the Oracle and the call fails,
    [matchColumns] returns, and what it returns is exactly the matches of
    the rule pass: the failure does not reach the caller. *)
Theorem oracle_failure_is_absorbed (sources : list string) (s : schema)
    (unmatched : list string) (fields : list (string * option string))
    (resume : oracle_reply -> result (list match_)) :
  matchColumns sources s = CallOracle unmatched fields resume ->
  exists rule,
    ruleBasedMatching sources (columns s) = Ok rule /\
    resume OracleFails = Ok rule /\
    forall oracle, oracle unmatched fields = OracleFails ->
      run_matchColumns oracle sources s = (Ok rule, 1%nat).
Proof.
  unfold run_matchColumns. intros Hm. rewrite Hm.
  unfold matchColumns in Hm.
  destruct (ruleBasedMatching sources (columns s)) as [rule|e]; [|done].
  case_bool_decide; [done|]. inversion Hm; subst.
  exists rule. split; [done|]. split; [done|]. intros oracle ->. done.
Qed.

(** * Schema generation and menu creation *)

Lemma has_column_app n cols1 cols2 :
  has_column n (cols1 ++ cols2) = has_column n cols1 || has_column n cols2.
Proof. unfold has_column. apply existsb_app. Qed.

Lemma has_column_elem n cols :
  has_column n cols = true <-> exists c, c ∈ cols /\ name c = n.
Proof.
  unfold has_column. rewrite existsb_exists. split.
  - intros (c & Hin%list_elem_of_In & Hn%bool_decide_eq_true). eauto.
  - intros (c & Hin & Hn). exists c. split; [by apply list_elem_of_In|].
    by apply bool_decide_eq_true.
Qed.

(** The columns of the schema returned by [generateSchema]. *)
Lemma add_generated_shape cols :
  add_generated cols =
    ((if has_column "id" cols then [] else [generated_column "id" TString "ID"]) ++
     cols ++
     (if has_column "createdAt" cols then []
      else [generated_column "createdAt" TDate "생성일시"]) ++
     (if has_column "updatedAt" cols then []
      else [generated_column "updatedAt" TDate "수정일시"]))%list.
Proof.
  unfold add_generated.
  destruct (has_column "id" cols) eqn:Hid; simpl; rewrite ?Hid;
    destruct (has_column "createdAt" cols) eqn:Hc; simpl;
    rewrite ?has_column_app, ?Hc; simpl; rewrite ?app_nil_r;
    destruct (has_column "updatedAt" cols) eqn:Hu; simpl;
    rewrite ?Hu, ?orb_false_r; simpl; rewrite <-?app_assoc, ?app_nil_r; done.
Qed.

(** C2 (as amended).  A schema accepted from the AI Oracle by
    [generateSchema] has the columns of the draft, unchanged and in order,
    preceded by the generated field [id] (type string, readOnly, generated)
    if the draft has no column of that name, and followed by the generated
    fields [createdAt] and [updatedAt] (type date, readOnly, generated),
    each if the draft has no column of its name; so a column of each of the
    three names is always present.  [createMenu] stores the draft as it is
    and adds no field. *)
Theorem generated_fields_come_from_generateSchema :
  (forall draft, exists s,
     generateSchema (Some draft) = Ok s /\
     columns s =
       ((if has_column "id" (columns draft) then []
         else [generated_column "id" TString "ID"]) ++
        columns draft ++
        (if has_column "createdAt" (columns draft) then []
         else [generated_column "createdAt" TDate "생성일시"]) ++
        (if has_column "updatedAt" (columns draft) then []
         else [generated_column "updatedAt" TDate "수정일시"]))%list /\
     has_column "id" (columns s) = true /\
     has_column "createdAt" (columns s) = true /\
     has_column "updatedAt" (columns s) = true) /\
  (forall n ty l,
     name (generated_column n ty l) = n /\ type (generated_column n ty l) = ty /\
     readOnly (generated_column n ty l) = true /\
     generated (generated_column n ty l) = true) /\
  (forall menuData now1 now2 st st' m,
     createMenu menuData now1 now2 st = Some (st', m) ->
     schemas st' !! id m = Some menuData).
Proof.
  split; [|split].
  - intros draft. eexists. split; [done|]. simpl. split; [apply add_generated_shape|].
    rewrite add_generated_shape, !has_column_app.
    destruct (has_column "id" (columns draft)),
      (has_column "createdAt" (columns draft)),
      (has_column "updatedAt" (columns draft)); done.
  - done.
  - intros menuData now1 now2 st st' m. unfold createMenu.
    destruct (truthy_menuId menuData) as [x|].
    + inversion 1; subst. simpl. by rewrite lookup_insert_eq.
    + destruct (generateMenuId st (menuName menuData)) as [x|]; [|done]. simpl.
      inversion 1; subst. simpl. by rewrite lookup_insert_eq.
Qed.

Lemma string_length_app s1 s2 :
  String.length (s1 ++ s2) = (String.length s1 + String.length s2)%nat.
Proof. induction s1 as [|a s1 IH]; simpl; [done|]. by rewrite IH. Qed.

Lemma candidate_inj slug : Inj (=) (=) (candidate slug).
Proof.
  intros [|i] [|j]; simpl; [done| | |].
  - intros Heq. apply (f_equal String.length) in Heq.
    rewrite !string_length_app in Heq. simpl in Heq. lia.
  - intros Heq. apply (f_equal String.length) in Heq.
    rewrite !string_length_app in Heq. simpl in Heq. lia.
  - intros Heq. apply (inj (String.app slug)) in Heq.
    apply (inj (String.app "_")) in Heq. by apply (inj pretty) in Heq.
Qed.

(** Names all taken: there are at most as many as menus. *)
Lemma candidates_taken (ms : gmap string menu) slug n :
  (forall i, (i < n)%nat -> is_Some (ms !! candidate slug i)) -> (n <= size ms)%nat.
Proof.
  intros Htaken.
  assert (list_to_set (candidate slug <$> seq 0 n) ⊆ dom ms) as Hsub.
  { intros x Hx. apply elem_of_list_to_set, list_elem_of_fmap in Hx as (i & -> & Hi).
    apply elem_of_seq in Hi. apply elem_of_dom, Htaken. lia. }
  apply subseteq_size in Hsub. rewrite size_dom in Hsub.
  rewrite size_list_to_set in Hsub.
  - by rewrite length_fmap, length_seq in Hsub.
  - apply NoDup_fmap_2; [apply candidate_inj|apply NoDup_seq].
Qed.

Lemma generateMenuId_loop_finds (ms : gmap string menu) slug fuel n :
  (forall i, (i < n)%nat -> is_Some (ms !! candidate slug i)) ->
  (size ms <= n + fuel)%nat ->
  exists i,
    generateMenuId_loop fuel ms slug (candidate slug n) (S n) = Some (candidate slug i) /\
    ms !! candidate slug i = None /\
    forall j, (j < i)%nat -> is_Some (ms !! candidate slug j).
Proof.
  revert n. induction fuel as [|fuel IH]; intros n Htaken Hsize; simpl.
  - destruct (ms !! candidate slug n) as [m|] eqn:Hn; [|by exists n].
    assert (forall i, (i < S n)%nat -> is_Some (ms !! candidate slug i)) as Hmore.
    { intros i Hi. destruct (decide (i = n)) as [->|]; [by rewrite Hn|].
      apply Htaken. lia. }
    apply candidates_taken in Hmore. lia.
  - destruct (ms !! candidate slug n) as [m|] eqn:Hn; [|by exists n].
    apply (IH (S n)); [|lia].
    intros i Hi. destruct (decide (i = n)) as [->|]; [by rewrite Hn|].
    apply Htaken. lia.
Qed.

(** [generateMenuId] returns, and returns the first free name. *)
Lemma generateMenuId_finds st menuName :
  exists i,
    generateMenuId st menuName = Some (candidate (slugify menuName) i) /\
    menus st !! candidate (slugify menuName) i = None /\
    forall j, (j < i)%nat -> is_Some (menus st !! candidate (slugify menuName) j).
Proof.
  unfold generateMenuId.
  apply (generateMenuId_loop_finds (menus st) (slugify menuName) (size (menus st)) 0).
  - intros i Hi. lia.
  - lia.
Qed.

Lemma register_spec m menuData now1 now2 st st' mn :
  register m menuData now1 now2 st = (st', mn) ->
  id mn = m /\
  menus st' !! id mn = Some mn /\ schemas st' !! id mn = Some menuData /\
  data st' !! id mn = Some [] /\ id mn ∈ dirty st' /\
  forall k, k <> id mn ->
    menus st' !! k = menus st !! k /\ schemas st' !! k = schemas st !! k /\
    data st' !! k = data st !! k.
Proof.
  unfold register. inversion 1; subst; simpl.
  rewrite !lookup_insert_eq. repeat split; try done.
  - set_solver.
  - by rewrite lookup_insert_ne.
  - by rewrite lookup_insert_ne.
  - by rewrite lookup_insert_ne.
Qed.

(** C10 (as amended).  [createMenu] always returns.  It registers the
    draft under the id of the menu it returns, replacing whatever schema and
    rows an entity of that id had: the schema becomes the draft, the row
    list becomes empty, the id is marked dirty, and the other entities are
    untouched.  When the draft carries a menuId other than the empty
    string, that id is used as it is, with no check that it is free and no
    suffix.  When the draft carries no menuId, or the empty string, the id
    is derived from the menu name: the slug if no menu has it, else the
    first of slug_1, slug_2, ... that no menu has. *)
Theorem createMenu_uses_given_id_or_derives_one (menuData : schema)
    (now1 now2 : string) (st : store) :
  exists st' m,
    createMenu menuData now1 now2 st = Some (st', m) /\
    menus st' !! id m = Some m /\
    schemas st' !! id m = Some menuData /\
    data st' !! id m = Some [] /\
    id m ∈ dirty st' /\
    (forall k, k <> id m ->
       menus st' !! k = menus st !! k /\ schemas st' !! k = schemas st !! k /\
       data st' !! k = data st !! k) /\
    (forall x, menuId menuData = Some x -> x <> "" -> id m = x) /\
    (menuId menuData = None \/ menuId menuData = Some "" ->
       menus st !! id m = None /\
       exists i,
         id m = candidate (slugify (menuName menuData)) i /\
         forall j, (j < i)%nat ->
           is_Some (menus st !! candidate (slugify (menuName menuData)) j)).
Proof.
  assert (forall m,
    (forall x, menuId menuData = Some x -> x <> "" -> m = x) ->
    (menuId menuData = None \/ menuId menuData = Some "" ->
       menus st !! m = None /\
       exists i, m = candidate (slugify (menuName menuData)) i /\
         forall j, (j < i)%nat ->
           is_Some (menus st !! candidate (slugify (menuName menuData)) j)) ->
    createMenu menuData now1 now2 st = Some (register m menuData now1 now2 st) ->
    exists st' mn,
      createMenu menuData now1 now2 st = Some (st', mn) /\
      menus st' !! id mn = Some mn /\ schemas st' !! id mn = Some menuData /\
      data st' !! id mn = Some [] /\ id mn ∈ dirty st' /\
      (forall k, k <> id mn ->
         menus st' !! k = menus st !! k /\ schemas st' !! k = schemas st !! k /\
         data st' !! k = data st !! k) /\
      (forall x, menuId menuData = Some x -> x <> "" -> id mn = x) /\
      (menuId menuData = None \/ menuId menuData = Some "" ->
         menus st !! id mn = None /\
         exists i, id mn = candidate (slugify (menuName menuData)) i /\
           forall j, (j < i)%nat ->
             is_Some (menus st !! candidate (slugify (menuName menuData)) j)))
    as Hregister.
  { intros m Hgiven Hderived Hcreate.
    destruct (register m menuData now1 now2 st) as [st' mn] eqn:Hr.
    destruct (register_spec _ _ _ _ _ _ _ Hr) as (Hid & Hm & Hs & Hd & Hdirty & Hother).
    exists st', mn. rewrite Hid in *.
    split; [done|]. split; [done|]. split; [done|]. split; [done|].
    split; [done|]. split; [done|]. split; [done|]. done. }
  unfold createMenu, truthy_menuId in *.
  destruct (menuId menuData) as [x|] eqn:Hx.
  - case_bool_decide as Hempty.
    + subst x.
      destruct (generateMenuId_finds st (menuName menuData)) as (i & Hg & Hfree & Htaken).
      rewrite Hg in *. simpl in *.
      apply (Hregister (candidate (slugify (menuName menuData)) i)); [| |done].
      * intros x Hsome Hne. by simplify_eq.
      * intros _. split; [done|]. by exists i.
    + apply (Hregister x); [| |done].
      * intros y Hy _. by simplify_eq.
      * intros [?|?]; by simplify_eq.
  - destruct (generateMenuId_finds st (menuName menuData)) as (i & Hg & Hfree & Htaken).
    rewrite Hg in *. simpl in *.
    apply (Hregister (candidate (slugify (menuName menuData)) i)); [done| |done].
    intros _. split; [done|]. by exists i.
Qed.

(** * The claims on concrete inputs *)

Ltac evaluate := vm_compute; reflexivity.

(** ** The scenarios of the specification *)

Example scenario_bad_email_is_kept :
  (insert "contacts" {[ "name" := VStr "Kim"; "email" := VStr "bad-email" ]}
     (reading "u-1" "2024-05-02T10:00:00.000Z") contacts_store).2
  = Ok {[ "id" := VStr "u-1"; "name" := VStr "Kim"; "email" := VStr "bad-email";
          "createdAt" := VStr "2024-05-02T10:00:00.000Z";
          "updatedAt" := VStr "2024-05-02T10:00:00.000Z" ]}.
Proof. evaluate. Qed.

Example scenario_missing_email_is_null :
  (insert "contacts" lee (reading "u-2" "2024-05-02T11:00:00.000Z") contacts_store).2
  = Ok {[ "id" := VStr "u-2"; "name" := VStr "Lee"; "email" := VNull;
          "createdAt" := VStr "2024-05-02T11:00:00.000Z";
          "updatedAt" := VStr "2024-05-02T11:00:00.000Z" ]}.
Proof. evaluate. Qed.

Example scenario_forged_update :
  (update "contacts" (VStr "u-1") forged "2024-05-03T08:00:00.000Z" contacts_with_kim).2
  = Ok {[ "id" := VStr "u-1"; "name" := VStr "Kim"; "email" := VStr "kim@example.com";
          "createdAt" := VStr "2024-05-02T10:00:00.000Z";
          "updatedAt" := VStr "2024-05-03T08:00:00.000Z" ]}.
Proof. evaluate. Qed.

(** ** What the amended claims leave out *)

(** A pattern that does not compile makes [insert] raise a SyntaxError,
    although the validator means to log only. *)
Example invalid_pattern_raises :
  (insert "codes" {[ "code" := VStr "A1" ]} (reading "u-1" "2024-05-02T10:00:00.000Z")
     codes_store).2
  = Err (SyntaxError "(").
Proof. evaluate. Qed.

(** A required field named like a property of [Object.prototype] is not
    filled in: the validator reads the inherited function where the row
    has nothing. *)
Example required_inherited_name_stays_absent :
  required builder_column = true /\
  (insert "sites" ∅ (reading "u-1" "2024-05-02T10:00:00.000Z") sites_store).2
  = Ok {[ "id" := VStr "u-1"; "createdAt" := VStr "2024-05-02T10:00:00.000Z";
          "updatedAt" := VStr "2024-05-02T10:00:00.000Z" ]}.
Proof. split; evaluate. Qed.

(** Once the schema types the id as a number, an update nulls an id that
    is no number: the row is no longer found under it. *)
Example id_is_nulled_once_typed_as_number :
  (update "notes" (VStr "abc") ∅ "2024-05-05T08:00:00.000Z"
     (POST_schema_add_column "notes" numeric_id_column notes_with_abc).1).2
  = Ok {[ "id" := VNull; "title" := VStr "T";
          "createdAt" := VStr "2024-05-04T10:00:00.000Z";
          "updatedAt" := VStr "2024-05-05T08:00:00.000Z" ]}.
Proof. evaluate. Qed.

(** A falsy id of the caller's replaces the generated one. *)
Example null_id_is_stored :
  (insert "contacts" {[ "id" := VNull; "name" := VStr "Kim" ]}
     (reading "u-1" "2024-05-02T10:00:00.000Z") contacts_store).2
  = Ok {[ "id" := VNull; "name" := VStr "Kim"; "email" := VNull;
          "createdAt" := VStr "2024-05-02T10:00:00.000Z";
          "updatedAt" := VStr "2024-05-02T10:00:00.000Z" ]}.
Proof. evaluate. Qed.

(** A field named as a generated one and typed as a number loses its
    timestamp. *)
Example number_typed_updatedAt_is_nulled :
  (insert "ticks" ∅ (reading "u-1" "2024-05-02T10:00:00.000Z") ticks_store).2
  = Ok {[ "id" := VStr "u-1"; "createdAt" := VStr "2024-05-02T10:00:00.000Z";
          "updatedAt" := VNull ]}.
Proof. evaluate. Qed.

(** A target named [constructor] makes the rule pass raise a TypeError. *)
Example inherited_key_raises :
  ruleBasedMatching ["x"]
    [plain_column "constructor" "Builder" TString false;
     plain_column "x" "X" TString false]
  = Err TypeError.
Proof. evaluate. Qed.

(** So does a target without label. *)
Example unlabelled_target_raises :
  ruleBasedMatching ["이름"; "이메일"] [bare_column "name"; bare_column "email"]
  = Err TypeError.
Proof. evaluate. Qed.

(** A first row that fails and a second one that is stored. *)
Example bulkInsert_goes_on_after_a_failure :
  (bulkInsert "codes"
     [({[ "code" := VStr "A1" ]}, reading "u-1" "2024-05-02T10:00:00.000Z");
      (∅, reading "u-2" "2024-05-02T11:00:00.000Z")] codes_store).2
  = {| success := [{[ "id" := VStr "u-2";
                      "createdAt" := VStr "2024-05-02T11:00:00.000Z";
                      "updatedAt" := VStr "2024-05-02T11:00:00.000Z" ]}];
       failed := [{| failed_data := {[ "code" := VStr "A1" ]};
                     failed_error := SyntaxError "(" |}] |}.
Proof. evaluate. Qed.

(** ** Counterexamples to the claims as stated *)

(** C1, counterexample.  Two inserts that carry the same id are both
    stored: the ids of the entity are not unique. *)
Lemma same_id_is_stored_twice :
  row_ids "contacts" (run "contacts" clashing_ops contacts_store)
  = [Some (VStr "A-1"); Some (VStr "A-1")].
Proof. evaluate. Qed.

(** C2, counterexample.  [createMenu] on a draft without generated fields
    stores a schema without them. *)
Lemma createMenu_adds_no_field :
  columns <$> schemas (store_of (createMenu notes_draft "2024-05-01T09:00:00.000Z"
                                   "2024-05-01T09:00:00.000Z" empty_store)) !! "notes"
  = Some [plain_column "title" "Title" TString true].
Proof. evaluate. Qed.

(** C3, counterexample.  The label [name] equals the name of the second
    target, and is matched to the first one, [username], which contains
    it, at confidence 0.8. *)
Lemma earlier_substring_beats_exact :
  ruleBasedMatching ["name"] account_targets
  = Ok [{| source := "name"; target := "username"; confidence := (8 # 10)%Q |}].
Proof. evaluate. Qed.

(** C4, counterexample.  The empty string is not a valid email; it is not
    stored unchanged, but as [null]. *)
Lemma empty_email_is_not_kept :
  (insert "contacts" {[ "name" := VStr "Kim"; "email" := VStr "" ]}
     (reading "u-1" "2024-05-02T10:00:00.000Z") contacts_store).2
  = Ok {[ "id" := VStr "u-1"; "name" := VStr "Kim"; "email" := VNull;
          "createdAt" := VStr "2024-05-02T10:00:00.000Z";
          "updatedAt" := VStr "2024-05-02T10:00:00.000Z" ]}.
Proof. evaluate. Qed.


(** C7, counterexample.  The one source label, [paid], equals the name of a
    target field; [matchColumns] matches it to [id], which it contains, at
    confidence 0.8, not 1.0. *)
Lemma exact_name_matched_below_one :
  matchColumns ["paid"] payments_schema
  = Finished (Ok [{| source := "paid"; target := "id"; confidence := (8 # 10)%Q |}]).
Proof. evaluate. Qed.

(** C9, counterexample.  The empty string is not [null] and is not among
    the options; the row does not keep it and the options do not get it. *)
Lemma empty_option_is_not_added :
  validateRow [status_column] {[ "status" := VStr "" ]}
  = ([status_column], Ok {[ "status" := VNull ]}).
Proof. evaluate. Qed.

(** C10, counterexample.  The draft carries a menuId, the empty string; the
    id of the menu is derived from the name. *)
Lemma empty_menuId_is_not_used :
  menuId orders_draft = Some "" /\
  (fun created => id created.2) <$>
    createMenu orders_draft "2024-05-01T09:00:00.000Z" "2024-05-01T09:00:00.000Z"
      empty_store
  = Some "order_list".
Proof. split; evaluate. Qed.
(** ** The theorems at concrete inputs *)

Lemma contacts_patterns_compile : patterns_compile (columns contacts_schema).
Proof. unfold patterns_compile. vm_compute. repeat constructor. Defined.

(** C1 on the contacts: the ids stay distinct through an insert without
    id, an insert with a fresh id and an update that forges an id. *)
Lemma ids_kept_and_distinct_if_fresh_witness :
  data contacts_store !! "contacts" = Some [] /\
  fresh_inserts "contacts" contact_ops contacts_store = true /\
  NoDup (row_ids "contacts" (run "contacts" contact_ops contacts_store)).
Proof.
  split; [evaluate|]. split; [evaluate|].
  apply (ids_kept_and_distinct_if_fresh "contacts" contacts_store); evaluate.
Defined.

(** C2 on a draft without generated fields. *)
Lemma generated_fields_come_from_generateSchema_witness :
  exists s, generateSchema (Some notes_draft) = Ok s /\
    has_column "id" (columns s) = true /\
    has_column "createdAt" (columns s) = true /\
    has_column "updatedAt" (columns s) = true.
Proof.
  destruct generated_fields_come_from_generateSchema as (Hgen & _).
  destruct (Hgen notes_draft) as (s & Hs & _ & Hid & Hc & Hu). eauto.
Defined.

(** C3 on the two account targets. *)
Lemma rule_pass_takes_first_related_target_witness :
  Forall scannable account_targets /\
  ruleBasedMatching ["name"; "User"] account_targets
  = Ok (omap (first_related account_targets) ["name"; "User"]).
Proof.
  assert (Forall scannable account_targets) as Hplain.
  { repeat constructor; eauto; vm_compute; discriminate. }
  split; [exact Hplain|].
  apply (rule_pass_takes_first_related_target ["name"; "User"] account_targets), Hplain.
Defined.

(** C4 on the contacts: the scenario of the omitted email. *)
Lemma validation_is_lenient_witness :
  exists st' r,
    insert "contacts" lee (reading "u-2" "2024-05-02T11:00:00.000Z") contacts_store
    = (st', Ok r) /\
    data st' !! "contacts" = Some [r] /\
    r !! "email" = Some VNull.
Proof.
  destruct (validation_is_lenient contacts_store "contacts" [] contacts_schema)
    as (Hinsert & _); [evaluate|evaluate|exact contacts_patterns_compile|].
  destruct (Hinsert lee (reading "u-2" "2024-05-02T11:00:00.000Z"))
    as (st' & r & Hi & Hd & Hr).
  exists st', r. split; [exact Hi|]. split; [exact Hd|].
  rewrite (Hr "email"); [evaluate|]. apply plain_reads_own. compute_done.
Defined.

(** C5 on a batch whose first row fails. *)
Lemma bulkInsert_tries_every_row_witness :
  (length (success (bulkInsert "codes"
     [({[ "code" := VStr "A1" ]}, reading "u-1" "2024-05-02T10:00:00.000Z");
      (∅, reading "u-2" "2024-05-02T11:00:00.000Z")] codes_store).2) +
   length (failed (bulkInsert "codes"
     [({[ "code" := VStr "A1" ]}, reading "u-1" "2024-05-02T10:00:00.000Z");
      (∅, reading "u-2" "2024-05-02T11:00:00.000Z")] codes_store).2) = 2)%nat.
Proof.
  apply (bulkInsert_tries_every_row "codes"
    [({[ "code" := VStr "A1" ]}, reading "u-1" "2024-05-02T10:00:00.000Z");
     (∅, reading "u-2" "2024-05-02T11:00:00.000Z")] codes_store).
Defined.


(** C7 on the contacts: one label matched by the rules, one left to the
    Oracle. *)
Lemma matchColumns_asks_for_the_unmatched_witness :
  exists resume,
    matchColumns ["Name"; "zzz"] contacts_schema
    = CallOracle ["zzz"] contact_fields resume /\
    run_matchColumns silent_oracle ["Name"; "zzz"] contacts_schema
    = (resume (silent_oracle ["zzz"] contact_fields), 1%nat).
Proof.
  destruct (matchColumns_asks_for_the_unmatched silent_oracle ["Name"; "zzz"]
              contacts_schema [name_match]) as (_ & _ & Hcall & _); [evaluate|].
  destruct Hcall as (resume & Hm & _ & _ & Hrun); [vm_compute; discriminate|].
  exists resume. split; [exact Hm|exact Hrun].
Defined.

(** C8 on the contacts: the Oracle is asked about [zzz] and fails. *)
Lemma oracle_failure_is_absorbed_witness :
  exists rule,
    ruleBasedMatching ["Name"; "zzz"] (columns contacts_schema) = Ok rule /\
    resume_with [name_match] OracleFails = Ok rule.
Proof.
  destruct (oracle_failure_is_absorbed ["Name"; "zzz"] contacts_schema ["zzz"]
              contact_fields (resume_with [name_match])) as (rule & Hr & Hf & _);
    [reflexivity|].
  exists rule. split; [exact Hr|exact Hf].
Defined.

(** C9 on a status that is not among the options. *)
Lemma select_value_joins_options_witness :
  exists cols' r',
    validateRow [status_column] {[ "status" := VStr "pending" ]} = (cols', Ok r') /\
    r' !! "status" = Some (VStr "pending") /\
    cols' !! 0%nat =
      Some (with_options status_column [VStr "open"; VStr "closed"; VStr "pending"]).
Proof.
  destruct (select_value_joins_options [] [] status_column [VStr "open"; VStr "closed"]
              {[ "status" := VStr "pending" ]} (VStr "pending"))
    as (cols' & r' & Hv & Hr & Hc & _);
    [reflexivity|reflexivity| | |evaluate|discriminate|discriminate|compute_done|].
  - intros c' Hin. by apply not_elem_of_nil in Hin.
  - unfold patterns_compile. repeat constructor.
  - exists cols', r'. split; [exact Hv|]. split; [exact Hr|exact Hc].
Defined.

(** C10 on the contacts: creating the menu again under its id replaces
    the schema and empties the rows. *)
Lemma createMenu_uses_given_id_or_derives_one_witness :
  data contacts_with_kim !! "contacts" <> Some [] /\
  exists st' m,
    createMenu contacts_schema "2024-05-04T09:00:00.000Z" "2024-05-04T09:00:00.000Z"
      contacts_with_kim = Some (st', m) /\
    id m = "contacts" /\
    data st' !! "contacts" = Some [].
Proof.
  split; [vm_compute; discriminate|].
  destruct (createMenu_uses_given_id_or_derives_one contacts_schema
              "2024-05-04T09:00:00.000Z" "2024-05-04T09:00:00.000Z" contacts_with_kim)
    as (st' & m & Hc & _ & _ & Hd & _ & _ & Hgiven & _).
  assert (id m = "contacts") as Hid by (apply Hgiven; [reflexivity|discriminate]).
  exists st', m. split; [exact Hc|]. split; [exact Hid|]. by rewrite <-Hid.
Defined.

(** * Reading and deleting *)

(** ** Queries *)

Lemma filters_hold_spec (filters r : row) :
  filters_hold filters r = true <->
  forall k v, filters !! k = Some v -> filter_holds r k v = true.
Proof.
  unfold filters_hold. rewrite forallb_forall. split.
  - intros Hall k v Hkv. apply (Hall (k, v)).
    apply list_elem_of_In, elem_of_map_to_list, Hkv.
  - intros Hall [k v] Hin. apply Hall.
    by apply elem_of_map_to_list, list_elem_of_In.
Qed.

Lemma filters_hold_empty (r : row) : filters_hold ∅ r = true.
Proof. apply filters_hold_spec. intros k v Hkv. by rewrite lookup_empty in Hkv. Qed.

Lemma filter_all {A} (f : A -> bool) (l : list A) :
  (forall x, x ∈ l -> f x = true) -> List.filter f l = l.
Proof.
  induction l as [|x l IH]; intros Hall; [reflexivity|]. simpl.
  rewrite (Hall x) by left. f_equal. apply IH. intros y Hy. apply Hall. by right.
Qed.

Lemma filter_filter_and {A} (f g : A -> bool) (l : list A) :
  List.filter f (List.filter g l) = List.filter (fun x => g x && f x) l.
Proof.
  induction l as [|x l IH]; [reflexivity|]. simpl.
  destruct (g x); simpl; [destruct (f x)|]; by rewrite IH.
Qed.

Lemma filter_ext_in {A} (f g : A -> bool) (l : list A) :
  (forall x, x ∈ l -> f x = g x) -> List.filter f l = List.filter g l.
Proof.
  induction l as [|x l IH]; intros Hall; [reflexivity|]. simpl.
  rewrite (Hall x) by left. rewrite IH; [done|]. intros y Hy. apply Hall. by right.
Qed.


(** What [query] returns, whether or not there are filters. *)
Lemma query_filter menuId filters st rows :
  data st !! menuId = Some rows ->
  query menuId filters st = Ok (List.filter (filters_hold filters) rows).
Proof.
  intros Hrows. unfold query. rewrite Hrows. case_bool_decide as Hsize; [done|].
  assert (filters = ∅) as -> by (apply map_size_empty_iff; lia).
  f_equal. symmetry. apply filter_all. intros r _. apply filters_hold_empty.
Qed.

Lemma query_Ok menuId filters st found :
  query menuId filters st = Ok found ->
  exists rows, data st !! menuId = Some rows /\
    found = List.filter (filters_hold filters) rows.
Proof.
  intros Hq. destruct (data st !! menuId) as [rows|] eqn:Hrows.
  - exists rows. split; [done|]. rewrite (query_filter _ _ _ _ Hrows) in Hq. congruence.
  - unfold query in Hq. by rewrite Hrows in Hq.
Qed.


(** X2.  Querying with more filters gives what the further filters keep of
    the result of the query with fewer. *)
Theorem query_with_more_filters_refines (menuId : string) (filters filters' : row)
    (st : store) (found : list row) :
  filters ⊆ filters' ->
  query menuId filters st = Ok found ->
  query menuId filters' st = Ok (List.filter (filters_hold filters') found).
Proof.
  intros Hsub Hq. destruct (query_Ok _ _ _ _ Hq) as (rows & Hrows & ->).
  rewrite (query_filter _ _ _ _ Hrows). f_equal.
  rewrite filter_filter_and. apply filter_ext_in. intros r _.
  destruct (filters_hold filters' r) eqn:Hall'; [|by rewrite andb_false_r].
  rewrite andb_true_r. symmetry. apply filters_hold_spec. intros k v Hkv.
  apply (proj1 (filters_hold_spec _ _) Hall').
  by apply (lookup_weaken _ _ _ _ Hkv).
Qed.

(** ** Rows by id *)

Lemma findIndex_None rowId (rows : list row) :
  findIndex rowId rows = None <->
  Forall (fun r : row => r !! "id" <> Some rowId) rows.
Proof.
  induction rows as [|r rows IH]; simpl; [by split; [constructor|]|].
  case_bool_decide as Hid.
  - split; [done|]. intros Hall. by inversion Hall.
  - rewrite fmap_None, IH. split; [by constructor|]. intros Hall. by inversion Hall.
Qed.

Lemma findIndex_split rowId (rows : list row) index :
  findIndex rowId rows = Some index ->
  exists before r after,
    rows = (before ++ r :: after)%list /\ length before = index /\
    r !! "id" = Some rowId /\
    Forall (fun x : row => x !! "id" <> Some rowId) before.
Proof.
  revert index. induction rows as [|r rows IH]; intros index; simpl; [done|].
  case_bool_decide as Hid.
  - intros [= <-]. by exists [], r, rows.
  - destruct (findIndex rowId rows) as [i|]; simpl; [|done]. intros [= <-].
    destruct (IH i eq_refl) as (before & x & after & -> & Hlen & Hx & Hbefore).
    exists (r :: before), x, after. repeat split; simpl; auto.
Qed.


Lemma find_id_at rowId (before after : list row) (r : row) :
  Forall (fun x : row => x !! "id" <> Some rowId) before ->
  r !! "id" = Some rowId ->
  List.find (fun x : row => bool_decide (x !! "id" = Some rowId)) (before ++ r :: after)
  = Some r.
Proof.
  intros Hbefore Hr. induction Hbefore as [|x before Hx _ IH]; simpl.
  - by rewrite bool_decide_eq_true_2.
  - by rewrite bool_decide_eq_false_2.
Qed.

Lemma find_id_none rowId (rows : list row) :
  Forall (fun x : row => x !! "id" <> Some rowId) rows ->
  List.find (fun x : row => bool_decide (x !! "id" = Some rowId)) rows = None.
Proof.
  induction 1 as [|x rows Hx _ IH]; simpl; [done|]. by rewrite bool_decide_eq_false_2.
Qed.

Lemma find_id_app rowId (l1 l2 : list row) :
  List.find (fun x : row => bool_decide (x !! "id" = Some rowId)) (l1 ++ l2) =
  match List.find (fun x : row => bool_decide (x !! "id" = Some rowId)) l1 with
  | Some r => Some r
  | None => List.find (fun x : row => bool_decide (x !! "id" = Some rowId)) l2
  end.
Proof.
  induction l1 as [|x l1 IH]; simpl; [done|]. by case_bool_decide.
Qed.

Lemma findById_rows menuId rowId st rows :
  data st !! menuId = Some rows ->
  findById menuId rowId st =
    Ok (List.find (fun x : row => bool_decide (x !! "id" = Some rowId)) rows).
Proof.
  intros Hrows. unfold findById, query. rewrite Hrows, map_size_empty.
  by rewrite bool_decide_eq_false_2 by lia.
Qed.

Lemma findById_unknown menuId rowId st :
  data st !! menuId = None -> findById menuId rowId st = Err (MenuNotFound menuId).
Proof. intros Hrows. unfold findById, query. by rewrite Hrows. Qed.

Lemma row_ids_rows menuId st rows :
  data st !! menuId = Some rows -> row_ids menuId st = (fun r : row => r !! "id") <$> rows.
Proof. intros Hrows. unfold row_ids. by rewrite Hrows. Qed.

Lemma not_stored_id rowId (rows : list row) :
  Some rowId ∉ (fun r : row => r !! "id") <$> rows <->
  Forall (fun x : row => x !! "id" <> Some rowId) rows.
Proof.
  rewrite Forall_forall, list_elem_of_fmap. split.
  - intros Hnot x Hx Hid. apply Hnot. by exists x.
  - intros Hall (x & Hid & Hx). by apply (Hall x Hx).
Qed.

Lemma delete_at {A} (l1 l2 : list A) (x : A) :
  delete (length l1) (l1 ++ x :: l2)%list = (l1 ++ l2)%list.
Proof. induction l1 as [|y l1 IH]; simpl; [done|]. by rewrite IH. Qed.

Lemma insert_at {A} (l1 l2 : list A) (x y : A) :
  <[length l1 := y]> (l1 ++ x :: l2)%list = (l1 ++ y :: l2)%list.
Proof. induction l1 as [|z l1 IH]; simpl; [done|]. by rewrite IH. Qed.

Section rows_by_id.
Context `{!Engine}.

Lemma insert_Ok menuId rowData a st st' r :
  insert menuId rowData a st = (st', Ok r) ->
  exists rows s cols,
    data st !! menuId = Some rows /\ schemas st !! menuId = Some s /\
    validateRow (columns s) (new_row rowData a) = (cols, Ok r) /\
    st' = set_rows menuId (rows ++ [r]) (set_columns menuId s cols st).
Proof.
  unfold insert. intros Hins.
  destruct (data st !! menuId) as [rows|]; [|done].
  destruct (schemas st !! menuId) as [s|]; [|done].
  destruct (validateRow (columns s) (new_row rowData a)) as [cols [r'|e]] eqn:Hv; [|done].
  injection Hins as <- <-. by exists rows, s, cols.
Qed.

Lemma update_Ok menuId rowId updates now st st' r :
  update menuId rowId updates now st = (st', Ok r) ->
  exists rows index old s cols,
    data st !! menuId = Some rows /\ findIndex rowId rows = Some index /\
    rows !! index = Some old /\ schemas st !! menuId = Some s /\
    validateRow (columns s) (updated_row old updates now) = (cols, Ok r) /\
    st' = set_rows menuId (<[index := r]> rows) (set_columns menuId s cols st).
Proof.
  unfold update. intros Hupd.
  destruct (data st !! menuId) as [rows|]; [|done].
  destruct (findIndex rowId rows) as [index|] eqn:Hidx; [|done].
  destruct (rows !! index) as [old|] eqn:Hold; [|done].
  destruct (schemas st !! menuId) as [s|]; [|done].
  destruct (validateRow (columns s) (updated_row old updates now))
    as [cols [r'|e]] eqn:Hv; [|done].
  injection Hupd as <- <-. by exists rows, index, old, s, cols.
Qed.

(** X3.  A lookup by id returns the earliest stored row with that id.
    After an insert, that is the inserted row when its id was not stored
    before, and the row that already had the id otherwise. *)
Theorem findById_after_insert (menuId : string) (rowData : row) (a : ambient)
    (st st' : store) (r : row) (i : value) :
  insert menuId rowData a st = (st', Ok r) ->
  r !! "id" = Some i ->
  findById menuId i st' =
    match findById menuId i st with
    | Ok (Some earlier) => Ok (Some earlier)
    | _ => Ok (Some r)
    end /\
  (Some i ∉ row_ids menuId st -> findById menuId i st' = Ok (Some r)).
Proof.
  intros Hins Hid.
  destruct (insert_Ok _ _ _ _ _ _ Hins) as (rows & s & cols & Hrows & Hs & Hv & ->).
  assert (data (set_rows menuId (rows ++ [r]) (set_columns menuId s cols st)) !! menuId
          = Some (rows ++ [r])%list) as Hrows'.
  { rewrite data_set_rows. by destruct (decide (menuId = menuId)). }
  rewrite (findById_rows _ _ _ _ Hrows'), (findById_rows _ _ _ _ Hrows), find_id_app.
  simpl. rewrite (bool_decide_eq_true_2 _ Hid). split.
  - by destruct (List.find _ rows).
  - rewrite (row_ids_rows _ _ _ Hrows), not_stored_id. intros Hfresh.
    by rewrite (find_id_none _ _ Hfresh).
Qed.

(** X4.  After an update of a row of an entity whose stored ids are
    settled (validation would leave them as they are, as it does in every
    entity that has only seen inserts, updates and deletes under its
    schema), a lookup by the id that the update was given returns the row
    that the update returned. *)
Theorem findById_after_update (menuId : string) (rowId : value) (updates : row)
    (now : string) (st st' : store) (r : row) :
  settled_rows "id" menuId st ->
  update menuId rowId updates now st = (st', Ok r) ->
  r !! "id" = Some rowId /\ findById menuId rowId st' = Ok (Some r).
Proof.
  intros Hnormal Hupd.
  destruct (update_Ok _ _ _ _ _ _ _ Hupd)
    as (rows & index & old & s & cols & Hrows & Hidx & Hold & Hs & Hv & ->).
  destruct (findIndex_split _ _ _ Hidx) as (before & x & after & -> & Hlen & Hx & Hbefore).
  subst index. rewrite list_lookup_middle in Hold by done. injection Hold as <-.
  assert (r !! "id" = Some rowId) as Hid.
  { rewrite (validateRow_lookup _ _ _ _ "id" Hv), updated_row_id
      by apply plain_reads_own, id_plain.
    specialize (Hnormal s _ Hs Hrows). rewrite Forall_app, Forall_cons in Hnormal.
    destruct Hnormal as (_ & Hx' & _). by rewrite Hx'. }
  split; [exact Hid|].
  rewrite (findById_rows menuId rowId _ (before ++ r :: after)).
  - by rewrite (find_id_at _ _ _ _ Hbefore Hid).
  - rewrite data_set_rows, insert_at. by destruct (decide (menuId = menuId)).
Qed.

End rows_by_id.

(** ** Deleting a row *)

(** X5.  A delete that succeeds removes exactly one row, the earliest one
    that has the given id, keeps the other rows of the entity in their
    order, marks the entity as changed and touches nothing else; a delete
    fails for an unknown entity or when no stored row has the id, and then
    changes nothing. *)
Theorem delete_removes_the_first_row_with_the_id (menuId : string) (rowId : value)
    (st : store) :
  match delete_ menuId rowId st with
  | (st', Ok _) =>
      exists before r after,
        data st !! menuId = Some (before ++ r :: after)%list /\
        r !! "id" = Some rowId /\
        Forall (fun x : row => x !! "id" <> Some rowId) before /\
        data st' !! menuId = Some (before ++ after)%list /\
        menuId ∈ dirty st' /\
        menus st' = menus st /\ schemas st' = schemas st /\
        forall k, k <> menuId -> data st' !! k = data st !! k
  | (st', Err e) =>
      st' = st /\
      ((e = MenuNotFound menuId /\ data st !! menuId = None) \/
       (e = RowNotFound rowId /\
        exists rows, data st !! menuId = Some rows /\
          Forall (fun x : row => x !! "id" <> Some rowId) rows))
  end.
Proof.
  unfold delete_. destruct (data st !! menuId) as [rows|] eqn:Hrows.
  - destruct (findIndex rowId rows) as [index|] eqn:Hidx.
    + destruct (findIndex_split _ _ _ Hidx)
        as (before & r & after & -> & Hlen & Hr & Hbefore).
      subst index. exists before, r, after. rewrite delete_at.
      repeat split; auto.
      * rewrite data_set_rows. by destruct (decide (menuId = menuId)).
      * simpl. set_solver.
      * intros k Hk. rewrite data_set_rows. by destruct (decide (menuId = k)).
    + split; [done|]. right. split; [done|]. exists rows. split; [done|].
      by apply findIndex_None.
  - split; [done|]. by left.
Qed.

Lemma delete_Ok menuId rowId st st' b :
  delete_ menuId rowId st = (st', Ok b) ->
  exists before r after,
    data st !! menuId = Some (before ++ r :: after)%list /\
    r !! "id" = Some rowId /\
    Forall (fun x : row => x !! "id" <> Some rowId) before /\
    st' = set_rows menuId (before ++ after) st.
Proof.
  unfold delete_. intros Hdel.
  destruct (data st !! menuId) as [rows|] eqn:Hrows; [|done].
  destruct (findIndex rowId rows) as [index|] eqn:Hidx; [|done].
  destruct (findIndex_split _ _ _ Hidx) as (before & r & after & -> & Hlen & Hr & Hbefore).
  subst index. rewrite delete_at in Hdel. injection Hdel as <- _.
  by exists before, r, after.
Qed.


Lemma delete_missing menuId rowId st rows :
  data st !! menuId = Some rows ->
  Forall (fun x : row => x !! "id" <> Some rowId) rows ->
  delete_ menuId rowId st = (st, Err (RowNotFound rowId)).
Proof.
  intros Hrows Hall. unfold delete_.
  by rewrite Hrows, (proj2 (findIndex_None _ _) Hall).
Qed.

Section deleting.
Context `{!Engine}.


End deleting.

Lemma normal_rows_set_rows `{!Engine} menuId rows rows' st :
  data st !! menuId = Some rows -> rows' ⊆ rows ->
  normal_rows menuId st -> normal_rows menuId (set_rows menuId rows' st).
Proof.
  intros Hrows Hsub Hnormal s rs Hs Hrs. simpl in Hs.
  rewrite data_set_rows in Hrs. destruct (decide (menuId = menuId)); [|done].
  injection Hrs as <-. specialize (Hnormal s rows Hs Hrows).
  rewrite Forall_forall in Hnormal |- *. intros x Hx. apply Hnormal, Hsub, Hx.
Qed.

Lemma settled_rows_set_rows `{!Engine} k menuId rows rows' st :
  data st !! menuId = Some rows -> (forall x, x ∈ rows' -> x ∈ rows) ->
  settled_rows k menuId st -> settled_rows k menuId (set_rows menuId rows' st).
Proof.
  intros Hrows Hsub Hsettled s rows'' Hs Hrows''.
  rewrite data_set_rows in Hrows''. destruct (decide (menuId = menuId)); [|done].
  injection Hrows'' as <-. specialize (Hsettled s rows Hs Hrows).
  rewrite Forall_forall in Hsettled |- *. auto.
Qed.

(** The stored rows stay settled through a delete, as they do through an
    insert and an update. *)
Lemma delete_settled_rows `{!Engine} k menuId rowId st :
  settled_rows k menuId st -> settled_rows k menuId (delete_ menuId rowId st).1.
Proof.
  intros Hsettled. unfold delete_.
  destruct (data st !! menuId) as [rows|] eqn:Hrows; [|done].
  destruct (findIndex rowId rows) as [index|] eqn:Hidx; [|done]. simpl.
  apply (settled_rows_set_rows _ _ _ _ _ Hrows); [|done].
  intros x Hx. apply list_elem_of_lookup in Hx as (i & Hi).
  destruct (decide (i < index)%nat).
  - rewrite list_lookup_delete_lt in Hi by done. by eapply list_elem_of_lookup_2.
  - rewrite list_lookup_delete_ge in Hi by lia. by eapply list_elem_of_lookup_2.
Qed.

Lemma normal_rows_settled `{!Engine} k menuId st :
  normal_rows menuId st -> settled_rows k menuId st.
Proof.
  intros Hnormal s rows Hs Hrows. specialize (Hnormal s rows Hs Hrows).
  eapply Forall_impl; [done|]. intros r Hr. apply Hr.
Qed.

(** X7.  Deleting a row keeps what the stored rows of the entity have in
    common: their ids remain distinct if they were, the ids that remain
    are the earlier ids without one occurrence of the deleted one, and the
    rows remain rows that validation leaves unchanged. *)
Theorem delete_keeps_ids_distinct `{!Engine} (menuId : string) (rowId : value)
    (st : store) :
  (NoDup (row_ids menuId st) -> NoDup (row_ids menuId (delete_ menuId rowId st).1)) /\
  sublist (row_ids menuId (delete_ menuId rowId st).1) (row_ids menuId st) /\
  (forall b, (delete_ menuId rowId st).2 = Ok b ->
     length (row_ids menuId st) = S (length (row_ids menuId (delete_ menuId rowId st).1))) /\
  (normal_rows menuId st -> normal_rows menuId (delete_ menuId rowId st).1).
Proof.
  destruct (delete_ menuId rowId st) as [st' [b|e]] eqn:Hdel; simpl.
  - destruct (delete_Ok _ _ _ _ _ Hdel) as (before & r & after & Hrows & Hr & Hbefore & ->).
    assert (row_ids menuId (set_rows menuId (before ++ after) st)
            = (fun x : row => x !! "id") <$> (before ++ after)%list) as Hids'.
    { apply row_ids_rows. rewrite data_set_rows. by destruct (decide (menuId = menuId)). }
    rewrite Hids', (row_ids_rows _ _ _ Hrows), !fmap_app, fmap_cons.
    repeat split.
    + intros Hnodup. apply NoDup_app in Hnodup as (H1 & H2 & H3).
      apply NoDup_cons in H3 as [_ H3]. apply NoDup_app. repeat split; auto.
      intros x Hx Hx'. apply (H2 x Hx). by right.
    + apply sublist_app; [done|]. by apply sublist_cons.
    + intros _ _. rewrite !length_app. simpl. lia.
    + intros Hnormal. apply (normal_rows_set_rows _ _ _ _ Hrows); [|done].
      intros x. rewrite !elem_of_app, elem_of_cons. tauto.
  - assert (st' = st) as ->.
    { unfold delete_ in Hdel. destruct (data st !! menuId); [|congruence].
      destruct (findIndex rowId l); congruence. }
    repeat split; auto. intros b. discriminate.
Qed.

Section after_delete.
Context `{!Engine}.

(** X8.  Once the only row with some id has been deleted, the id is gone:
    a lookup by it finds nothing, and a second delete or an update by it
    fails with `Row not found' and changes nothing. *)
Theorem deleted_id_is_gone (menuId : string) (rowId : value) (st st' : store) :
  delete_ menuId rowId st = (st', Ok true) ->
  NoDup (row_ids menuId st) ->
  findById menuId rowId st' = Ok None /\
  delete_ menuId rowId st' = (st', Err (RowNotFound rowId)) /\
  forall updates now,
    update menuId rowId updates now st' = (st', Err (RowNotFound rowId)).
Proof.
  intros Hdel Hnodup.
  destruct (delete_Ok _ _ _ _ _ Hdel) as (before & r & after & Hrows & Hr & Hbefore & ->).
  assert (data (set_rows menuId (before ++ after) st) !! menuId
          = Some (before ++ after)%list) as Hrows'.
  { rewrite data_set_rows. by destruct (decide (menuId = menuId)). }
  assert (Forall (fun x : row => x !! "id" <> Some rowId) (before ++ after)) as Hgone.
  { apply Forall_app. split; [done|].
    rewrite (row_ids_rows _ _ _ Hrows), fmap_app, fmap_cons in Hnodup.
    apply NoDup_app in Hnodup as (_ & _ & Hnodup). apply NoDup_cons in Hnodup as [Hnot _].
    rewrite Hr in Hnot. by apply not_stored_id. }
  split; [|split].
  - by rewrite (findById_rows _ _ _ _ Hrows'), (find_id_none _ _ Hgone).
  - by apply (delete_missing _ _ _ _ Hrows').
  - intros updates now. unfold update.
    by rewrite Hrows', (proj2 (findIndex_None _ _) Hgone).
Qed.

End after_delete.

(** ** Deleting a menu *)

(** X9.  After [deleteMenu] the entity is gone: its menu and schema are
    no longer found, every data operation on it fails with `Menu not
    found' and changes nothing, its id is marked as changed, and no other
    entity is touched. *)
Theorem deleted_menu_rejects_every_operation `{!Engine} (menuId : string) (st : store) :
  getMenu menuId (deleteMenu menuId st).1 = None /\
  getSchema menuId (deleteMenu menuId st).1 = None /\
  (forall rowData a,
     insert menuId rowData a (deleteMenu menuId st).1
     = ((deleteMenu menuId st).1, Err (MenuNotFound menuId))) /\
  (forall rowId updates now,
     update menuId rowId updates now (deleteMenu menuId st).1
     = ((deleteMenu menuId st).1, Err (MenuNotFound menuId))) /\
  (forall rowId,
     delete_ menuId rowId (deleteMenu menuId st).1
     = ((deleteMenu menuId st).1, Err (MenuNotFound menuId))) /\
  (forall filters, query menuId filters (deleteMenu menuId st).1
     = Err (MenuNotFound menuId)) /\
  (forall rowId, findById menuId rowId (deleteMenu menuId st).1
     = Err (MenuNotFound menuId)) /\
  menuId ∈ dirty (deleteMenu menuId st).1 /\
  (forall k, k <> menuId ->
     menus (deleteMenu menuId st).1 !! k = menus st !! k /\
     schemas (deleteMenu menuId st).1 !! k = schemas st !! k /\
     data (deleteMenu menuId st).1 !! k = data st !! k).
Proof.
  assert (data (deleteMenu menuId st).1 !! menuId = None) as Hgone
    by apply lookup_delete_eq.
  split; [apply lookup_delete_eq|]. split; [apply lookup_delete_eq|].
  split; [intros; unfold insert; by rewrite Hgone|].
  split; [intros; unfold update; by rewrite Hgone|].
  split; [intros; unfold delete_; by rewrite Hgone|].
  split; [intros; unfold query; by rewrite Hgone|].
  split; [intros; by apply findById_unknown|].
  split; [simpl; set_solver|].
  intros k Hk. simpl. by rewrite !lookup_delete_ne.
Qed.

Lemma bulkInsert_loop_unknown `{!Engine} menuId rowsData results st :
  data st !! menuId = None ->
  bulkInsert_loop menuId rowsData results st =
    (st, {| success := success results;
            failed := (failed results ++
              ((fun ra : row * ambient =>
                  {| failed_data := ra.1; failed_error := MenuNotFound menuId |})
               <$> rowsData))%list |}).
Proof.
  intros Hnone. revert results.
  induction rowsData as [|[rowData a] rest IH]; intros results; simpl.
  - rewrite app_nil_r. by destruct results.
  - unfold insert at 1. rewrite Hnone, IH. simpl. by rewrite <-app_assoc.
Qed.

(** X10.  A bulk insert into an entity that does not exist returns
    normally: no row is inserted, every row is reported as failed with
    `Menu not found', in the order given, and the store is unchanged. *)
Theorem bulkInsert_into_unknown_menu_fails_every_row `{!Engine} (menuId : string)
    (rowsData : list (row * ambient)) (st : store) :
  data st !! menuId = None ->
  bulkInsert menuId rowsData st =
    (st, {| success := [];
            failed := (fun ra : row * ambient =>
                         {| failed_data := ra.1; failed_error := MenuNotFound menuId |})
                      <$> rowsData |}).
Proof. intros Hnone. unfold bulkInsert. by rewrite bulkInsert_loop_unknown. Qed.

Lemma createMenu_register menuData now1 now2 st st' m :
  createMenu menuData now1 now2 st = Some (st', m) ->
  register (id m) menuData now1 now2 st = (st', m).
Proof.
  unfold createMenu. intros Hc.
  destruct (truthy_menuId menuData) as [x|].
  - injection Hc as <- <-. reflexivity.
  - destruct (generateMenuId st (menuName menuData)) as [x|]; simpl in Hc; [|done].
    injection Hc as <- <-. reflexivity.
Qed.

(** X11.  Deleting a menu that was just created under an id the store did
    not hold gives back the menus, the schemas and the rows of before; only
    the id stays marked as changed. *)
Theorem deleteMenu_undoes_createMenu (menuData : schema) (now1 now2 : string)
    (st st' : store) (m : menu) :
  createMenu menuData now1 now2 st = Some (st', m) ->
  menus st !! id m = None -> schemas st !! id m = None -> data st !! id m = None ->
  menus (deleteMenu (id m) st').1 = menus st /\
  schemas (deleteMenu (id m) st').1 = schemas st /\
  data (deleteMenu (id m) st').1 = data st /\
  dirty (deleteMenu (id m) st').1 = {[id m]} ∪ dirty st.
Proof.
  intros Hc Hm Hs Hd. apply createMenu_register in Hc.
  unfold register in Hc. injection Hc as <- _. simpl.
  rewrite !delete_insert_id by done. repeat split.
  by rewrite (assoc_L (∪)), (idemp_L (∪)).
Qed.

(** ** Statistics *)

Lemma sum_list_change (menuId : string) (f g : string -> nat) (keys : list string) :
  NoDup keys -> menuId ∈ keys ->
  (forall k, k <> menuId -> g k = f k) ->
  (sum_list (g <$> keys) + f menuId = sum_list (f <$> keys) + g menuId)%nat.
Proof.
  intros Hnodup Hin Hsame. induction Hnodup as [|k keys Hk Hnodup IH]; [by inversion Hin|].
  csimpl. apply elem_of_cons in Hin as [<-|Hin].
  - assert (sum_list (g <$> keys) = sum_list (f <$> keys)) as ->; [|lia].
    f_equal. apply list_fmap_ext. intros i k Hlookup. apply Hsame.
    intros ->. apply Hk. by eapply list_elem_of_lookup_2.
  - specialize (IH Hin). rewrite (Hsame k) by (intros ->; done). lia.
Qed.

Lemma totalRows_keys st :
  totalRows (getStats st) =
    sum_list ((fun k => length (default [] (data st !! k))) <$> (map_to_list (menus st)).*1).
Proof. unfold getStats. simpl. by rewrite <-!list_fmap_compose. Qed.

Lemma totalRows_change menuId st st' (rows rows' : list row) :
  is_Some (menus st !! menuId) ->
  menus st' = menus st ->
  data st !! menuId = Some rows -> data st' !! menuId = Some rows' ->
  (forall k, k <> menuId -> data st' !! k = data st !! k) ->
  (totalRows (getStats st') + length rows = totalRows (getStats st) + length rows')%nat /\
  totalMenus (getStats st') = totalMenus (getStats st).
Proof.
  intros [m Hm] Hmenus Hrows Hrows' Hother. split; [|simpl; by rewrite Hmenus].
  rewrite !totalRows_keys, Hmenus.
  pose proof (sum_list_change menuId
    (fun k => length (default [] (data st !! k)))
    (fun k => length (default [] (data st' !! k)))
    (map_to_list (menus st)).*1) as Hsum.
  simpl in Hsum. rewrite Hrows, Hrows' in Hsum. apply Hsum.
  - apply NoDup_fst_map_to_list.
  - apply list_elem_of_fmap. exists (menuId, m). split; [done|].
    by apply elem_of_map_to_list.
  - intros k Hk. by rewrite Hother.
Qed.

(** X12.  The statistics follow the operations on a registered menu: a
    successful insert raises the total number of rows by one, a successful
    delete lowers it by one, an update leaves it as it is, and none of
    them changes the number of menus. *)
Theorem stats_follow_the_rows `{!Engine} (menuId : string) (st : store) :
  is_Some (menus st !! menuId) ->
  (forall rowData a st' r, insert menuId rowData a st = (st', Ok r) ->
     totalRows (getStats st') = S (totalRows (getStats st)) /\
     totalMenus (getStats st') = totalMenus (getStats st)) /\
  (forall rowId st' b, delete_ menuId rowId st = (st', Ok b) ->
     S (totalRows (getStats st')) = totalRows (getStats st) /\
     totalMenus (getStats st') = totalMenus (getStats st)) /\
  (forall rowId updates now st' r, update menuId rowId updates now st = (st', Ok r) ->
     totalRows (getStats st') = totalRows (getStats st) /\
     totalMenus (getStats st') = totalMenus (getStats st)).
Proof.
  intros Hmenu. split; [|split].
  - intros rowData a st' r Hins.
    destruct (insert_Ok _ _ _ _ _ _ Hins) as (rows & s & cols & Hrows & Hs & Hv & ->).
    destruct (totalRows_change menuId st
                (set_rows menuId (rows ++ [r]) (set_columns menuId s cols st))
                rows (rows ++ [r])) as [Hsum Hmenus]; auto.
    + rewrite data_set_rows. by destruct (decide (menuId = menuId)).
    + intros k Hk. rewrite data_set_rows. by destruct (decide (menuId = k)).
    + split; [|done]. rewrite length_app in Hsum. cbn [length] in Hsum. lia.
  - intros rowId st' b Hdel.
    destruct (delete_Ok _ _ _ _ _ Hdel) as (before & r & after & Hrows & Hr & Hbefore & ->).
    destruct (totalRows_change menuId st (set_rows menuId (before ++ after) st)
                (before ++ r :: after) (before ++ after)) as [Hsum Hmenus]; auto.
    + rewrite data_set_rows. by destruct (decide (menuId = menuId)).
    + intros k Hk. rewrite data_set_rows. by destruct (decide (menuId = k)).
    + split; [|done]. rewrite !length_app in Hsum. cbn [length] in Hsum. lia.
  - intros rowId updates now st' r Hupd.
    destruct (update_Ok _ _ _ _ _ _ _ Hupd)
      as (rows & index & old & s & cols & Hrows & Hidx & Hold & Hs & Hv & ->).
    destruct (totalRows_change menuId st
                (set_rows menuId (<[index := r]> rows) (set_columns menuId s cols st))
                rows (<[index := r]> rows)) as [Hsum Hmenus]; auto.
    + rewrite data_set_rows. by destruct (decide (menuId = menuId)).
    + intros k Hk. rewrite data_set_rows. by destruct (decide (menuId = k)).
    + split; [|done]. rewrite length_insert in Hsum. lia.
Qed.

(** ** The files of persist and load *)



Lemma prefix_cons (a b : ascii) (s t : string) :
  String.prefix (String a s) (String b t) = bool_decide (a = b) && String.prefix s t.
Proof. simpl. destruct (ascii_dec a b); by case_bool_decide. Qed.



Lemma bytes_app (a b : string) : bytes (a ++ b) = (bytes a ++ bytes b)%list.
Proof. induction a as [|c a IH]; simpl; [done|]. by rewrite IH. Qed.







(** An id with a [/] in it is saved elsewhere, if at all, or over the
    file of another menu. *)
Example id_with_a_slash_is_not_listed :
  listed ["srv"; "data"] "a/b" = None /\
  listed ["srv"; "data"] "x/../contacts" = Some "contacts.json" /\
  loaded_menuId "contacts.json" = "contacts".
Proof. repeat split; evaluate. Qed.

(** The bytes of the ids that [generateMenuId] makes. *)

Lemma bytes_bounded (s : string) : Forall (fun b => (b < 256)%N) (bytes s).
Proof.
  induction s as [|c s IH]; simpl; constructor; [apply N_ascii_bounded|done].
Qed.

Lemma bytes_of_bytes (l : list N) :
  Forall (fun b => (b < 256)%N) l -> bytes (of_bytes l) = l.
Proof.
  induction 1 as [|b l Hb _ IH]; simpl; [done|].
  by rewrite N_ascii_embedding, IH.
Qed.













(** The id is lost when it contains [.json] before its end. *)
Example id_with_json_inside_is_loaded_under_another :
  loaded_menuId (saved_file "v1.jsonl") = "v1l.json".
Proof. reflexivity. Qed.

(** * The replies of the providers *)

(** ** Positions *)

Lemma indexOf_lt b l i : indexOf b l = Some i -> (i < length l)%nat.
Proof.
  revert i. induction l as [|x l IH]; intros i; simpl; [done|].
  destruct (x =? b)%N; [intros [= <-]; lia|].
  destruct (indexOf b l) as [j|]; simpl; [|done]. intros [= <-].
  specialize (IH j eq_refl). lia.
Qed.

Lemma indexOf_app b l1 l2 :
  indexOf b (l1 ++ l2) =
    match indexOf b l1 with
    | Some i => Some i
    | None => (fun i => (length l1 + i)%nat) <$> indexOf b l2
    end.
Proof.
  induction l1 as [|x l1 IH]; simpl.
  - by destruct (indexOf b l2).
  - destruct (x =? b)%N; [done|]. rewrite IH.
    destruct (indexOf b l1); [done|]. by destruct (indexOf b l2).
Qed.

Lemma indexOf_absent b l : Forall (fun x => x <> b) l -> indexOf b l = None.
Proof.
  induction 1 as [|x l Hx _ IH]; simpl; [done|].
  destruct (N.eqb_spec x b); [done|]. by rewrite IH.
Qed.

Lemma indexOf_at b l : indexOf b (b :: l) = Some 0%nat.
Proof. simpl. by rewrite N.eqb_refl. Qed.

Lemma lastIndexOf_lt b l e : lastIndexOf b l = Some e -> (e < length l)%nat.
Proof.
  unfold lastIndexOf. destruct (indexOf b (reverse l)) as [i|] eqn:Hi; [|done].
  simpl. intros [= <-]. apply indexOf_lt in Hi. rewrite length_reverse in Hi. lia.
Qed.

Lemma indexOf_around b p l q :
  Forall (fun x => x <> b) p -> Forall (fun x => x <> b) q ->
  indexOf b (p ++ l ++ q) = (fun i => (length p + i)%nat) <$> indexOf b l.
Proof.
  intros Hp Hq. rewrite !indexOf_app, (indexOf_absent _ _ Hp), (indexOf_absent _ _ Hq).
  by destruct (indexOf b l).
Qed.

Lemma lastIndexOf_around b p l q :
  Forall (fun x => x <> b) p -> Forall (fun x => x <> b) q ->
  lastIndexOf b (p ++ l ++ q) = (fun i => (length p + i)%nat) <$> lastIndexOf b l.
Proof.
  intros Hp Hq. unfold lastIndexOf.
  rewrite !reverse_app, <-app_assoc, indexOf_around by by apply Forall_reverse.
  destruct (indexOf b (reverse l)) as [i|] eqn:Hi; [|done]. simpl. f_equal.
  apply indexOf_lt in Hi. rewrite !length_app, !length_reverse in *. lia.
Qed.

Lemma substring_around p l q first last :
  (first < length l)%nat -> (last < length l)%nat ->
  substring (length p + first) (length p + last + 1) (p ++ l ++ q) =
  substring first (last + 1) l.
Proof.
  intros Hfirst Hlast. unfold substring.
  replace (length p + last + 1)%nat with (length p + (last + 1))%nat by lia.
  rewrite Nat.add_min_distr_l, Nat.add_max_distr_l.
  replace (length p + Nat.max first (last + 1) - (length p + Nat.min first (last + 1)))%nat
    with (Nat.max first (last + 1) - Nat.min first (last + 1))%nat by lia.
  rewrite drop_app_add, drop_app_le by lia.
  apply take_app_le. rewrite length_drop. lia.
Qed.

Lemma brace_free_app l1 l2 : brace_free (l1 ++ l2) <-> brace_free l1 /\ brace_free l2.
Proof. apply Forall_app. Qed.

Lemma brace_free_no b l : (b = 123 \/ b = 125)%N -> brace_free l -> Forall (fun x => x <> b) l.
Proof.
  intros Hb Hl. eapply Forall_impl; [exact Hl|]. intros x [H1 H2]. by destruct Hb as [->| ->].
Qed.

Lemma pared_refl l : pared l l.
Proof. exists [], []. rewrite app_nil_r. by repeat constructor. Qed.

Lemma pared_trans l1 l2 l3 : pared l1 l2 -> pared l2 l3 -> pared l1 l3.
Proof.
  intros (p & q & -> & Hp & Hq) (p' & q' & -> & Hp' & Hq').
  exists (p ++ p')%list, (q' ++ q)%list. rewrite !brace_free_app.
  split; [by rewrite <-!app_assoc|done].
Qed.

(** The span from the first [{] to the last [}] is not moved by what is
    pared off. *)
Lemma brace_span_pared s s' :
  pared (bytes s) (bytes s') -> brace_span s = brace_span s'.
Proof.
  intros (p & q & Hs & Hp & Hq). unfold brace_span. rewrite Hs.
  rewrite indexOf_around, lastIndexOf_around by (apply brace_free_no; auto).
  destruct (indexOf 123 (bytes s')) as [first|] eqn:Hfirst; [|done].
  destruct (lastIndexOf 125 (bytes s')) as [last|] eqn:Hlast; [|done].
  simpl. do 2 f_equal. apply substring_around.
  - by apply indexOf_lt in Hfirst.
  - by apply lastIndexOf_lt in Hlast.
Qed.

(** ** What the cleaning takes off *)

Lemma bytes_of_part (s : string) (p x q : list N) :
  bytes s = (p ++ x ++ q)%list -> bytes (of_bytes x) = x.
Proof.
  intros Hs. apply bytes_of_bytes. pose proof (bytes_bounded s) as Hb.
  rewrite Hs, !Forall_app in Hb. tauto.
Qed.

Lemma white_space_brace_free :
  Forall (Forall (fun b => b <> 123%N /\ b <> 125%N)) white_space.
Proof. compute_done. Qed.

Lemma white_space_reversed_brace_free :
  Forall (Forall (fun b => b <> 123%N /\ b <> 125%N)) (reverse <$> white_space).
Proof. compute_done. Qed.

Lemma drop_space_elem ws l l' :
  drop_space ws l = Some l' -> exists w, w ∈ ws /\ l = (w ++ l')%list.
Proof.
  unfold drop_space. destruct (list_find _ _) as [[i o]|] eqn:Hf; [|done].
  simpl. intros ->. apply list_find_Some in Hf as (Hi & _ & _).
  apply list_lookup_fmap_Some in Hi as (w & Hw & Hlookup). symmetry in Hw.
  exists w. split; [by eapply list_elem_of_lookup_2|by apply strip_prefix_Some].
Qed.

Lemma trim_front_brace_free fuel ws l :
  Forall brace_free ws ->
  exists p, l = (p ++ trim_front fuel ws l)%list /\ brace_free p.
Proof.
  intros Hws. revert l. induction fuel as [|fuel IH]; intros l; simpl.
  { exists []. by split; [|constructor]. }
  destruct (drop_space ws l) as [l'|] eqn:Hd; [|exists []; by split; [|constructor]].
  apply drop_space_elem in Hd as (w & Hw & ->). destruct (IH l') as (p & Hp & Hfree).
  exists (w ++ p)%list. split; [by rewrite <-app_assoc, <-Hp|].
  apply brace_free_app. split; [|done]. rewrite Forall_forall in Hws. by apply Hws.
Qed.

Lemma trim_pared s : pared (bytes s) (bytes (trim s)).
Proof.
  unfold trim.
  destruct (trim_front_brace_free (String.length s) white_space (bytes s)
              white_space_brace_free) as (p & Hp & Hpfree).
  set (l := trim_front (String.length s) white_space (bytes s)) in *.
  destruct (trim_front_brace_free (String.length s) (reverse <$> white_space)
              (reverse l) white_space_reversed_brace_free) as (q & Hq & Hqfree).
  set (l' := trim_front _ _ (reverse l)) in *.
  assert (bytes s = (p ++ reverse l' ++ reverse q)%list) as Hs.
  { by rewrite <-reverse_app, <-Hq, reverse_involutive. }
  exists p, (reverse q). rewrite (bytes_of_part _ _ _ _ Hs).
  split; [exact Hs|]. split; [done|]. by apply Forall_reverse.
Qed.

Lemma substring_drop n s : String.substring 0 n s ++ string_drop n s = s.
Proof.
  revert s. induction n as [|n IH]; intros [|c s]; simpl; try done.
  change (String c (String.substring 0 n s ++ string_drop n s) = String c s).
  by rewrite IH.
Qed.

Lemma lower_ascii_brace a :
  (N_of_ascii (lower_ascii a) <> 123 /\ N_of_ascii (lower_ascii a) <> 125)%N ->
  (N_of_ascii a <> 123 /\ N_of_ascii a <> 125)%N.
Proof.
  intros [H1 H2]. split; intros Ha; apply (f_equal ascii_of_N) in Ha;
    rewrite ascii_N_embedding in Ha; subst a; [by apply H1|by apply H2].
Qed.

Lemma toLowerCase_brace_free s :
  brace_free (bytes (toLowerCase s)) -> brace_free (bytes s).
Proof.
  induction s as [|a s IH]; simpl; [done|]. unfold brace_free. rewrite !Forall_cons.
  intros [Ha Hs]. split; [by apply lower_ascii_brace|by apply IH].
Qed.

Lemma strip_start_pared fence fold_case s :
  brace_free (bytes fence) -> pared (bytes s) (bytes (strip_start fence fold_case s)).
Proof.
  intros Hfence. unfold strip_start. case_bool_decide as Hhead; [|apply pared_refl].
  set (head := String.substring 0 (String.length fence) s) in *.
  set (rest := bytes (string_drop (String.length fence) s)).
  assert (bytes s = (bytes head ++ rest)%list) as Hs.
  { unfold rest, head. by rewrite <-bytes_app, substring_drop. }
  destruct (trim_front_brace_free (length rest) white_space rest white_space_brace_free)
    as (p & Hp & Hpfree).
  set (l := trim_front (length rest) white_space rest) in *.
  assert (bytes s = ((bytes head ++ p) ++ l ++ [])%list) as Hs'.
  { by rewrite app_nil_r, <-app_assoc, <-Hp. }
  exists (bytes head ++ p)%list, []. rewrite (bytes_of_part _ _ _ _ Hs').
  split; [exact Hs'|]. split; [|constructor]. apply brace_free_app. split; [|done].
  destruct fold_case; [apply toLowerCase_brace_free|]; by rewrite Hhead.
Qed.

Lemma strip_end_pared s : pared (bytes s) (bytes (strip_end s)).
Proof.
  unfold strip_end.
  destruct (strip_prefix (reverse (bytes "```")) (reverse (bytes s))) as [l|] eqn:Hfence;
    [|apply pared_refl].
  apply strip_prefix_Some in Hfence.
  destruct (trim_front_brace_free (length l) (reverse <$> white_space) l
              white_space_reversed_brace_free) as (q & Hq & Hqfree).
  set (l' := trim_front _ _ l) in *.
  assert (bytes s = ([] ++ reverse l' ++ (reverse q ++ bytes "```"))%list) as Hs.
  { rewrite <-(reverse_involutive (bytes s)), Hfence, Hq, !reverse_app.
    by rewrite reverse_involutive, <-app_assoc. }
  exists [], (reverse q ++ bytes "```")%list. rewrite (bytes_of_part _ _ _ _ Hs).
  split; [exact Hs|]. split; [constructor|]. apply brace_free_app.
  split; [by apply Forall_reverse|]. unfold brace_free. by repeat constructor.
Qed.

Lemma clean_reply_pared text : pared (bytes text) (bytes (clean_reply text)).
Proof.
  unfold clean_reply.
  assert (brace_free (bytes "```json")) as Hjson by (unfold brace_free; by repeat constructor).
  assert (brace_free (bytes "```")) as Hfence by (unfold brace_free; by repeat constructor).
  eapply pared_trans; [apply trim_pared|].
  eapply pared_trans; [apply (strip_start_pared _ true _ Hjson)|].
  eapply pared_trans; [apply strip_end_pared|].
  eapply pared_trans; [apply (strip_start_pared _ false _ Hfence)|].
  eapply pared_trans; [apply strip_end_pared|].
  apply trim_pared.
Qed.

(** X15.  The text that [generateWithGemini] hands to [JSON.parse] is the
    part of the raw reply from its first [{] to its last [}] (the function
    throws when either is missing): trimming and removing the code fences
    never changes it. *)
Theorem gemini_parses_the_brace_span_of_the_reply (text : string) :
  gemini_json_text text = brace_span text.
Proof.
  unfold gemini_json_text. symmetry. apply brace_span_pared, clean_reply_pared.
Qed.

Lemma substring_all (l : list N) : substring 0 (length l) l = l.
Proof.
  unfold substring. rewrite Nat.min_0_l, Nat.max_0_l, Nat.sub_0_r. apply firstn_all.
Qed.

Lemma brace_span_object (m : string) :
  brace_span ("{" ++ m ++ "}") = Some ("{" ++ m ++ "}").
Proof.
  unfold brace_span.
  assert (bytes ("{" ++ m ++ "}") = 123%N :: (bytes m ++ [125%N])%list) as Hbytes
    by by rewrite !bytes_app.
  assert (reverse (bytes ("{" ++ m ++ "}")) = 125%N :: (reverse (bytes m) ++ [123%N])%list)
    as Hrev by by rewrite Hbytes, reverse_cons, reverse_app.
  assert (length (bytes ("{" ++ m ++ "}")) = S (length (bytes m) + 1)) as Hlen
    by (rewrite Hbytes; simpl; by rewrite length_app).
  unfold lastIndexOf. rewrite Hrev, indexOf_at. rewrite Hbytes at 1. rewrite indexOf_at.
  cbn [fmap option_fmap option_map]. f_equal.
  replace (length (bytes ("{" ++ m ++ "}")) - 1 - 0 + 1)%nat
    with (length (bytes ("{" ++ m ++ "}"))) by lia.
  by rewrite substring_all, of_bytes_bytes.
Qed.

(** X16.  A reply that holds one JSON object, from a [{] to a [}], with
    anything free of braces before and after it (white space, code fences,
    prose), is parsed as exactly that object. *)
Theorem gemini_finds_the_object_in_the_reply (before m after : string) :
  brace_free (bytes before) -> brace_free (bytes after) ->
  gemini_json_text (before ++ ("{" ++ m ++ "}") ++ after) = Some ("{" ++ m ++ "}").
Proof.
  intros Hbefore Hafter. unfold gemini_json_text.
  rewrite <-(brace_span_pared _ _ (clean_reply_pared _)), <-(brace_span_object m).
  apply brace_span_pared. exists (bytes before), (bytes after).
  by rewrite !bytes_app.
Qed.


(** When the last [}] comes before the first [{], [substring] swaps its
    arguments and the text between the two is parsed. *)
Example braces_in_the_wrong_order : gemini_json_text "} {" = Some " ".
Proof. reflexivity. Qed.

Lemma indexOf_None b l : indexOf b l = None -> Forall (fun x => x <> b) l.
Proof.
  induction l as [|x l IH]; simpl; [constructor|].
  destruct (N.eqb_spec x b); [done|]. destruct (indexOf b l); [done|].
  intros _. constructor; [done|by apply IH].
Qed.

Lemma lastIndexOf_None b l : lastIndexOf b l = None -> Forall (fun x => x <> b) l.
Proof.
  unfold lastIndexOf. destruct (indexOf b (reverse l)) eqn:Hi; [done|]. intros _.
  apply indexOf_None, Forall_reverse in Hi. by rewrite reverse_involutive in Hi.
Qed.

Lemma lastIndexOf_absent b l : Forall (fun x => x <> b) l -> lastIndexOf b l = None.
Proof.
  intros Hl. unfold lastIndexOf. by rewrite indexOf_absent by by apply Forall_reverse.
Qed.

Lemma lastIndexOf_drop b l last n :
  lastIndexOf b l = Some last -> (n <= last)%nat ->
  lastIndexOf b (drop n l) = Some (last - n)%nat.
Proof.
  unfold lastIndexOf. intros Hlast Hn.
  rewrite <-(take_drop n l) in Hlast at 1. rewrite reverse_app, indexOf_app in Hlast.
  destruct (indexOf b (reverse (drop n l))) as [j|] eqn:Hj.
  - simpl in *. injection Hlast as <-. f_equal.
    apply indexOf_lt in Hj. rewrite length_reverse, length_drop in *. lia.
  - destruct (indexOf b (reverse (take n l))) as [k|] eqn:Hk; simpl in Hlast; [|done].
    injection Hlast as <-. apply indexOf_lt in Hk.
    rewrite length_reverse, length_take in Hk. rewrite length_reverse, length_drop in Hn.
    lia.
Qed.

(** X17.  The two providers' ways of finding the object agree whenever
    the reply has a [{] before its last [}]: then [generateWithClaude]
    hands to [JSON.parse] the very text that [generateWithGemini] does.
    When [generateWithGemini] throws for want of a brace,
    [generateWithClaude] parses the whole reply. *)
Theorem claude_and_gemini_find_the_same_object (text : string) :
  (forall first last,
     indexOf 123 (bytes text) = Some first ->
     lastIndexOf 125 (bytes text) = Some last ->
     (first < last)%nat ->
     gemini_json_text text = Some (claude_json_text text)) /\
  (gemini_json_text text = None -> claude_json_text text = text).
Proof.
  unfold gemini_json_text. rewrite <-(brace_span_pared _ _ (clean_reply_pared _)).
  unfold brace_span, claude_json_text. split.
  - intros first last Hfirst Hlast Hlt. rewrite Hfirst, Hlast.
    rewrite (lastIndexOf_drop _ _ _ first Hlast) by lia. do 2 f_equal.
    unfold substring. rewrite Nat.min_l, Nat.max_r by lia. f_equal. lia.
  - destruct (indexOf 123 (bytes text)) as [first|]; [|done].
    destruct (lastIndexOf 125 (bytes text)) as [last|] eqn:Hlast; [done|]. intros _.
    by rewrite lastIndexOf_absent by by apply Forall_drop, lastIndexOf_None.
Qed.

(** ** The intent to modify the schema *)

Lemma toLowerCase_app a b : toLowerCase (a ++ b) = toLowerCase a ++ toLowerCase b.
Proof.
  induction a as [|c a IH]; [done|].
  change (toLowerCase (String c (a ++ b)) = String (lower_ascii c) (toLowerCase a ++ toLowerCase b)).
  simpl. by rewrite IH.
Qed.

Lemma toLowerCase_app_inv s x y :
  toLowerCase s = x ++ y ->
  exists s1 s2, s = s1 ++ s2 /\ toLowerCase s1 = x /\ toLowerCase s2 = y.
Proof.
  revert s. induction x as [|c x IH]; intros s Hs.
  - by exists "", s.
  - destruct s as [|a s]; [done|].
    change (String (lower_ascii a) (toLowerCase s) = String c (x ++ y)) in Hs.
    injection Hs as <- Hs. destruct (IH s Hs) as (s1 & s2 & -> & <- & <-).
    by exists (String a s1), s2.
Qed.

Lemma prefix_inv t s : String.prefix t s = true -> exists b, s = t ++ b.
Proof.
  revert s. induction t as [|c t IH]; intros s Hpre; [by exists s|].
  destruct s as [|a s]; [done|]. rewrite prefix_cons in Hpre.
  apply andb_prop in Hpre as [Hc Hpre]. apply bool_decide_eq_true in Hc as <-.
  destruct (IH s Hpre) as (b & ->). by exists b.
Qed.

Lemma includes_inv s t : includes s t = true -> exists a b, s = a ++ t ++ b.
Proof.
  induction s as [|c s IH]; intros Hinc.
  - change (String.prefix t "" || false = true) in Hinc. rewrite orb_false_r in Hinc.
    destruct (prefix_inv _ _ Hinc) as (b & Hb). by exists "", b.
  - change (String.prefix t (String c s) || includes s t = true) in Hinc.
    apply orb_prop in Hinc as [Hpre|Hrest].
    + destruct (prefix_inv _ _ Hpre) as (b & Hb). by exists "", b.
    + destruct (IH Hrest) as (a & b & ->). by exists (String c a), b.
Qed.

(** X18.  [analyzeSchemaModification] consults Gemini exactly when one of
    its thirteen keywords occurs somewhere in the prompt, in any mix of
    upper and lower case; without such an occurrence, or without a key for
    Gemini, it answers [null] by itself.  What Gemini returns counts only
    if its [isSchemaModification] is truthy, and a failure is a [null]. *)
Theorem keyword_anywhere_asks_for_modification (prompt : string) (s : schema) :
  ((exists a k b, prompt = a ++ k ++ b /\ toLowerCase k ∈ modificationKeywords) <->
   hasModificationIntent prompt = true) /\
  (hasModificationIntent prompt = true ->
   exists resume,
     analyzeSchemaModification true prompt s = AskGemini (columns s) prompt resume /\
     resume None = None /\
     forall r, resume (Some r) = if isSchemaModification r then Some r else None) /\
  (hasModificationIntent prompt = false ->
   forall gemini, analyzeSchemaModification gemini prompt s = Analysed None) /\
  analyzeSchemaModification false prompt s = Analysed None.
Proof.
  split; [|split; [|split]].
  - unfold hasModificationIntent. rewrite existsb_exists. split.
    + intros (a & k & b & -> & Hk). exists (toLowerCase k).
      split; [by apply list_elem_of_In|]. rewrite !toLowerCase_app. apply includes_app.
    + intros (keyword & Hin & Hinc). apply list_elem_of_In in Hin.
      destruct (includes_inv _ _ Hinc) as (x & y & Hs).
      destruct (toLowerCase_app_inv _ _ _ Hs) as (a & rest & -> & _ & Hrest).
      destruct (toLowerCase_app_inv _ _ _ Hrest) as (k & b & -> & Hk & _).
      exists a, k, b. split; [done|]. by rewrite Hk.
  - intros Hintent. unfold analyzeSchemaModification. rewrite Hintent. simpl.
    eexists. split; [reflexivity|]. by split.
  - intros Hintent gemini. unfold analyzeSchemaModification. by rewrite Hintent.
  - unfold analyzeSchemaModification. by destruct (hasModificationIntent prompt).
Qed.

(** A text that holds the word Address holds the keyword add. *)
Example address_is_taken_for_a_modification :
  hasModificationIntent "Address: Seoul" = true.
Proof. reflexivity. Qed.

(** * The routes *)

Section route_facts.
Context `{!Engine}.

(** X19.  What is missing is answered differently by the data routes.
    For an entity that does not exist, the routes that list the rows and
    that look up, insert, update and delete one row answer 500 with `Menu
    not found', while the bulk route answers 200 with every row among the
    failed (and 400 when [rows] is no array).  For an id that no row of an
    existing entity has, the lookup answers 404 while the update and the
    delete answer 500 with `Row not found'.  None of these requests
    changes the store. *)
Theorem data_routes_answer_for_what_is_missing (menuId id : string) (st : store) :
  (data st !! menuId = None ->
     (forall filters, GET_data menuId filters st = Failure 500 (Thrown (MenuNotFound menuId))) /\
     GET_data_id menuId id st = Failure 500 (Thrown (MenuNotFound menuId)) /\
     (forall rowData a,
        POST_data menuId rowData a st = (st, Failure 500 (Thrown (MenuNotFound menuId)))) /\
     (forall updates now,
        PUT_data_id menuId id updates now st
        = (st, Failure 500 (Thrown (MenuNotFound menuId)))) /\
     DELETE_data_id menuId id st = (st, Failure 500 (Thrown (MenuNotFound menuId))) /\
     (forall rowsData,
        POST_data_bulk menuId (Some rowsData) st
        = (st, Success 200
                 {| success := [];
                    failed := (fun ra : row * ambient =>
                                 {| failed_data := ra.1;
                                    failed_error := MenuNotFound menuId |})
                              <$> rowsData |}))) /\
  POST_data_bulk menuId None st = (st, Failure 400 (Message "rows must be an array")) /\
  (forall rows, data st !! menuId = Some rows ->
     Forall (fun r : row => r !! "id" <> Some (VStr id)) rows ->
     GET_data_id menuId id st = Failure 404 (Message "Data not found") /\
     (forall updates now,
        PUT_data_id menuId id updates now st
        = (st, Failure 500 (Thrown (RowNotFound (VStr id))))) /\
     DELETE_data_id menuId id st = (st, Failure 500 (Thrown (RowNotFound (VStr id))))).
Proof.
  split; [|split; [done|]].
  - intros Hnone. repeat split.
    + intros filters. unfold GET_data, query. by rewrite Hnone.
    + unfold GET_data_id. by rewrite (findById_unknown _ _ _ Hnone).
    + intros rowData a. unfold POST_data, insert. by rewrite Hnone.
    + intros updates now. unfold PUT_data_id, update. by rewrite Hnone.
    + unfold DELETE_data_id, delete_. by rewrite Hnone.
    + intros rowsData. unfold POST_data_bulk, bulkInsert.
      by rewrite (bulkInsert_loop_unknown _ _ _ _ Hnone).
  - intros rows Hrows Hall. repeat split.
    + unfold GET_data_id. by rewrite (findById_rows _ _ _ _ Hrows), (find_id_none _ _ Hall).
    + intros updates now. unfold PUT_data_id, update.
      by rewrite Hrows, (proj2 (findIndex_None _ _) Hall).
    + unfold DELETE_data_id. by rewrite (delete_missing _ _ _ _ Hrows Hall).
Qed.

(** X20.  The routes that take the id of a row reach only rows whose id is
    a string, the one of the request: the row that a lookup returns, the
    row that an update replaces and the row that a delete removes all have
    that id.  A row stored with another kind of id (a number, null, none)
    is out of their reach. *)
Theorem id_routes_reach_rows_with_that_text_id (menuId id : string) (st : store) :
  (forall r, GET_data_id menuId id st = Success 200 r ->
     r !! "id" = Some (VStr id) /\
     exists rows, data st !! menuId = Some rows /\ r ∈ rows) /\
  (forall updates now st' r,
     PUT_data_id menuId id updates now st = (st', Success 200 r) ->
     exists before old after,
       data st !! menuId = Some (before ++ old :: after)%list /\
       old !! "id" = Some (VStr id) /\
       data st' !! menuId = Some (before ++ r :: after)%list) /\
  (forall st' message,
     DELETE_data_id menuId id st = (st', Success 200 message) ->
     exists before old after,
       data st !! menuId = Some (before ++ old :: after)%list /\
       old !! "id" = Some (VStr id) /\
       data st' !! menuId = Some (before ++ after)%list).
Proof.
  split; [|split].
  - intros r. unfold GET_data_id.
    destruct (data st !! menuId) as [rows|] eqn:Hrows.
    + rewrite (findById_rows _ _ _ _ Hrows).
      destruct (List.find _ rows) as [x|] eqn:Hfind; [|done]. intros [= <-].
      apply find_some in Hfind as [Hin Hid]. apply bool_decide_eq_true in Hid.
      split; [done|]. exists rows. split; [done|]. by apply list_elem_of_In.
    + by rewrite (findById_unknown _ _ _ Hrows).
  - intros updates now st' r. unfold PUT_data_id.
    destruct (update menuId (VStr id) updates now st) as [st1 [r1|e]] eqn:Hupd; [|done].
    intros [= <- <-].
    destruct (update_Ok _ _ _ _ _ _ _ Hupd)
      as (rows & index & old & s & cols & Hrows & Hidx & Hold & Hs & Hv & ->).
    destruct (findIndex_split _ _ _ Hidx) as (before & x & after & -> & Hlen & Hx & Hbefore).
    subst index. rewrite list_lookup_middle in Hold by done. injection Hold as <-.
    exists before, x, after. split; [done|]. split; [done|].
    rewrite data_set_rows, insert_at. by destruct (decide (menuId = menuId)).
  - intros st' message. unfold DELETE_data_id.
    destruct (delete_ menuId (VStr id) st) as [st1 [b|e]] eqn:Hdel; [|done].
    intros [= <- _].
    destruct (delete_Ok _ _ _ _ _ Hdel) as (before & x & after & Hrows & Hx & Hbefore & ->).
    exists before, x, after. split; [done|]. split; [done|].
    rewrite data_set_rows. by destruct (decide (menuId = menuId)).
Qed.

End route_facts.

Lemma route_bound {A} (segment : string) (handler : string -> A) :
  route segment handler = if bool_decide (segment = "") then None
                          else Some (handler segment).
Proof. done. Qed.

(** X21.  A menu posted with a name (a text that is not empty) is always
    created: the response is 201 with the menu and the schema exactly as
    posted.  If the id of the menu is not empty, the menu, the schema and
    an empty list of rows are then served under it, and once the menu is
    deleted the same requests answer 404, 404 and 500; if it is empty, no
    request reaches these handlers with it.  A draft without a name is
    refused with 400 and changes nothing. *)
Theorem posted_menu_can_be_read_back (menuData : schema) (now1 now2 : string)
    (st : store) :
  (menuName menuData = "" ->
     POST_menus menuData now1 now2 st
     = Some (st, Failure 400 (Message "menuName is required"))) /\
  (menuName menuData <> "" ->
     exists st' m,
       POST_menus menuData now1 now2 st = Some (st', Success 201 (m, Some menuData)) /\
       route (id m) (fun menuId => GET_menus_id menuId st')
       = (if bool_decide (id m = "") then None
          else Some (Success 200 (m, Some menuData))) /\
       route (id m) (fun menuId => GET_menus_id_schema menuId st')
       = (if bool_decide (id m = "") then None else Some (Success 200 menuData)) /\
       route (id m) (fun menuId => GET_data menuId ∅ st')
       = (if bool_decide (id m = "") then None else Some (Success 200 ([], 0%nat))) /\
       route (id m) (fun menuId => GET_menus_id menuId (DELETE_menus_id (id m) st').1)
       = (if bool_decide (id m = "") then None
          else Some (Failure 404 (Message "Menu not found"))) /\
       route (id m)
         (fun menuId => GET_menus_id_schema menuId (DELETE_menus_id (id m) st').1)
       = (if bool_decide (id m = "") then None
          else Some (Failure 404 (Message "Schema not found"))) /\
       route (id m) (fun menuId => GET_data menuId ∅ (DELETE_menus_id (id m) st').1)
       = (if bool_decide (id m = "") then None
          else Some (Failure 500 (Thrown (MenuNotFound (id m)))))).
Proof.
  split.
  - intros Hname. unfold POST_menus. by rewrite bool_decide_eq_true_2.
  - intros Hname. unfold POST_menus. rewrite bool_decide_eq_false_2 by done.
    assert (exists st' m, createMenu menuData now1 now2 st = Some (st', m)) as (st' & m & Hc).
    { unfold createMenu. destruct (truthy_menuId menuData) as [x|]; [by eexists _, _|].
      destruct (generateMenuId_finds st (menuName menuData)) as (i & -> & _).
      simpl. by eexists _, _. }
    pose proof (createMenu_register _ _ _ _ _ _ Hc) as Hreg.
    destruct (register_spec _ _ _ _ _ _ _ Hreg) as (_ & Hm & Hs & Hd & _).
    exists st', m. rewrite Hc. simpl. unfold getSchema at 1. rewrite Hs.
    split; [done|]. rewrite !route_bound. case_bool_decide as Hid; [done|].
    split; [unfold GET_menus_id, getMenu, getSchema; by rewrite Hm, Hs|].
    split; [unfold GET_menus_id_schema, getSchema; by rewrite Hs|].
    split.
    { unfold GET_data. rewrite fmap_empty. unfold query. rewrite Hd, map_size_empty.
      by rewrite bool_decide_eq_false_2 by lia. }
    unfold DELETE_menus_id, GET_menus_id, GET_menus_id_schema, GET_data, getMenu,
      getSchema, query. simpl.
    by rewrite !lookup_delete_eq.
Qed.

(** A name without a letter, a digit, an underscore or a Hangul syllable
    gives the empty id. *)
Example menu_without_an_id :
  (fun created => id created.2) <$>
    createMenu {| menuId := None; menuName := "!!!"; tableName := "t";
                  description := ""; columns := [] |}
      "2024-05-01T09:00:00.000Z" "2024-05-01T09:00:00.000Z" empty_store
  = Some "".
Proof. evaluate. Qed.

(** ** The schema routes *)

Lemma filter_other_names (n : string) (cols : list column) :
  has_column n cols = false ->
  List.filter (fun col => negb (bool_decide (name col = n))) cols = cols.
Proof.
  intros Hnone. apply filter_all. intros c Hc.
  destruct (bool_decide (name c = n)) eqn:Hn; [|done].
  apply bool_decide_eq_true in Hn.
  assert (has_column n cols = true) as Hhas by (apply has_column_elem; by exists c).
  congruence.
Qed.

Lemma with_columns_same (s : schema) : with_columns s (columns s) = s.
Proof. by destruct s. Qed.

(** X22.  Deleting a column by the name of a column that was just added
    gives back the columns of before, if no column had that name and the
    name is not empty (a request can then carry it); the rows are not
    touched by either request. *)
Theorem delete_column_undoes_add_column (menuId : string) (c : column) (s : schema)
    (st : store) :
  schemas st !! menuId = Some s ->
  has_column (name c) (columns s) = false ->
  name c <> "" ->
  exists st1 st2,
    POST_schema_add_column menuId c st
    = (st1, Success 200 (with_columns s (columns s ++ [c]))) /\
    route (name c) (fun columnName => DELETE_schema_column menuId columnName st1)
    = Some (st2, Success 200 s) /\
    schemas st2 = schemas st /\ data st2 = data st /\ data st1 = data st /\
    menus st2 = menus st /\ menuId ∈ dirty st2.
Proof.
  intros Hs Hfresh Hname.
  unfold POST_schema_add_column, getSchema.
  rewrite Hs. eexists _, _. split; [reflexivity|].
  unfold route. rewrite (bool_decide_eq_false_2 _ Hname).
  unfold DELETE_schema_column, getSchema. simpl. rewrite lookup_insert_eq.
  simpl. rewrite List.filter_app. simpl. rewrite bool_decide_eq_true_2 by done. simpl.
  rewrite app_nil_r, (filter_other_names _ _ Hfresh).
  assert (with_columns (with_columns s (columns s ++ [c])) (columns s) = s) as Hback
    by by destruct s.
  rewrite Hback. split; [reflexivity|]. unfold with_schema_columns. simpl.
  rewrite insert_insert_eq, Hback, fin_maps.insert_id by done. repeat split. set_solver.
Qed.

(** A column without a name is added like any other, and no request can
    ask for its deletion. *)
Example nameless_column_cannot_be_deleted :
  columns <$> getSchema "contacts"
                (POST_schema_add_column "contacts" (bare_column "") contacts_store).1
  = Some (columns contacts_schema ++ [bare_column ""])%list /\
  route (name (bare_column ""))
    (fun columnName =>
       DELETE_schema_column "contacts" columnName
         (POST_schema_add_column "contacts" (bare_column "") contacts_store).1)
  = None.
Proof. split; evaluate. Qed.

Section schema_and_rows.
Context `{!Engine}.

(** X23.  Adding a required column does not touch the stored rows; a row
    gets the new field, as null, when it is next updated, if neither the
    row nor the update gives the field, and if the field is not named like
    a property of [Object.prototype]. *)
Theorem added_required_column_is_filled_on_update (menuId : string) (c : column)
    (s : schema) (st : store) (rows : list row) (rowId : value) (index : nat)
    (old updates : row) (now : string) :
  schemas st !! menuId = Some s ->
  data st !! menuId = Some rows ->
  required c = true -> generated c = false ->
  name c <> "id" -> name c <> "createdAt" -> name c <> "updatedAt" ->
  name c ∉ Object_prototype ->
  patterns_compile (columns s ++ [c]) ->
  findIndex rowId rows = Some index -> rows !! index = Some old ->
  (updates ∪ old) !! name c = None ->
  exists st1 st2 r,
    POST_schema_add_column menuId c st
    = (st1, Success 200 (with_columns s (columns s ++ [c]))) /\
    data st1 = data st /\
    update menuId rowId updates now st1 = (st2, Ok r) /\
    r !! name c = Some VNull /\
    data st2 !! menuId = Some (<[index := r]> rows).
Proof.
  intros Hs Hrows Hreq Hgen Hid Hcreated Hupdated Hplain Hcompile Hidx Hold Hnone.
  unfold POST_schema_add_column, getSchema. rewrite Hs.
  set (st1 := with_schema_columns menuId s (columns s ++ [c]) st).
  assert (schemas st1 !! menuId = Some (with_columns s (columns s ++ [c]))) as Hs1
    by apply lookup_insert_eq.
  assert (data st1 !! menuId = Some rows) as Hrows1 by exact Hrows.
  destruct (validateRow_ok (columns s ++ [c]) (updated_row old updates now) Hcompile)
    as (cols' & r & Hv).
  pose proof (update_unfold st1 menuId rows _ rowId index old updates now
                Hrows1 Hs1 Hidx Hold) as Hupd.
  simpl in Hupd. rewrite Hv in Hupd.
  eexists st1, _, r. split; [reflexivity|]. split; [reflexivity|].
  split; [exact Hupd|]. split.
  - rewrite (validateRow_lookup _ _ _ _ (name c) Hv) by by apply plain_reads_own.
    rewrite updated_row_other, Hnone by done.
    apply normalise_missing_required; [|done..].
    apply elem_of_app. right. by left.
  - rewrite data_set_rows. by destruct (decide (menuId = menuId)).
Qed.

End schema_and_rows.

(** A required column named [constructor] is not filled in by the next
    update. *)
Example added_inherited_name_is_not_filled :
  (update "contacts" (VStr "u-1") ∅ "2024-05-03T08:00:00.000Z"
     (POST_schema_add_column "contacts" builder_column contacts_with_kim).1).2
  = Ok {[ "id" := VStr "u-1"; "name" := VStr "Kim"; "email" := VStr "kim@example.com";
          "createdAt" := VStr "2024-05-02T10:00:00.000Z";
          "updatedAt" := VStr "2024-05-03T08:00:00.000Z" ]}.
Proof. evaluate. Qed.

(** ** The rows made from a sheet *)

Lemma assign_other (k : string) (v : option value)
    (transformed transformed' : gmap string (option value) * prototype) (t : string) :
  assign k v transformed = Ok transformed' ->
  k <> t -> transformed'.1 !! t = transformed.1 !! t.
Proof.
  unfold assign. intros H Hne.
  repeat case_match; simplify_eq; simpl; by rewrite ?lookup_insert_ne.
Qed.

Lemma assign_field (t : string) (v : option value)
    (transformed transformed' : gmap string (option value) * prototype) :
  assign t v transformed = Ok transformed' ->
  t <> "__proto__" -> transformed'.1 !! t = Some v.
Proof.
  unfold assign. intros H Hne. rewrite (bool_decide_eq_false_2 _ Hne) in H.
  repeat case_match; simplify_eq; simpl; by rewrite ?lookup_insert_eq.
Qed.

Lemma assign_plain (k : string) (v : option value)
    (transformed : gmap string (option value)) :
  k <> "__proto__" -> assign k v (transformed, Plain) = Ok (<[k := v]> transformed, Plain).
Proof.
  intros Hne. unfold assign. simpl. rewrite (bool_decide_eq_false_2 _ Hne).
  by destruct (transformed !! k).
Qed.

Lemma assign_matches_lookup (ms : list match_) (sheet_row : row) (t : string)
    (transformed transformed' : gmap string (option value) * prototype) :
  assign_matches ms sheet_row transformed = Ok transformed' ->
  t <> "__proto__" ->
  transformed'.1 !! t =
  match last (List.filter (fun m => bool_decide (target m = t) &&
                                    Qle_bool (7 # 10)%Q (confidence m)) ms) with
  | Some m => Some (get (source m) (literal sheet_row))
  | None => transformed.1 !! t
  end.
Proof.
  intros H Hne. revert transformed H.
  induction ms as [|m ms IH]; intros transformed H; [by injection H as <-|].
  cbn [assign_matches List.filter] in *.
  destruct (Qle_bool (7 # 10)%Q (confidence m)) eqn:Hc;
    [|rewrite andb_false_r; by apply IH].
  destruct (assign _ _ transformed) as [o|] eqn:Ho; [|done].
  rewrite (IH _ H), andb_true_r. case_bool_decide as Ht.
  - rewrite last_cons. destruct (last _); [done|]. subst t. by rewrite (assign_field _ _ _ _ Ho).
  - destruct (last _); [done|]. by rewrite (assign_other _ _ _ _ _ Ho).
Qed.

Lemma assign_matches_plain (ms : list match_) (sheet_row : row)
    (transformed : gmap string (option value)) :
  Forall (fun m => Qle_bool (7 # 10)%Q (confidence m) = true -> target m <> "__proto__") ms ->
  exists transformed',
    assign_matches ms sheet_row (transformed, Plain) = Ok (transformed', Plain).
Proof.
  intros H. revert transformed.
  induction H as [|m ms Hm _ IH]; intros transformed; [by eexists|].
  cbn [assign_matches]. destruct (Qle_bool _ _); [|apply IH].
  rewrite assign_plain by auto. apply IH.
Qed.

Lemma rule_confidence_passes (sourceLower : string) (t : column) :
  Qle_bool (7 # 10)%Q (rule_confidence sourceLower t) = true.
Proof. unfold rule_confidence. by repeat case_match. Qed.

Lemma get_literal (r : row) (k : string) :
  get k (literal r) =
    match r !! k with
    | Some v => Some v
    | None => if bool_decide (k ∈ Object_prototype) then Some (VProto k) else None
    end.
Proof. done. Qed.

(** X24.  Where making a row from a row of a sheet ends, a field of it
    other than [__proto__] holds what the row of the sheet reads as under
    the source of the last match, in the order of the matches, that names
    the field as its target with a confidence of 0.7 or more: a later
    match silently overwrites an earlier one for the same field, and a
    field without such a match is absent.  It ends when no match of such
    a confidence has the target [__proto__].  The row of the sheet reads
    as the cell it has under the source, as the inherited property where
    it has none and the source is named like a property of
    [Object.prototype], and as undefined otherwise.  Every match that the
    rule pass makes has such a confidence. *)
Theorem later_match_overwrites_the_field (columnMatches : list match_)
    (sheet_row : row) :
  (forall transformed,
     transform columnMatches sheet_row = Ok transformed ->
     forall t, t <> "__proto__" ->
       transformed !! t =
         (fun m => get (source m) (literal sheet_row)) <$>
           last (List.filter (fun m => bool_decide (target m = t) &&
                                       Qle_bool (7 # 10)%Q (confidence m)) columnMatches)) /\
  (Forall (fun m => Qle_bool (7 # 10)%Q (confidence m) = true -> target m <> "__proto__")
          columnMatches ->
   exists transformed, transform columnMatches sheet_row = Ok transformed) /\
  (forall k, get k (literal sheet_row) =
     match sheet_row !! k with
     | Some v => Some v
     | None => if bool_decide (k ∈ Object_prototype) then Some (VProto k) else None
     end) /\
  (forall sources targets ms,
     ruleBasedMatching sources targets = Ok ms ->
     Forall (fun m => Qle_bool (7 # 10)%Q (confidence m) = true) ms).
Proof.
  split; [|split; [|split]].
  - intros transformed H t Ht. unfold transform in H.
    destruct (assign_matches _ _ _) as [o|] eqn:Ho; [|done]. injection H as <-.
    rewrite (assign_matches_lookup _ _ t _ _ Ho Ht). by destruct (last _).
  - intros H. unfold transform.
    destruct (assign_matches_plain _ sheet_row ∅ H) as [o ->]. by eexists.
  - intros k. apply get_literal.
  - intros sources targets ms Hms.
    rewrite (ruleBasedMatching_first_related _ _ _ Hms). apply Forall_forall.
    intros m Hm. apply list_elem_of_omap in Hm as (src & _ & Hm).
    unfold first_related in Hm. destruct (List.find _ targets) as [x|]; [|done].
    injection Hm as <-. apply rule_confidence_passes.
Qed.

(** A match whose target is [__proto__] makes no field. *)
Example match_to_proto_makes_no_field :
  transform [{| source := "Name"; target := "__proto__"; confidence := 1%Q |}]
    {[ "Name" := VStr "Kim" ]}
  = Ok ∅.
Proof. evaluate. Qed.

(** After a match has made a function the prototype, a field named like
    one of its fixed properties cannot be set. *)
Example match_to_proto_can_end_in_a_TypeError :
  transform [{| source := "constructor"; target := "__proto__"; confidence := 1%Q |};
             {| source := "Name"; target := "name"; confidence := 1%Q |}]
    {[ "Name" := VStr "Kim" ]}
  = Err TypeError.
Proof. evaluate. Qed.

(** ** The rule pass, label by label *)

(** X25.  The rule pass matches each source label by itself: the matches
    for two lists of labels put together are the matches for the first
    followed by the matches for the second, and the first error, if there
    is one.  Nothing keeps two labels from being matched to one target. *)
Theorem rule_pass_matches_each_label_by_itself (sources1 sources2 : list string)
    (targets : list column) :
  ruleBasedMatching (sources1 ++ sources2) targets =
    match ruleBasedMatching sources1 targets with
    | Err e => Err e
    | Ok ms1 =>
        match ruleBasedMatching sources2 targets with
        | Err e => Err e
        | Ok ms2 => Ok (ms1 ++ ms2)%list
        end
    end.
Proof.
  induction sources1 as [|src sources1 IH].
  - simpl. by destruct (ruleBasedMatching sources2 targets).
  - cbn [app ruleBasedMatching]. destruct (match_source src targets) as [found|e]; [|done].
    rewrite IH. destruct (ruleBasedMatching sources1 targets) as [ms1|e]; [|done].
    destruct (ruleBasedMatching sources2 targets) as [ms2|e]; [|done].
    by rewrite app_assoc.
Qed.

(** Two labels for one field are both matched to it. *)
Example two_labels_match_one_target :
  ruleBasedMatching ["이름"; "성명"] [plain_column "name" "Name" TString true]
  = Ok [{| source := "이름"; target := "name"; confidence := (9 # 10)%Q |};
        {| source := "성명"; target := "name"; confidence := (9 # 10)%Q |}].
Proof. evaluate. Qed.

(** * The client *)

Lemma normalise_is_Some `{!Engine} cols k v : is_Some v -> is_Some (normalise cols k v).
Proof. intros Hv. unfold normalise. by destruct (existsb _ cols). Qed.

Lemma updated_row_keeps_fields old updates now k :
  is_Some (old !! k) -> is_Some (updated_row old updates now !! k).
Proof.
  intros Hk. destruct (decide (k = "updatedAt")) as [->|].
  { by rewrite updated_row_updatedAt. }
  destruct (decide (k = "createdAt")) as [->|]; [by rewrite updated_row_createdAt|].
  destruct (decide (k = "id")) as [->|]; [by rewrite updated_row_id|].
  rewrite updated_row_other by done. apply lookup_union_is_Some. by right.
Qed.

Lemma union_covering (r old : row) :
  (forall k, is_Some (old !! k) -> is_Some (r !! k)) -> r ∪ old = r.
Proof.
  intros Hcover. apply map_eq. intros k. rewrite lookup_union.
  destruct (r !! k) as [x|] eqn:Hr; [by destruct (old !! k)|].
  destruct (old !! k) as [y|] eqn:Hold; [|done].
  destruct (Hcover k) as [z Hz]; [by rewrite Hold|congruence].
Qed.

Lemma map_other_ids (rowId : value) (r : row) (rows : list row) :
  Forall (fun x : row => x !! "id" <> Some rowId) rows ->
  (fun x : row => if bool_decide (x !! "id" = Some rowId) then r ∪ x else x) <$> rows
  = rows.
Proof.
  induction 1 as [|x rows Hx _ IH]; csimpl; [done|].
  by rewrite bool_decide_eq_false_2, IH.
Qed.

Lemma filter_other_ids (rowId : value) (rows : list row) :
  Forall (fun x : row => x !! "id" <> Some rowId) rows ->
  List.filter (fun x : row => negb (bool_decide (x !! "id" = Some rowId))) rows = rows.
Proof.
  intros Hall. apply filter_all. intros x Hx. rewrite Forall_forall in Hall.
  by rewrite bool_decide_eq_false_2 by by apply Hall.
Qed.

Lemma only_row_with_id (before after : list row) (r : row) (rowId : value) :
  NoDup ((fun x : row => x !! "id") <$> (before ++ r :: after)%list) ->
  r !! "id" = Some rowId ->
  Forall (fun x : row => x !! "id" <> Some rowId) after.
Proof.
  rewrite fmap_app, fmap_cons. intros Hnodup Hr.
  apply NoDup_app in Hnodup as (_ & _ & Hnodup). apply NoDup_cons in Hnodup as [Hnot _].
  rewrite Hr in Hnot. by apply not_stored_id.
Qed.

Section client_facts.
Context `{!Engine}.

(** X26.  The rows held by the client follow the rows of the server: if
    they are the stored rows of the entity and the stored ids are
    distinct, then after a row is added, or edited or deleted by an id
    that is a string (and that the path of the request carries as it
    is), through the routes, and the client store is told as the
    application tells it ([addData], [updateData] with the row of the
    response, [deleteData]), they are again the stored rows. *)
Theorem client_rows_follow_the_server (menuId : string) (st : store)
    (rows : list row) (state : app_state) :
  data st !! menuId = Some rows ->
  NoDup (row_ids menuId st) ->
  currentData state = rows ->
  (forall rowData a st' r,
     POST_data menuId rowData a st = (st', Success 201 r) ->
     data st' !! menuId = Some (currentData (addData r state))) /\
  (forall id updates now st' r,
     PUT_data_id menuId id updates now st = (st', Success 200 r) ->
     data st' !! menuId = Some (currentData (updateData (VStr id) r state))) /\
  (forall id st' message,
     DELETE_data_id menuId id st = (st', Success 200 message) ->
     data st' !! menuId = Some (currentData (deleteData (VStr id) state))).
Proof.
  intros Hrows Hnodup Hstate. rewrite (row_ids_rows _ _ _ Hrows) in Hnodup.
  split; [|split].
  - intros rowData a st' r. unfold POST_data.
    destruct (insert menuId rowData a st) as [st1 [r1|e]] eqn:Hins; [|done].
    intros [= <- <-].
    destruct (insert_Ok _ _ _ _ _ _ Hins) as (rows0 & s & cols & Hrows0 & _ & _ & ->).
    rewrite data_set_rows. destruct (decide (menuId = menuId)); [|done].
    simpl. rewrite Hstate. congruence.
  - intros id updates now st' r. unfold PUT_data_id.
    destruct (update menuId (VStr id) updates now st) as [st1 [r1|e]] eqn:Hupd; [|done].
    intros [= <- <-].
    destruct (update_Ok _ _ _ _ _ _ _ Hupd)
      as (rows0 & index & old & s & cols & Hrows0 & Hidx & Hold & Hs & Hv & ->).
    assert (rows0 = rows) as -> by congruence.
    destruct (findIndex_split _ _ _ Hidx) as (before & x & after & -> & Hlen & Hx & Hbefore).
    subst index. rewrite list_lookup_middle in Hold by done. injection Hold as <-.
    pose proof (only_row_with_id _ _ _ _ Hnodup Hx) as Hafter.
    rewrite data_set_rows, insert_at. destruct (decide (menuId = menuId)); [|done].
    simpl. rewrite Hstate, fmap_app, fmap_cons.
    rewrite (map_other_ids _ _ _ Hbefore), (map_other_ids _ _ _ Hafter).
    rewrite (bool_decide_eq_true_2 _ Hx). do 3 f_equal. symmetry.
    apply union_covering. intros k Hk.
    rewrite (validateRow_lookup _ _ _ _ k Hv)
      by by apply owned_reads_own, updated_row_keeps_fields.
    by apply normalise_is_Some, updated_row_keeps_fields.
  - intros id st' message. unfold DELETE_data_id.
    destruct (delete_ menuId (VStr id) st) as [st1 [b|e]] eqn:Hdel; [|done].
    intros [= <- _].
    destruct (delete_Ok _ _ _ _ _ Hdel) as (before & x & after & Hrows0 & Hx & Hbefore & ->).
    assert (rows = (before ++ x :: after)%list) as -> by congruence.
    pose proof (only_row_with_id _ _ _ _ Hnodup Hx) as Hafter.
    rewrite data_set_rows. destruct (decide (menuId = menuId)); [|done].
    simpl. rewrite Hstate, List.filter_app. simpl.
    rewrite (bool_decide_eq_true_2 _ Hx). simpl.
    by rewrite (filter_other_ids _ _ Hbefore), (filter_other_ids _ _ Hafter).
Qed.

Lemma initialData_from (cols : list column) (initial : row) (k : string) :
  k <> "__proto__" ->
  foldl (fun initial col =>
           if bool_decide (name col = "__proto__") then initial
           else <[name col := VStr ""]> initial) initial cols !! k =
    if existsb (fun col => bool_decide (name col = k)) cols then Some (VStr "")
    else initial !! k.
Proof.
  intros Hk. revert initial. induction cols as [|c cols IH]; intros initial; [done|].
  cbn [foldl existsb]. rewrite IH. destruct (existsb _ cols); [by rewrite orb_true_r|].
  rewrite orb_false_r. case_bool_decide as Hproto.
  - rewrite bool_decide_eq_false_2; [done|]. congruence.
  - case_bool_decide as Hc.
    + subst k. by rewrite lookup_insert_eq.
    + by rewrite lookup_insert_ne.
Qed.

Lemma initialData_editable (s : schema) (c : column) :
  c ∈ columns s -> readOnly c = false -> generated c = false ->
  name c <> "__proto__" ->
  initialData s !! name c = Some (VStr "").
Proof.
  intros Hc Hro Hgen Hproto. unfold initialData. rewrite initialData_from by done.
  assert (existsb (fun col => bool_decide (name col = name c)) (editableColumns s) = true)
    as ->; [|done].
  apply existsb_exists. exists c. split; [|by apply bool_decide_eq_true_2].
  unfold editableColumns. apply filter_In. split; [by apply list_elem_of_In|].
  by rewrite Hro, Hgen.
Qed.

(** X27.  The form for a new row of the grid, saved as it opens, is
    stored as a row in which every editable column of the schema is null,
    but for a column named [__proto__] (the form holds the empty string
    for each of the others, and validation turns the empty string into
    null); the insert succeeds whenever the patterns of the schema
    compile. *)
Theorem blank_form_is_stored_as_nulls (menuId : string) (s : schema) (a : ambient)
    (st : store) (rows : list row) :
  schemas st !! menuId = Some s ->
  data st !! menuId = Some rows ->
  patterns_compile (columns s) ->
  exists st' r,
    POST_data menuId (initialData s) a st = (st', Success 201 r) /\
    data st' !! menuId = Some (rows ++ [r])%list /\
    forall c, c ∈ columns s -> readOnly c = false -> generated c = false ->
      name c <> "createdAt" -> name c <> "updatedAt" -> name c <> "__proto__" ->
      r !! name c = Some VNull.
Proof.
  intros Hs Hrows Hcompile.
  destruct (validateRow_ok (columns s) (new_row (initialData s) a) Hcompile)
    as (cols' & r & Hv).
  pose proof (insert_unfold st menuId rows s (initialData s) a Hrows Hs) as Hins.
  rewrite Hv in Hins. unfold POST_data. rewrite Hins.
  eexists _, r. split; [reflexivity|]. split.
  { rewrite data_set_rows. by destruct (decide (menuId = menuId)). }
  intros c Hc Hro Hgen Hcreated Hupdated Hproto.
  assert (new_row (initialData s) a !! name c = Some (VStr "")) as Hraw.
  { destruct (decide (name c = "id")) as [Hid|Hid].
    - rewrite Hid, new_row_id. rewrite <-Hid.
      by rewrite (initialData_editable _ _ Hc Hro Hgen Hproto).
    - rewrite new_row_other by done. by apply initialData_editable. }
  rewrite (validateRow_lookup _ _ _ _ (name c) Hv), Hraw
    by by apply owned_reads_own; rewrite Hraw.
  by apply normalise_empty_string.
Qed.

(** The form of a schema with a column named [__proto__] holds nothing
    for it. *)
Example blank_form_without_proto :
  initialData {| menuId := None; menuName := "m"; tableName := "t"; description := "";
                 columns := [plain_column "__proto__" "P" TString false;
                             plain_column "name" "Name" TString false] |}
  = {[ "name" := VStr "" ]}.
Proof. evaluate. Qed.

(** X28.  Saving a row of the grid that was opened for editing and not
    changed sends the row itself as the update; every field of the stored
    row that the columns read as the row has it then stays as it was,
    except [updatedAt], for an entity whose rows came out of
    validation. *)
Theorem saving_an_unchanged_row_only_stamps_it (menuId : string) (st : store)
    (rows : list row) (rowId : value) (index : nat) (old : row) (now : string)
    (s : schema) :
  normal_rows menuId st ->
  data st !! menuId = Some rows ->
  schemas st !! menuId = Some s ->
  patterns_compile (columns s) ->
  findIndex rowId rows = Some index ->
  rows !! index = Some old ->
  exists st' r,
    update menuId rowId old now st = (st', Ok r) /\
    (forall k, k <> "updatedAt" -> reads_own (columns s) old k -> r !! k = old !! k) /\
    r !! "updatedAt" = normalise (columns s) "updatedAt" (Some (VStr now)).
Proof.
  intros Hnormal Hrows Hs Hcompile Hidx Hold.
  destruct (validateRow_ok (columns s) (updated_row old old now) Hcompile)
    as (cols' & r & Hv).
  pose proof (update_unfold st menuId rows s rowId index old old now
                Hrows Hs Hidx Hold) as Hupd.
  rewrite Hv in Hupd. eexists _, r. split; [exact Hupd|].
  assert (normal_row (columns s) old) as Hnold.
  { specialize (Hnormal s rows Hs Hrows). rewrite Forall_forall in Hnormal.
    apply Hnormal. by eapply list_elem_of_lookup_2. }
  assert (forall k, k <> "updatedAt" -> updated_row old old now !! k = old !! k) as Hsame.
  { intros k Hk.
    destruct (decide (k = "createdAt")) as [->|]; [by rewrite updated_row_createdAt|].
    destruct (decide (k = "id")) as [->|]; [by rewrite updated_row_id|].
    rewrite updated_row_other, lookup_union by done. by destruct (old !! k). }
  split.
  - intros k Hk Hread. rewrite (validateRow_lookup _ _ _ _ k Hv), <-(Hnold k).
    + f_equal. by apply Hsame.
    + intros Hnone. apply Hread. by rewrite <-Hsame.
  - rewrite (validateRow_lookup _ _ _ _ "updatedAt" Hv), updated_row_updatedAt
      by apply plain_reads_own, updatedAt_plain. done.
Qed.

End client_facts.

(** A number column named like a property of [Object.prototype], added
    after the row was stored, makes of the field a null. *)
Example unchanged_row_gets_inherited_field :
  (update "contacts" (VStr "u-1") stored_kim "2024-05-03T08:00:00.000Z"
     (POST_schema_add_column "contacts" (plain_column "valueOf" "Value" TNumber false)
        contacts_with_kim).1).2
  = Ok {[ "id" := VStr "u-1"; "name" := VStr "Kim"; "email" := VStr "kim@example.com";
          "valueOf" := VNull;
          "createdAt" := VStr "2024-05-02T10:00:00.000Z";
          "updatedAt" := VStr "2024-05-03T08:00:00.000Z" ]}.
Proof. evaluate. Qed.

(** ** The columns of the grid *)

(** X29.  The grid shows every column of the schema except those named
    [id], each as often as the schema has it, the columns named
    [createdAt] and [updatedAt] after all the others. *)
Theorem grid_shows_every_column_but_id (s : schema) :
  displayColumns s ≡ₚ
    List.filter (fun col => negb (bool_decide (name col = "id"))) (columns s) /\
  exists regular timestamps,
    displayColumns s = (regular ++ timestamps)%list /\
    Forall (fun col => name col <> "id" /\ name col <> "createdAt" /\
                       name col <> "updatedAt") regular /\
    Forall (fun col => name col = "createdAt" \/ name col = "updatedAt") timestamps.
Proof.
  unfold displayColumns. split.
  - induction (columns s) as [|c cols IH]; [done|]. cbn [List.filter].
    destruct (decide (name c = "id")) as [Hid|Hid].
    { rewrite Hid. simpl. exact IH. }
    rewrite (bool_decide_eq_false_2 _ Hid). cbn [negb andb].
    destruct (decide (name c = "createdAt")) as [Hc|Hc].
    { rewrite Hc. simpl. rewrite <-Permutation_middle. by constructor. }
    rewrite (bool_decide_eq_false_2 _ Hc). cbn [negb andb orb].
    destruct (decide (name c = "updatedAt")) as [Hu|Hu].
    { rewrite Hu. simpl. rewrite <-Permutation_middle. by constructor. }
    rewrite (bool_decide_eq_false_2 _ Hu). simpl. by constructor.
  - eexists _, _. split; [reflexivity|]. split; apply Forall_forall; intros c Hc;
      apply list_elem_of_In, filter_In in Hc as [_ Hc].
    + repeat (apply andb_prop in Hc as [Hc ?]).
      repeat match goal with
             | H : negb (bool_decide _) = true |- _ =>
                 apply negb_true_iff, bool_decide_eq_false in H
             end. done.
    + apply orb_prop in Hc as [Hc|Hc]; apply bool_decide_eq_true in Hc; auto.
Qed.
(** * Validating again *)

Section validating_again.
Context `{!Engine}.

Lemma get_empty_is_owned k o :
  get k o = Some (VStr "") -> own o !! k = Some (VStr "").
Proof. unfold get. destruct (own o !! k); [done|]. by case_match. Qed.

(** Where the validator sets a field to null for want of a value, or for
    an empty string, the row gets the field. *)
Lemma set_null_written k o :
  get k o = None \/ is_Some (own o !! k) ->
  set_null k o = {| own := <[k := VNull]> (own o); inherits := inherits o |}.
Proof.
  intros Hget. unfold set_null.
  destruct (decide (k = "__proto__")) as [->|Hne];
    [|by rewrite (bool_decide_eq_false_2 _ Hne)].
  destruct (own o !! "__proto__") as [v|] eqn:Hown.
  { by rewrite (bool_decide_eq_false_2 (Some v = None)), andb_false_r. }
  destruct Hget as [Hget|[v Hv]]; [|done].
  unfold get in Hget. rewrite Hown in Hget.
  destruct (inherits o); [|done]. by rewrite bool_decide_eq_true_2 in Hget by compute_done.
Qed.

Lemma get_written k r i : get k {| own := <[k := VNull]> r; inherits := i |} = Some VNull.
Proof. unfold get. simpl. by rewrite lookup_insert_eq. Qed.

(** What one column does to the row: it sets its field to null, or does
    nothing. *)
Lemma validateColumn_object c o c' o' :
  validateColumn c o = (c', Ok o') ->
  o' = if coerces c (get (name c) o) then set_null (name c) o else o.
Proof.
  unfold validateColumn. intros Hv.
  destruct (get (name c) o) as [v|] eqn:Hget.
  - rewrite (bool_decide_eq_false_2 (Some v = None)), andb_false_r in Hv by done.
    destruct (decide (v = VStr "")) as [->|Hempty].
    + rewrite bool_decide_eq_true_2 in Hv by done. simpl.
      rewrite set_null_written in Hv |- *
        by (right; by rewrite (get_empty_is_owned _ _ Hget)).
      rewrite get_written in Hv. by injection Hv as <- <-.
    + rewrite bool_decide_eq_false_2 in Hv by congruence. rewrite Hget in Hv.
      destruct (decide (v = VNull)) as [->|Hnull]; [by injection Hv as <- <-|].
      pose proof (check_type_object c v o) as Hct.
      destruct (check_type c v o) as [o3 c3]. simpl in Hct. subst o3.
      assert (o' = if bool_decide (type c = TNumber) && isNaN v
                   then set_null (name c) o else o) as ->.
      { destruct v; [done|..]; destruct (check_rules c); by simplify_eq. }
      unfold coerces.
      destruct v as [| | |[|]|]; try done; by destruct (type c).
  - rewrite (bool_decide_eq_true_2 (None = None)), andb_true_r in Hv by done.
    rewrite (bool_decide_eq_false_2 (None = Some _)) in Hv by done. simpl.
    destruct (required c && negb (generated c)).
    + rewrite set_null_written in Hv |- * by by left.
      rewrite get_written in Hv. by injection Hv as <- <-.
    + rewrite Hget in Hv. by injection Hv as <- <-.
Qed.

Lemma get_set_null k k' o :
  k' <> "__proto__" ->
  get k (set_null k' o) = if bool_decide (k' = k) then Some VNull else get k o.
Proof.
  intros Hk'. unfold set_null. rewrite (bool_decide_eq_false_2 _ Hk'). simpl.
  unfold get. simpl. destruct (decide (k' = k)) as [->|Hk].
  - by rewrite lookup_insert_eq, bool_decide_eq_true_2.
  - by rewrite lookup_insert_ne, (bool_decide_eq_false_2 (k' = k)).
Qed.

Lemma inherits_set_null k o : k <> "__proto__" -> inherits (set_null k o) = inherits o.
Proof. intros Hk. unfold set_null. by rewrite (bool_decide_eq_false_2 _ Hk). Qed.

(** Without a column named [__proto__] the row keeps its prototype, and
    the columns do to what a field reads as what they do to a field that
    the row owns. *)
Lemma validateColumn_get c o c' o' k :
  validateColumn c o = (c', Ok o') -> name c <> "__proto__" ->
  get k o' = (if bool_decide (name c = k) && coerces c (get k o) then Some VNull
              else get k o) /\
  inherits o' = inherits o.
Proof.
  intros Hv%validateColumn_object Hproto. subst o'.
  destruct (coerces c (get (name c) o)) eqn:Hc.
  - rewrite get_set_null, inherits_set_null by done. split; [|done].
    case_bool_decide as Hk; [|done]. subst k. by rewrite Hc.
  - split; [|done]. case_bool_decide as Hk; [|done]. subst k. by rewrite Hc.
Qed.

Lemma validateColumns_get cols o cols' o' k :
  validateColumns cols o = (cols', Ok o') ->
  Forall (fun c => name c <> "__proto__") cols ->
  get k o' = normalise cols k (get k o) /\ inherits o' = inherits o.
Proof.
  revert o cols' o'. induction cols as [|c cs IH]; intros o cols' o' Hv Hproto;
    simpl in Hv.
  { by injection Hv as <- <-. }
  apply Forall_cons in Hproto as [Hc Hcs].
  destruct (validateColumn c o) as [c1 [o1|e]] eqn:Hcol; [|done].
  destruct (validateColumns cs o1) as [cs1 res1] eqn:Hrest. injection Hv as <- ->.
  destruct (validateColumn_get _ _ _ _ k Hcol Hc) as [Hget1 Hinh1].
  destruct (IH _ _ _ Hrest Hcs) as [Hget Hinh].
  rewrite Hget, Hinh, Hget1, normalise_cons. split; [|done].
  case_match; [apply normalise_null|done].
Qed.

(** Once a column has let a value stand, it lets it stand again, in any
    row: the value is no number that [isNaN] rejects, it is among the
    options if the column has options, and the pattern compiles. *)
Lemma validateColumn_settles c o c' o1 v :
  validateColumn c o = (c', Ok o1) -> name c <> "__proto__" ->
  get (name c) o1 = Some v -> v <> VNull ->
  (forall o0, check_type c' v o0 = (o0, c')) /\ check_rules c' = None.
Proof.
  intros Hv Hproto Hget1 Hnull.
  pose proof (validateColumn_object _ _ _ _ Hv) as Ho1.
  destruct (coerces c (get (name c) o)) eqn:Hcoerce.
  { subst o1. rewrite get_set_null, bool_decide_eq_true_2 in Hget1 by done. congruence. }
  subst o1. rewrite Hget1 in Hcoerce.
  assert (v <> VStr "") as Hempty by (intros ->; done).
  unfold validateColumn in Hv. rewrite Hget1 in Hv.
  rewrite (bool_decide_eq_false_2 (Some v = None)), andb_false_r in Hv by done.
  rewrite bool_decide_eq_false_2, Hget1 in Hv by congruence.
  destruct (check_type c v o) as [o3 c3] eqn:Hct.
  assert (c' = c3 /\ check_rules c = None) as (-> & Hrules).
  { destruct v; [done|..]; destruct (check_rules c); by simplify_eq. }
  split; [|by rewrite (check_rules_shape _ _ (check_type_shape _ _ _ _ _ Hct))].
  assert (type c = TNumber -> isNaN v = false) as Hnan.
  { intros Hty. unfold coerces in Hcoerce. rewrite Hty in Hcoerce.
    by destruct v as [| | |[|]|]. }
  intros o0. unfold check_type in Hct |- *.
  destruct (type c) eqn:Hty.
  all: try (injection Hct as <- <-; by rewrite Hty).
  - rewrite (Hnan eq_refl) in Hct. injection Hct as <- <-.
    by rewrite Hty, (Hnan eq_refl).
  - destruct (options c) as [opts|] eqn:Hopts.
    + destruct (bool_decide (v ∈ opts)) eqn:Hin; injection Hct as <- <-.
      * by rewrite Hty, Hopts, Hin.
      * simpl. rewrite Hty. rewrite bool_decide_eq_true_2; [done|].
        apply elem_of_app. right. by left.
    + injection Hct as <- <-. by rewrite Hty, Hopts.
Qed.

Lemma validateColumn_stable c o :
  coerces c (get (name c) o) = false ->
  (forall v, get (name c) o = Some v -> v <> VNull ->
     check_type c v o = (o, c) /\ check_rules c = None) ->
  validateColumn c o = (c, Ok o).
Proof.
  intros Hcoerce Hsettled. unfold validateColumn.
  destruct (get (name c) o) as [v|] eqn:Hget.
  - rewrite (bool_decide_eq_false_2 (Some v = None)), andb_false_r by done.
    destruct (decide (v = VStr "")) as [->|Hempty]; [done|].
    rewrite (bool_decide_eq_false_2 (Some v = Some (VStr ""))) by congruence.
    rewrite Hget.
    destruct (decide (v = VNull)) as [->|Hnull]; [done|].
    destruct (Hsettled v eq_refl Hnull) as [-> ->]. by destruct v.
  - simpl in Hcoerce. rewrite Hcoerce. simpl. by rewrite Hget.
Qed.

Lemma normalise_Some_inv cols k v x :
  normalise cols k v = Some x -> x <> VNull -> v = Some x.
Proof. unfold normalise. destruct (existsb _ cols); congruence. Qed.

Lemma validateColumns_settles cols o cols' o' :
  validateColumns cols o = (cols', Ok o') ->
  Forall (fun c => name c <> "__proto__") cols ->
  Forall (fun c' => forall v, get (name c') o' = Some v -> v <> VNull ->
            (forall o0, check_type c' v o0 = (o0, c')) /\ check_rules c' = None) cols'.
Proof.
  revert o cols'. induction cols as [|c cs IH]; intros o cols' Hv Hproto; simpl in Hv.
  { injection Hv as <- <-. constructor. }
  apply Forall_cons in Hproto as [Hc Hcs].
  destruct (validateColumn c o) as [c1 [o1|e]] eqn:Hcol; [|done].
  destruct (validateColumns cs o1) as [cs' res] eqn:Hrest.
  injection Hv as <- ->. constructor; [|by apply (IH o1)].
  intros v Hget' Hnull.
  assert (name c1 = name c) as Hname by apply (validateColumn_shape _ _ _ _ Hcol).
  apply (validateColumn_settles _ _ _ _ _ Hcol); [done| |done].
  rewrite Hname in Hget'.
  rewrite (proj1 (validateColumns_get _ _ _ _ (name c) Hrest Hcs)) in Hget'.
  by apply (normalise_Some_inv _ _ _ _ Hget').
Qed.

Lemma settled_not_coerced cols v c :
  normalise cols (name c) v = v -> c ∈ cols -> coerces c v = false.
Proof.
  intros Hnormal Hc. destruct (coerces c v) eqn:Hcoerce; [|done].
  unfold normalise in Hnormal.
  assert (existsb (fun c' => bool_decide (name c' = name c) && coerces c' v) cols = true)
    as Hex.
  { apply existsb_exists. exists c. split; [by apply list_elem_of_In|].
    by rewrite bool_decide_eq_true_2. }
  rewrite Hex in Hnormal. rewrite <-Hnormal in Hcoerce. by rewrite coerces_null in Hcoerce.
Qed.

Lemma normal_row_not_coerced cols r c :
  normal_row cols r -> c ∈ cols -> coerces c (r !! name c) = false.
Proof. intros Hnormal Hc. by apply (settled_not_coerced cols). Qed.

Lemma validateColumns_stable cols o :
  Forall (fun c => validateColumn c o = (c, Ok o)) cols ->
  validateColumns cols o = (cols, Ok o).
Proof.
  induction 1 as [|c cs Hc _ IH]; simpl; [done|]. by rewrite Hc, IH.
Qed.

(** X30.  Validation is idempotent on schemas without a column named
    [__proto__]: validating again a row that validation returned, against
    the columns as validation left them, returns the same row and leaves
    the same columns (no option is added and nothing is turned into null
    the second time). *)
Theorem validating_again_changes_nothing (cols : list column) (r : row)
    (cols' : list column) (r' : row) :
  Forall (fun c => name c <> "__proto__") cols ->
  validateRow cols r = (cols', Ok r') ->
  validateRow cols' r' = (cols', Ok r').
Proof.
  intros Hproto (o & Hv & <-)%validateRow_Ok.
  pose proof (validateColumns_shape _ _ _ _ Hv) as Hshape.
  assert (literal (own o) = o) as Hliteral.
  { destruct (validateColumns_get _ _ _ _ "" Hv Hproto) as [_ Hinh].
    destruct o as [own0 inh]. simpl in Hinh. by subst inh. }
  apply validateRow_Ok. exists o. split; [|done]. rewrite Hliteral.
  apply validateColumns_stable.
  pose proof (validateColumns_settles _ _ _ _ Hv Hproto) as Hsettled.
  rewrite Forall_forall in Hsettled |- *. intros c Hc.
  apply validateColumn_stable.
  - apply (settled_not_coerced cols'); [|done].
    rewrite (normalise_shape _ _ _ _ Hshape).
    rewrite (proj1 (validateColumns_get _ _ _ _ (name c) Hv Hproto)).
    apply normalise_idem.
  - intros v Hget Hnull. destruct (Hsettled c Hc v Hget Hnull) as [Htype Hrules].
    by rewrite Htype.
Qed.

End validating_again.

(** With two columns named [__proto__] the second validation can differ
    from the first: the first takes the prototype of the row away and
    then makes of [__proto__] a field of the row, so that the row
    validated again reads an inherited [constructor] that it did not read
    before, which joins the options. *)
Example validating_again_adds_an_option :
  validateRow
    [plain_column "__proto__" "P" TNumber false;
     plain_column "__proto__" "P" TString true;
     with_options (plain_column "constructor" "C" TSelect false) []] ∅
  = ([plain_column "__proto__" "P" TNumber false;
      plain_column "__proto__" "P" TString true;
      with_options (plain_column "constructor" "C" TSelect false) []],
     Ok {[ "__proto__" := VNull ]}) /\
  validateRow
    [plain_column "__proto__" "P" TNumber false;
     plain_column "__proto__" "P" TString true;
     with_options (plain_column "constructor" "C" TSelect false) []]
    {[ "__proto__" := VNull ]}
  = ([plain_column "__proto__" "P" TNumber false;
      plain_column "__proto__" "P" TString true;
      with_options (plain_column "constructor" "C" TSelect false)
        [VProto "constructor"]],
     Ok {[ "__proto__" := VNull ]}).
Proof. split; evaluate. Qed.

(** * The properties at work on the contacts *)

Lemma contacts_own_names : own_names (columns contacts_schema).
Proof. unfold own_names. compute_done. Qed.

Lemma contacts_with_kim_normal : normal_rows "contacts" contacts_with_kim.
Proof.
  apply insert_normal_rows; [|by apply normal_rows_new].
  intros s [= <-]. apply contacts_own_names.
Qed.

Lemma contacts_with_kim_rows : data contacts_with_kim !! "contacts" = Some [stored_kim].
Proof. evaluate. Qed.

Lemma contacts_with_kim_ids : NoDup (row_ids "contacts" contacts_with_kim).
Proof.
  rewrite (row_ids_rows _ _ _ contacts_with_kim_rows). apply NoDup_singleton.
Qed.


Lemma query_with_more_filters_refines_witness :
  query "contacts" {[ "name" := VStr "ki" ]} contacts_with_kim =
    Ok (List.filter (filters_hold {[ "name" := VStr "ki" ]}) [stored_kim]).
Proof.
  apply (query_with_more_filters_refines "contacts" ∅).
  - apply map_empty_subseteq.
  - evaluate.
Defined.

Lemma findById_after_insert_witness :
  findById "contacts" (VStr "u-1") contacts_with_kim = Ok (Some stored_kim).
Proof.
  destruct (findById_after_insert "contacts" kim kim_reading contacts_store
              contacts_with_kim stored_kim (VStr "u-1")) as [_ Hfresh].
  - evaluate.
  - reflexivity.
  - apply Hfresh. vm_compute. apply not_elem_of_nil.
Defined.

Lemma findById_after_update_witness :
  findById "contacts" (VStr "u-1")
    (update "contacts" (VStr "u-1") forged "2024-05-03T08:00:00.000Z" contacts_with_kim).1
  = Ok (Some {[ "id" := VStr "u-1"; "name" := VStr "Kim";
                "email" := VStr "kim@example.com";
                "createdAt" := VStr "2024-05-02T10:00:00.000Z";
                "updatedAt" := VStr "2024-05-03T08:00:00.000Z" ]}).
Proof.
  apply (findById_after_update "contacts" (VStr "u-1") forged
           "2024-05-03T08:00:00.000Z" contacts_with_kim).
  - exact (normal_rows_settled "id" _ _ contacts_with_kim_normal).
  - evaluate.
Defined.


Lemma deleted_id_is_gone_witness :
  findById "contacts" (VStr "u-1") contacts_without_kim = Ok None.
Proof.
  apply (deleted_id_is_gone "contacts" (VStr "u-1") contacts_with_kim).
  - evaluate.
  - exact contacts_with_kim_ids.
Defined.

Lemma bulkInsert_into_unknown_menu_fails_every_row_witness :
  bulkInsert "orders" [(kim, kim_reading)] contacts_store =
    (contacts_store,
     {| success := [];
        failed := [{| failed_data := kim; failed_error := MenuNotFound "orders" |}] |}).
Proof.
  apply (bulkInsert_into_unknown_menu_fails_every_row "orders" [(kim, kim_reading)]).
  reflexivity.
Defined.

Lemma deleteMenu_undoes_createMenu_witness :
  menus (deleteMenu "notes" contacts_and_notes).1 = menus contacts_store /\
  data (deleteMenu "notes" contacts_and_notes).1 = data contacts_store.
Proof.
  destruct (deleteMenu_undoes_createMenu notes_draft "2024-05-04T09:00:00.000Z"
              "2024-05-04T09:00:00.000Z" contacts_store contacts_and_notes notes_menu)
    as (Hmenus & _ & Hdata & _).
  - evaluate.
  - reflexivity.
  - reflexivity.
  - reflexivity.
  - split; assumption.
Defined.

Lemma stats_follow_the_rows_witness :
  totalRows (getStats contacts_with_kim) = S (totalRows (getStats contacts_store)).
Proof.
  destruct (stats_follow_the_rows "contacts" contacts_store) as (Hinsert & _).
  - by eexists.
  - apply (Hinsert kim kim_reading contacts_with_kim stored_kim). evaluate.
Defined.


Lemma gemini_finds_the_object_in_the_reply_witness :
  gemini_json_text ("```json " ++ ("{" ++ "" ++ "}") ++ " ```") = Some ("{" ++ "" ++ "}").
Proof.
  apply (gemini_finds_the_object_in_the_reply "```json " "" " ```");
    unfold brace_free; compute_done.
Defined.

Lemma delete_column_undoes_add_column_witness :
  exists st1 st2,
    POST_schema_add_column "contacts" phone_column contacts_store
    = (st1, Success 200 (with_columns contacts_schema
                           (columns contacts_schema ++ [phone_column]))) /\
    route "phone" (fun columnName => DELETE_schema_column "contacts" columnName st1)
    = Some (st2, Success 200 contacts_schema).
Proof.
  destruct (delete_column_undoes_add_column "contacts" phone_column contacts_schema
              contacts_store) as (st1 & st2 & Hadd & Hdel & _).
  - reflexivity.
  - reflexivity.
  - discriminate.
  - exists st1, st2. split; [exact Hadd|exact Hdel].
Defined.

Lemma added_required_column_is_filled_on_update_witness :
  exists st1 st2 r,
    POST_schema_add_column "contacts" phone_column contacts_with_kim
    = (st1, Success 200 (with_columns contacts_schema
                           (columns contacts_schema ++ [phone_column]))) /\
    update "contacts" (VStr "u-1") ∅ "2024-05-03T08:00:00.000Z" st1 = (st2, Ok r) /\
    r !! "phone" = Some VNull.
Proof.
  destruct (added_required_column_is_filled_on_update "contacts" phone_column
              contacts_schema contacts_with_kim [stored_kim] (VStr "u-1") 0 stored_kim ∅
              "2024-05-03T08:00:00.000Z")
    as (st1 & st2 & r & Hadd & _ & Hupd & Hnull & _).
  - evaluate.
  - exact contacts_with_kim_rows.
  - reflexivity.
  - reflexivity.
  - discriminate.
  - discriminate.
  - discriminate.
  - compute_done.
  - apply Forall_app. split; [apply contacts_patterns_compile|by repeat constructor].
  - reflexivity.
  - reflexivity.
  - reflexivity.
  - exists st1, st2, r. split; [exact Hadd|]. split; [exact Hupd|exact Hnull].
Defined.

Lemma client_rows_follow_the_server_witness :
  data contacts_without_kim !! "contacts"
  = Some (currentData (deleteData (VStr "u-1") (showing [stored_kim]))).
Proof.
  destruct (client_rows_follow_the_server "contacts" contacts_with_kim [stored_kim]
              (showing [stored_kim])) as (_ & _ & Hdelete).
  - exact contacts_with_kim_rows.
  - exact contacts_with_kim_ids.
  - reflexivity.
  - apply (Hdelete "u-1" contacts_without_kim "Data deleted successfully"). evaluate.
Defined.

Lemma blank_form_is_stored_as_nulls_witness :
  exists st' r,
    POST_data "contacts" (initialData contacts_schema) kim_reading contacts_store
    = (st', Success 201 r) /\
    r !! "name" = Some VNull /\ r !! "email" = Some VNull.
Proof.
  destruct (blank_form_is_stored_as_nulls "contacts" contacts_schema kim_reading
              contacts_store []) as (st' & r & Hpost & _ & Hnull).
  - reflexivity.
  - reflexivity.
  - exact contacts_patterns_compile.
  - exists st', r. split; [exact Hpost|]. split.
    + apply (Hnull (plain_column "name" "Name" TString true));
        [by apply (list_elem_of_lookup_2 _ 1%nat)|reflexivity|reflexivity|
         discriminate|discriminate|discriminate].
    + apply (Hnull (plain_column "email" "Email" TEmail true));
        [by apply (list_elem_of_lookup_2 _ 2%nat)|reflexivity|reflexivity|
         discriminate|discriminate|discriminate].
Defined.

Lemma saving_an_unchanged_row_only_stamps_it_witness :
  exists st' r,
    update "contacts" (VStr "u-1") stored_kim "2024-05-03T08:00:00.000Z" contacts_with_kim
    = (st', Ok r) /\
    r !! "name" = Some (VStr "Kim").
Proof.
  destruct (saving_an_unchanged_row_only_stamps_it "contacts" contacts_with_kim
              [stored_kim] (VStr "u-1") 0 stored_kim "2024-05-03T08:00:00.000Z"
              contacts_schema) as (st' & r & Hupd & Hsame & _).
  - exact contacts_with_kim_normal.
  - exact contacts_with_kim_rows.
  - evaluate.
  - exact contacts_patterns_compile.
  - reflexivity.
  - reflexivity.
  - exists st', r. split; [exact Hupd|].
    rewrite Hsame; [reflexivity|discriminate|]. by apply owned_reads_own.
Defined.

Lemma validating_again_changes_nothing_witness :
  validateRow [with_options status_column [VStr "open"; VStr "closed"; VStr "pending"]]
    {[ "status" := VStr "pending" ]}
  = ([with_options status_column [VStr "open"; VStr "closed"; VStr "pending"]],
     Ok {[ "status" := VStr "pending" ]}).
Proof.
  apply (validating_again_changes_nothing [status_column] {[ "status" := VStr "pending" ]}).
  - by repeat constructor.
  - evaluate.
Defined.
